(** * msgraph-shared-mailbox: a shallow embedding of [MailClient]

    The development models [src/MailClient.ts] and [src/utils.ts]:
    recipient parsing, the attachment upload step with its three sources
    (in-memory content, local path, remote URL), the chunked upload session
    loops, and message retrieval.

    Conventions.
    - JavaScript numbers that carry sizes and offsets are integers, modelled
      as [Z]; [%] is the truncating remainder [Z.rem], and
      [Math.floor (a / b)] for a positive [b] is [Z.div]. The numbers of the
      code are doubles: its arithmetic is the one of [Z] on the integers
      whose magnitude is at most [MAX_SAFE_INTEGER], and a statement that
      depends on the arithmetic beyond them says so.
    - JavaScript strings are modelled as [string]: sequences of code units
      below 256.
    - A [Buffer] is a [list byte].
    - Asynchronous code runs one step at a time, so it is modelled as
      sequential code in a monad that threads the chronological log of the
      calls made to the outside world (Graph client, [fetch], [fs], logger),
      and whose outcome is a returned value, a thrown error, or exhausted
      fuel (for the [while] loops).
    - The outside world is a record of oracles, each of which answers a call
      from the log of the calls made before it. *)

From Stdlib Require Import ZArith List String Ascii Strings.Byte Bool Lia Sorted.
From Stdlib Require Import DecimalString.
Import ListNotations.

Open Scope string_scope.
Open Scope list_scope.
Open Scope Z_scope.

(** ** Constants and configuration *)

(** [const base = 320 * 1024] *)
Definition base : Z := 320 * 1024.

(** [const MAX_ATTACHMENT_SIZE = 150 * 1024 * 1024] *)
Definition MAX_ATTACHMENT_SIZE : Z := 150 * 1024 * 1024.

(** [Number.MAX_SAFE_INTEGER]: up to this magnitude the integers are
    doubles, and the remainder, the rounded quotient by [base] and the
    product of the chunk-size normalisation are exact. *)
Definition MAX_SAFE_INTEGER : Z := 2 ^ 53 - 1.

(** [Required<AttachmentUploadOptions>] *)
Record AttachmentUploadOptions : Type := {
  largeFileThreshold : Z;
  chunkSize : Z
}.

Definition defaultAttachmentUploadOptions : AttachmentUploadOptions :=
  {| largeFileThreshold := 3 * 1024 * 1024; chunkSize := 320 * 1024 |}.

(** The block that appears in the constructor and again in every upload
    routine:
    [if (chunkSize % base !== 0) chunkSize = Math.max(base, Math.floor(chunkSize / base) * base)] *)
Definition normalizeChunkSize (chunkSize : Z) : Z :=
  if negb (Z.rem chunkSize base =? 0)
  then Z.max base (chunkSize / base * base)
  else chunkSize.

(** ** Buffers *)

Definition Buffer : Type := list byte.

(** [buf.length] *)
Definition buf_length (b : Buffer) : Z := Z.of_nat (List.length b).

(** Index normalisation of [TypedArray.prototype.subarray]: a negative
    index counts from the end, and every index is clamped to [0, len]. *)
Definition relIndex (len i : Z) : Z :=
  if i <? 0 then Z.max (len + i) 0 else Z.min i len.

(** [buf.subarray(s, e)] *)
Definition subarray (b : Buffer) (s e : Z) : Buffer :=
  let len := buf_length b in
  let from := relIndex len s in
  let to := relIndex len e in
  firstn (Z.to_nat (Z.max (to - from) 0)) (skipn (Z.to_nat from) b).

(** [buf.subarray(s)] *)
Definition subarray_from (b : Buffer) (s : Z) : Buffer :=
  subarray b s (buf_length b).

(** [Buffer.concat(list)] *)
Definition Buffer_concat (l : list Buffer) : Buffer := List.concat l.

(** Template-literal rendering of an integer. *)
Definition show_Z (z : Z) : string := NilEmpty.string_of_int (Z.to_int z).

(** ** Strings *)

(** A string is truthy when it is not empty. *)
Definition truthy (s : string) : bool :=
  match s with
  | EmptyString => false
  | String _ _ => true
  end.

(** [opt] is an optional string field; it is truthy when present and not
    empty. *)
Definition truthy_opt (opt : option string) : bool :=
  match opt with
  | Some s => truthy s
  | None => false
  end.

(** [x || fallback] on strings. *)
Definition or_else (s fallback : string) : string :=
  if truthy s then s else fallback.

(** [s.split(sep)] for a one-character separator. *)
Fixpoint split_on (sep : ascii) (s : string) : list string :=
  match s with
  | EmptyString => [EmptyString]
  | String c r =>
    if Ascii.eqb c sep then EmptyString :: split_on sep r
    else match split_on sep r with
         | p :: ps => String c p :: ps
         | [] => [String c EmptyString]
         end
  end.

(** [array.pop()] read as a value: the last element, if there is one. *)
Fixpoint pop (l : list string) : option string :=
  match l with
  | [] => None
  | [x] => Some x
  | _ :: r => pop r
  end.

(** [array.join(sep)] *)
Fixpoint join (sep : string) (l : list string) : string :=
  match l with
  | [] => EmptyString
  | [x] => x
  | x :: r => (x ++ sep ++ join sep r)%string
  end.

(** The character class [[;,]]. *)
Definition isSeparator (c : ascii) : bool :=
  Ascii.eqb c ";" || Ascii.eqb c ",".

(** [s.split(/[;,]+/)]: the pieces between maximal runs of separators.
    [inRun] tells that the character before [s] belonged to a run. *)
Fixpoint split_runs (inRun : bool) (s : string) : list string :=
  match s with
  | EmptyString => [EmptyString]
  | String c r =>
    if isSeparator c then
      if inRun then split_runs true r
      else EmptyString :: split_runs true r
    else match split_runs false r with
         | p :: ps => String c p :: ps
         | [] => [String c EmptyString]
         end
  end.

Definition split_separators (s : string) : list string := split_runs false s.

(** White space and line terminators of ECMAScript among the code units
    below 256: TAB, LF, VT, FF, CR, SP and NBSP. *)
Definition isWhiteSpace (c : ascii) : bool :=
  let n := N_of_ascii c in
  ((9 <=? n) && (n <=? 13) || (n =? 32) || (n =? 160))%N.

Fixpoint trimStart (s : string) : string :=
  match s with
  | EmptyString => EmptyString
  | String c r => if isWhiteSpace c then trimStart r else s
  end.

Fixpoint trimEnd (s : string) : string :=
  match s with
  | EmptyString => EmptyString
  | String c r =>
    match trimEnd r with
    | EmptyString => if isWhiteSpace c then EmptyString else String c EmptyString
    | r' => String c r'
    end
  end.

(** [s.trim()] *)
Definition trim (s : string) : string := trimEnd (trimStart s).

(** [toLowerCase] on one code unit below 256. *)
Definition lower_char (c : ascii) : ascii :=
  let n := N_of_ascii c in
  if ((65 <=? n) && (n <=? 90)
      || (192 <=? n) && (n <=? 222) && negb (n =? 215))%N
  then ascii_of_N (n + 32)
  else c.

(** [s.toLowerCase()] *)
Fixpoint toLowerCase (s : string) : string :=
  match s with
  | EmptyString => EmptyString
  | String c r => String (lower_char c) (toLowerCase r)
  end.

(** [/^https?:\/\//i.test(href)] *)
Definition is_http_url (href : string) : bool :=
  let l := toLowerCase href in
  String.prefix "http://" l || String.prefix "https://" l.

(** [s.replace(/'/g, "''")] *)
Fixpoint escape_quotes (s : string) : string :=
  match s with
  | EmptyString => EmptyString
  | String c r =>
    if Ascii.eqb c "'" then String c (String c (escape_quotes r))
    else String c (escape_quotes r)
  end.

Fixpoint string_forallb (p : ascii -> bool) (s : string) : bool :=
  match s with
  | EmptyString => true
  | String c r => p c && string_forallb p r
  end.

(** Is there an [@] in [s] with at least one character before it and at
    least one after it?  [seen] tells that a character came before. *)
Fixpoint inner_at (seen : bool) (s : string) : bool :=
  match s with
  | EmptyString => false
  | String c r => (seen && Ascii.eqb c "@" && truthy r) || inner_at true r
  end.

(** Splits off the last character. *)
Fixpoint unsnoc (s : string) : option (string * ascii) :=
  match s with
  | EmptyString => None
  | String c r =>
    match unsnoc r with
    | None => Some (EmptyString, c)
    | Some (r', d) => Some (String c r', d)
    end
  end.

(** [/^<[^>]+@[^>]+>$/.test(id)] *)
Definition looks_like_internet_id (id : string) : bool :=
  match id with
  | String c r =>
    Ascii.eqb c "<" &&
    match unsnoc r with
    | Some (inner, d) =>
      Ascii.eqb d ">"
      && string_forallb (fun x => negb (Ascii.eqb x ">")) inner
      && inner_at false inner
    | None => false
    end
  | EmptyString => false
  end.

(** ** Encodings *)

Definition byte_of_N (n : N) : byte := byte_of_ascii (ascii_of_N n).

(** [Buffer.from(s)]: the UTF-8 encoding of a string of code units below
    256. *)
Fixpoint Buffer_from_string (s : string) : Buffer :=
  match s with
  | EmptyString => []
  | String c r =>
    let n := N_of_ascii c in
    if (n <? 128)%N then byte_of_N n :: Buffer_from_string r
    else byte_of_N (192 + N.shiftr n 6) :: byte_of_N (128 + N.land n 63)
           :: Buffer_from_string r
  end.

Definition base64_alphabet : string :=
  "ABCDEFGHIJKLMNOPQRSTUVWXYZabcdefghijklmnopqrstuvwxyz0123456789+/".

Definition base64_digit (n : N) : ascii :=
  match String.get (N.to_nat n) base64_alphabet with
  | Some c => c
  | None => "="%char
  end.

(** [buf.toString('base64')] *)
Fixpoint toBase64 (b : Buffer) : string :=
  match b with
  | [] => EmptyString
  | [x] =>
    let n := Byte.to_N x in
    String (base64_digit (N.shiftr n 2))
      (String (base64_digit (N.shiftl (N.land n 3) 4)) "==")
  | [x; y] =>
    let n := Byte.to_N x in
    let m := Byte.to_N y in
    String (base64_digit (N.shiftr n 2))
      (String (base64_digit (N.lor (N.shiftl (N.land n 3) 4) (N.shiftr m 4)))
         (String (base64_digit (N.shiftl (N.land m 15) 2)) "="))
  | x :: y :: z :: r =>
    let n := Byte.to_N x in
    let m := Byte.to_N y in
    let k := Byte.to_N z in
    String (base64_digit (N.shiftr n 2))
      (String (base64_digit (N.lor (N.shiftl (N.land n 3) 4) (N.shiftr m 4)))
         (String (base64_digit (N.lor (N.shiftl (N.land m 15) 2) (N.shiftr k 6)))
            (String (base64_digit (N.land k 63)) (toBase64 r))))
  end.

(** ** Content types ([src/utils.ts]) *)

Definition mimeTypes : list (string * string) :=
  [ ("pdf", "application/pdf");
    ("doc", "application/msword");
    ("docx", "application/vnd.openxmlformats-officedocument.wordprocessingml.document");
    ("xls", "application/vnd.ms-excel");
    ("xlsx", "application/vnd.openxmlformats-officedocument.spreadsheetml.sheet");
    ("ppt", "application/vnd.ms-powerpoint");
    ("pptx", "application/vnd.openxmlformats-officedocument.presentationml.presentation");
    ("jpg", "image/jpeg");
    ("jpeg", "image/jpeg");
    ("png", "image/png");
    ("gif", "image/gif");
    ("bmp", "image/bmp");
    ("svg", "image/svg+xml");
    ("webp", "image/webp");
    ("tiff", "image/tiff");
    ("tif", "image/tiff");
    ("txt", "text/plain");
    ("html", "text/html");
    ("htm", "text/html");
    ("css", "text/css");
    ("csv", "text/csv");
    ("xml", "text/xml");
    ("json", "application/json");
    ("zip", "application/zip");
    ("rar", "application/x-rar-compressed");
    ("7z", "application/x-7z-compressed");
    ("tar", "application/x-tar");
    ("gz", "application/gzip");
    ("bz2", "application/x-bzip2");
    ("mp3", "audio/mpeg");
    ("wav", "audio/wav");
    ("ogg", "audio/ogg");
    ("flac", "audio/flac");
    ("aac", "audio/aac");
    ("mp4", "video/mp4");
    ("avi", "video/x-msvideo");
    ("mov", "video/quicktime");
    ("wmv", "video/x-ms-wmv");
    ("flv", "video/x-flv");
    ("webm", "video/webm");
    ("mkv", "video/x-matroska");
    ("exe", "application/x-msdownload");
    ("dll", "application/x-msdownload");
    ("apk", "application/vnd.android.package-archive");
    ("dmg", "application/x-apple-diskimage");
    ("iso", "application/x-iso9660-image");
    ("jar", "application/java-archive");
    ("msi", "application/x-msi");
    ("bin", "application/octet-stream") ].

(** The value of a [contentType] field: a string of the table, or what the
    lookup of a property name that [mimeTypes] inherits from
    [Object.prototype] yields. *)
Inductive ContentType : Type :=
| Mime (s : string)
| Inherited (key : string).

Fixpoint assoc (key : string) (table : list (string * string)) : option string :=
  match table with
  | [] => None
  | (k, v) :: r => if String.eqb k key then Some v else assoc key r
  end.

(** The lower-case property names of [Object.prototype]. *)
Definition inherited_keys : list string := ["constructor"; "__proto__"].

(** [getContentTypeFromFileName(fileName)] *)
Definition getContentTypeFromFileName (fileName : string) : ContentType :=
  match pop (split_on "." fileName) with
  | None => Mime "application/octet-stream"
  | Some last =>
    let extension := toLowerCase last in
    if negb (truthy extension) then Mime "application/octet-stream"
    else match assoc extension mimeTypes with
         | Some v => Mime v
         | None =>
           if existsb (String.eqb extension) inherited_keys
           then Inherited extension
           else Mime "application/octet-stream"
         end
  end.

(** ** Recipients *)

Record EmailAddress : Type := { address : string }.

Record Recipient : Type := { emailAddress : EmailAddress }.

(** [string | string[] | undefined] *)
Inductive RecipientInput : Type :=
| NoInput
| OneString (s : string)
| ManyStrings (l : list string).

(** [!input] *)
Definition falsy_input (input : RecipientInput) : bool :=
  match input with
  | NoInput => true
  | OneString s => negb (truthy s)
  | ManyStrings _ => false
  end.

(** A [Set] of strings, as the list of its elements in insertion order. *)
Definition Set_add (set : list string) (x : string) : list string :=
  if existsb (String.eqb x) set then set else set ++ [x].

(** [Array.from(new Set(l))] *)
Definition Array_from_Set (l : list string) : list string :=
  fold_left Set_add l [].

(** The inner loop of [buildRecipients]:
    [for (const s of split) { const addr = s.trim(); if (addr) addresses.push(addr) }] *)
Definition push_trimmed (addresses : list string) (split : list string) : list string :=
  fold_left (fun acc s => let addr := trim s in
                          if truthy addr then acc ++ [addr] else acc)
            split addresses.

(** The addresses collected by the outer loop of [buildRecipients]. *)
Definition collect_addresses (parts : list string) : list string :=
  fold_left (fun acc p => push_trimmed acc (split_separators p)) parts [].

(** [buildRecipients(input)]; [None] is [undefined]. *)
Definition buildRecipients (input : RecipientInput) : option (list Recipient) :=
  if falsy_input input then None
  else
    let parts := match input with
                 | ManyStrings l => l
                 | OneString s => [s]
                 | NoInput => []
                 end in
    let addresses := collect_addresses parts in
    let unique := Array_from_Set addresses in
    match unique with
    | [] => None
    | _ => Some (map (fun a => {| emailAddress := {| address := a |} |}) unique)
    end.

(** ** Errors, requests, responses and events *)

(** A thrown value: [new Error(message)], or the [TypeError] that the
    engine throws. *)
Inductive JsError : Type :=
| Error (message : string)
| TypeError (message : string).

Definition Error_too_large : JsError := Error "Attachment size exceeds maximum 150MB".

(** The body of a [client.api(path).post(body)] call. *)
Inductive PostBody : Type :=
| DraftMessage (subject : string) (toRecipients : option (list Recipient))
    (ccRecipients bccRecipients : option (list Recipient))
    (body : option (string * string))
| FileAttachment (name : string) (contentBytes : string) (contentType : ContentType)
| AttachmentItem (name : string) (size : Z) (contentType : ContentType)
| EmptyBody.

(** What a [post] resolves to; the code reads [id], [internetMessageId]
    and [uploadUrl]. *)
Record PostResponse : Type := {
  resp_id : string;
  resp_internetMessageId : string;
  resp_uploadUrl : string
}.

(** A call of the global [fetch]. A [PUT] carries the [Content-Length]
    header, the three numbers of [Content-Range: bytes start-end/total],
    and the body. *)
Inductive FetchRequest : Type :=
| HEAD (url : string)
| GET (url : string)
| PUT (url : string) (contentLength : Z) (rangeStart rangeEnd rangeTotal : Z)
    (body : Buffer).

(** A [ReadableStream] as its reader sees it: the values of the
    successive [read()] calls, then either [done] or a rejection. *)
Record ByteStream : Type := {
  stream_chunks : list Buffer;
  stream_failure : option JsError
}.

(** What a [fetch] resolves to. *)
Record Response : Type := {
  res_ok : bool;
  res_status : Z;
  res_contentLength : option string;     (* headers.get('content-length') *)
  res_arrayBuffer : Buffer;              (* await res.arrayBuffer() *)
  res_body : option ByteStream           (* res.body *)
}.

(** [fs.Stats] *)
Record Stats : Type := {
  stats_isFile : bool;
  stats_size : Z
}.

(** A retrieved message, and an entry of its attachment listing. *)
Record AttachmentInfo : Type := {
  att_id : string;
  att_name : string
}.

Record Message : Type := {
  msg_id : string;
  msg_fields : list (string * string);
  msg_attachments : option (list AttachmentInfo)
}.

(** The value of [this.logger.error]: the default hook, which passes its
    arguments to [console.error]; a configured function; or a configured
    value that is no function, such as [undefined]. *)
Inductive LoggerHook : Type :=
| ConsoleError
| CustomError (hook : nat)
| NotAFunction.

(** The calls the program makes to its collaborators, in the order in
    which it makes them. [EvDestroyStream] is the one call that the code
    does not spell out: a [for await] loop over a read stream that is left
    by a throw of its body closes the iterator of the stream, which
    destroys the stream and, with it, closes its file handle. *)
Inductive Event : Type :=
| EvGraphPost (path : string) (body : PostBody)
| EvGraphGet (path : string) (filter : option string) (select : option string)
| EvFetch (req : FetchRequest)
| EvStat (path : string)
| EvReadFile (path : string)
| EvOpen (path : string)
| EvCreateReadStream (path : string) (highWaterMark : Z)
| EvDestroyStream (path : string)
| EvCloseStream (path : string)
| EvCloseFile (path : string)
| EvLoggerError (hook : LoggerHook) (message : string) (error : JsError).

Definition Log : Type := list Event.

(** The answer of a collaborator: a rejection or a value. *)
Definition Answer (A : Type) : Type := (JsError + A)%type.

(** The collaborators. Every oracle sees the log of the calls made so far.
    A configured logger function is one of them: called with a message and
    an error, it returns or it throws. The last three fields are platform
    functions the code calls:
    [Number(string)] ([None] is [NaN]), [new URL(href).pathname] ([None]
    when the constructor throws) and [path.basename]. *)
Record World : Type := {
  graph_post : Log -> string -> PostBody -> Answer PostResponse;
  graph_get_message : Log -> string -> string -> Answer Message;
  graph_get_list : Log -> string -> string -> string -> Answer (option (list Message));
  graph_get_attachments : Log -> string -> Answer (option (list AttachmentInfo));
  world_fetch : Log -> FetchRequest -> Answer Response;
  fs_stat : Log -> string -> Answer Stats;
  fs_readFile : Log -> string -> Answer Buffer;
  fs_open : Log -> string -> Answer unit;
  fs_createReadStream : Log -> string -> Z -> ByteStream;
  logger_hook : Log -> nat -> string -> JsError -> Answer unit;
  js_Number : string -> option Z;
  URL_pathname : string -> option string;
  path_basename : string -> string
}.

(** ** The monad of effectful code *)

Inductive Outcome (A : Type) : Type :=
| Returned (a : A)
| Thrown (e : JsError)
| OutOfFuel.

Arguments Returned {A} a.
Arguments Thrown {A} e.
Arguments OutOfFuel {A}.

Definition M (A : Type) : Type := Log -> Outcome A * Log.

Definition ret {A : Type} (a : A) : M A := fun log => (Returned a, log).

Definition throw {A : Type} (e : JsError) : M A := fun log => (Thrown e, log).

Definition diverge {A : Type} : M A := fun log => (OutOfFuel, log).

Definition bind {A B : Type} (m : M A) (k : A -> M B) : M B :=
  fun log =>
    match m log with
    | (Returned a, log') => k a log'
    | (Thrown e, log') => (Thrown e, log')
    | (OutOfFuel, log') => (OutOfFuel, log')
    end.

(** [try { m } catch (e) { h e }] *)
Definition try_catch {A : Type} (m : M A) (h : JsError -> M A) : M A :=
  fun log =>
    match m log with
    | (Thrown e, log') => h e log'
    | r => r
    end.

(** One call to a collaborator: it is logged, then it resolves or rejects. *)
Definition call {A : Type} (ev : Event) (answer : Log -> Answer A) : M A :=
  fun log =>
    match answer log with
    | inl e => (Thrown e, log ++ [ev])
    | inr a => (Returned a, log ++ [ev])
    end.

(** A call that cannot reject. *)
Definition emit {A : Type} (ev : Event) (answer : Log -> A) : M A :=
  fun log => (Returned (answer log), log ++ [ev]).

Declare Scope js_scope.
Delimit Scope js_scope with js.
Notation "x <- m ;; k" := (bind m (fun x => k))
  (at level 100, m at next level, right associativity) : js_scope.
Notation "m ;;; k" := (bind m (fun _ => k))
  (at level 100, right associativity) : js_scope.
Open Scope js_scope.

(** ** The client *)

Record MailClient : Type := {
  sharedMailbox : string;
  attachmentUploadOptions : AttachmentUploadOptions;
  logger : LoggerHook
}.

(** [await fetch(...)] *)
Definition fetch (w : World) (req : FetchRequest) : M Response :=
  call (EvFetch req) (fun log => world_fetch w log req).

(** [!res.ok && res.status !== 202 && res.status !== 201 && res.status !== 200] *)
Definition chunk_rejected (res : Response) : bool :=
  negb (res_ok res) && negb (res_status res =? 202)
  && negb (res_status res =? 201) && negb (res_status res =? 200).

(** The [while (offset < content.length)] loop of [uploadLargeContent]. *)
Fixpoint uploadLargeContent_loop (w : World) (fuel : nat) (uploadUrl : string)
    (content : Buffer) (chunkSize : Z) (offset : Z) : M unit :=
  match fuel with
  | O => diverge
  | S fuel' =>
    if offset <? buf_length content then
      let endExclusive := Z.min (offset + chunkSize) (buf_length content) in
      let chunk := subarray content offset endExclusive in
      let start := offset in
      let end_ := endExclusive - 1 in
      res <- fetch w (PUT uploadUrl (buf_length chunk) start end_ (buf_length content) chunk) ;;
      if chunk_rejected res
      then throw (Error ("Upload chunk failed with status " ++ show_Z (res_status res)))
      else uploadLargeContent_loop w fuel' uploadUrl content chunkSize endExclusive
    else ret tt
  end.

Definition attachments_path (c : MailClient) (messageId : string) : string :=
  ("/users/" ++ sharedMailbox c ++ "/messages/" ++ messageId ++ "/attachments")%string.

Definition createUploadSession_path (c : MailClient) (messageId : string) : string :=
  ("/users/" ++ sharedMailbox c ++ "/messages/" ++ messageId
     ++ "/attachments/createUploadSession")%string.

(** [client.api(path).post(body)] *)
Definition post (w : World) (path : string) (body : PostBody) : M PostResponse :=
  call (EvGraphPost path body) (fun log => graph_post w log path body).

(** [uploadLargeContent(messageId, fileName, content, contentType)] *)
Definition uploadLargeContent (w : World) (c : MailClient) (fuel : nat)
    (messageId fileName : string) (content : Buffer) (contentType : ContentType) : M unit :=
  let chunkSize := normalizeChunkSize (chunkSize (attachmentUploadOptions c)) in
  if buf_length content >? MAX_ATTACHMENT_SIZE then throw Error_too_large
  else
    session <- post w (createUploadSession_path c messageId)
                 (AttachmentItem fileName (buf_length content) contentType) ;;
    let uploadUrl := resp_uploadUrl session in
    uploadLargeContent_loop w fuel uploadUrl content chunkSize 0.

(** ** Attachments *)

(** [string | Buffer] *)
Inductive Content : Type :=
| ContentString (s : string)
| ContentBuffer (b : Buffer).

Record Attachment : Type := {
  filename : option string;
  content : option Content;
  path : option string;
  href : option string
}.

(** Truthiness of [attachment.content]: a [Buffer] is an object, hence
    truthy whatever its length; a string is truthy when not empty. *)
Definition truthy_content (c : option Content) : bool :=
  match c with
  | Some (ContentBuffer _) => true
  | Some (ContentString s) => truthy s
  | None => false
  end.

(** [Buffer.isBuffer(content) ? content : Buffer.from(content)] *)
Definition to_Buffer (c : Content) : Buffer :=
  match c with
  | ContentBuffer b => b
  | ContentString s => Buffer_from_string s
  end.

(** [x.split('/').pop() || 'attachment'] *)
Definition last_segment_or_attachment (x : string) : string :=
  match pop (split_on "/" x) with
  | Some s => or_else s "attachment"
  | None => "attachment"
  end.

(** An optional string that is truthy, if it is. *)
Definition truthy_string (opt : option string) : option string :=
  match opt with
  | Some s => if truthy s then Some s else None
  | None => None
  end.

(** The resolution of [fileName] at the head of the loop body of
    [uploadAttachments]. *)
Definition resolve_fileName (w : World) (a : Attachment) : string :=
  match truthy_string (filename a) with
  | Some f => f
  | None =>
    match truthy_string (path a) with
    | Some p => last_segment_or_attachment p
    | None =>
      match truthy_string (href a) with
      | Some h =>
        match URL_pathname w h with
        | Some pathname => or_else (path_basename w pathname) "attachment"
        | None => last_segment_or_attachment h
        end
      | None => "attachment"
      end
    end
  end.

(** The inline attach call:
    [client.api(`/users/.../messages/${messageId}/attachments`).post({...})] *)
Definition attach_inline (w : World) (c : MailClient) (messageId fileName : string)
    (buf : Buffer) (contentType : ContentType) : M unit :=
  _ <- post w (attachments_path c messageId)
         (FileAttachment fileName (toBase64 buf) contentType) ;;
  ret tt.

(** One turn of the body of a [for await] loop over the read stream of
    [filePath]: when the body throws, the iterator of the stream is closed
    and the error is thrown on. *)
Definition for_await_body (filePath : string) (body : M unit) : M unit :=
  try_catch body
    (fun e => emit (EvDestroyStream filePath) (fun _ => tt) ;;; throw e).

(** The body of the [for await (const chunk of fileStream)] loop of
    [uploadLargeFileByPath], up to the update of [offset]. *)
Definition uploadLargeFileByPath_body (w : World) (uploadUrl : string) (fileSize : Z)
    (chunkData : Buffer) (offset : Z) : M unit :=
  let start := offset in
  let end_ := start + buf_length chunkData - 1 in
  res <- fetch w (PUT uploadUrl (buf_length chunkData) start end_ fileSize chunkData) ;;
  if chunk_rejected res
  then throw (Error ("Upload chunk failed with status " ++ show_Z (res_status res)))
  else ret tt.

(** That loop: the chunks that the stream yields, then its end or its
    failure. *)
Fixpoint uploadLargeFileByPath_loop (w : World) (uploadUrl : string) (fileSize : Z)
    (filePath : string) (chunks : list Buffer) (failure : option JsError)
    (offset : Z) : M unit :=
  match chunks with
  | [] =>
    match failure with
    | Some e => throw e
    | None => ret tt
    end
  | chunkData :: rest =>
    for_await_body filePath
      (uploadLargeFileByPath_body w uploadUrl fileSize chunkData offset) ;;;
    uploadLargeFileByPath_loop w uploadUrl fileSize filePath rest failure
      (offset + buf_length chunkData)
  end.

(** [uploadLargeFileByPath(messageId, fileName, filePath, contentType, fileSize)] *)
Definition uploadLargeFileByPath (w : World) (c : MailClient)
    (messageId fileName filePath : string) (contentType : ContentType)
    (fileSize : Z) : M unit :=
  let chunkSize := normalizeChunkSize (chunkSize (attachmentUploadOptions c)) in
  if fileSize >? MAX_ATTACHMENT_SIZE then throw Error_too_large
  else
    session <- post w (createUploadSession_path c messageId)
                 (AttachmentItem fileName fileSize contentType) ;;
    let uploadUrl := resp_uploadUrl session in
    _ <- call (EvOpen filePath) (fun log => fs_open w log filePath) ;;
    fileStream <- emit (EvCreateReadStream filePath chunkSize)
                    (fun log => fs_createReadStream w log filePath chunkSize) ;;
    uploadLargeFileByPath_loop w uploadUrl fileSize filePath (stream_chunks fileStream)
      (stream_failure fileStream) 0 ;;;
    emit (EvCloseStream filePath) (fun _ => tt) ;;;
    emit (EvCloseFile filePath) (fun _ => tt).

(** The length a response header announces:
    [const parsed = Number(cl); if (!Number.isNaN(parsed) && parsed >= 0) size = parsed],
    under the guard [if (cl)]. *)
Definition parse_length (w : World) (header : option string) : option Z :=
  match header with
  | Some cl =>
    if truthy cl then
      match js_Number w cl with
      | Some parsed => if parsed >=? 0 then Some parsed else None
      | None => None
      end
    else None
  | None => None
  end.

(** The [HEAD] probe of [uploadAttachmentFromUrl], with its [try]/[catch]. *)
Definition probe_size (w : World) (href : string) : M (option Z) :=
  try_catch
    (head <- fetch w (HEAD href) ;;
     ret (if res_ok head then parse_length w (res_contentLength head) else None))
    (fun _ => ret None).

(** The inner loop [while (pending.length >= chunkSize)] of the streaming
    branch; it returns the new [offset] and [pending]. *)
Fixpoint stream_drain (w : World) (fuel : nat) (uploadUrl : string) (size chunkSize : Z)
    (offset : Z) (pending : Buffer) : M (Z * Buffer) :=
  match fuel with
  | O => diverge
  | S fuel' =>
    if buf_length pending >=? chunkSize then
      let toSend := subarray pending 0 chunkSize in
      let start := offset in
      let end_ := start + buf_length toSend - 1 in
      resp <- fetch w (PUT uploadUrl (buf_length toSend) start end_ size toSend) ;;
      if chunk_rejected resp
      then throw (Error ("Upload chunk failed with status " ++ show_Z (res_status resp)))
      else stream_drain w fuel' uploadUrl size chunkSize
             (offset + buf_length toSend)
             (subarray_from pending (buf_length toSend))
    else ret (offset, pending)
  end.

(** The outer loop [while (true) { const { done, value } = await reader.read() ... }]
    of the streaming branch. *)
Fixpoint stream_read (w : World) (fuel : nat) (uploadUrl : string) (size chunkSize : Z)
    (values : list Buffer) (failure : option JsError)
    (offset : Z) (pending : Buffer) : M (Z * Buffer) :=
  match values with
  | [] =>
    match failure with
    | Some e => throw e
    | None => ret (offset, pending)
    end
  | value :: rest =>
    let chunkBuf := value in
    let pending := if buf_length pending =? 0 then chunkBuf
                   else Buffer_concat [pending; chunkBuf] in
    st <- stream_drain w fuel uploadUrl size chunkSize offset pending ;;
    stream_read w fuel uploadUrl size chunkSize rest failure (fst st) (snd st)
  end.

(** The streaming branch of [uploadAttachmentFromUrl], after the session
    has been created. *)
Definition stream_upload (w : World) (fuel : nat) (uploadUrl : string) (size chunkSize : Z)
    (stream : ByteStream) : M unit :=
  st <- stream_read w fuel uploadUrl size chunkSize (stream_chunks stream)
          (stream_failure stream) 0 [] ;;
  let offset := fst st in
  let pending := snd st in
  if buf_length pending >? 0 then
    let start := offset in
    let end_ := size - 1 in
    resp <- fetch w (PUT uploadUrl (buf_length pending) start end_ size pending) ;;
    if chunk_rejected resp
    then throw (Error ("Upload final chunk failed with status " ++ show_Z (res_status resp)))
    else ret tt
  else ret tt.

(** The buffering loop of [uploadAttachmentFromUrl]; it returns [buffers]
    and [total]. *)
Fixpoint buffer_all (values : list Buffer) (failure : option JsError)
    (buffers : list Buffer) (total : Z) : M (list Buffer * Z) :=
  match values with
  | [] =>
    match failure with
    | Some e => throw e
    | None => ret (buffers, total)
    end
  | value :: rest =>
    let buf := value in
    let buffers := buffers ++ [buf] in
    let total := total + buf_length buf in
    if total >? MAX_ATTACHMENT_SIZE then throw Error_too_large
    else buffer_all rest failure buffers total
  end.

(** [size !== undefined && size > bound] *)
Definition known_above (size : option Z) (bound : Z) : bool :=
  match size with
  | Some s => s >? bound
  | None => false
  end.

(** [size !== undefined && size <= bound] *)
Definition known_at_most (size : option Z) (bound : Z) : bool :=
  match size with
  | Some s => s <=? bound
  | None => false
  end.

(** The end of [uploadAttachmentFromUrl]: the whole body is buffered in
    memory, then sent inline or through [uploadLargeContent]. *)
Definition upload_buffered (w : World) (c : MailClient) (fuel : nat)
    (messageId fileName : string) (contentType : ContentType)
    (stream : ByteStream) : M unit :=
  bt <- buffer_all (stream_chunks stream) (stream_failure stream) [] 0 ;;
  let all := Buffer_concat (fst bt) in
  let total := snd bt in
  if total <=? largeFileThreshold (attachmentUploadOptions c)
  then attach_inline w c messageId fileName all contentType
  else uploadLargeContent w c fuel messageId fileName all contentType.

(** [uploadAttachmentFromUrl(messageId, fileName, href, contentType)] *)
Definition uploadAttachmentFromUrl (w : World) (c : MailClient) (fuel : nat)
    (messageId fileName href : string) (contentType : ContentType) : M unit :=
  let threshold := largeFileThreshold (attachmentUploadOptions c) in
  if negb (is_http_url href) then ret tt
  else
    size <- probe_size w href ;;
    if known_above size MAX_ATTACHMENT_SIZE then throw Error_too_large
    else if known_at_most size threshold then
      res <- fetch w (GET href) ;;
      if negb (res_ok res) then ret tt
      else
        let buf := res_arrayBuffer res in
        if buf_length buf >? MAX_ATTACHMENT_SIZE then throw Error_too_large
        else attach_inline w c messageId fileName buf contentType
    else
      res <- fetch w (GET href) ;;
      if negb (res_ok res) then ret tt
      else
        match res_body res with
        | None => ret tt
        | Some stream =>
          let size := match size with
                      | Some s => Some s
                      | None => parse_length w (res_contentLength res)
                      end in
          if known_above size MAX_ATTACHMENT_SIZE then throw Error_too_large
          else
            let chunkSize := normalizeChunkSize (chunkSize (attachmentUploadOptions c)) in
            match size with
            | Some sz =>
              if sz >? threshold then
                session <- post w (createUploadSession_path c messageId)
                             (AttachmentItem fileName sz contentType) ;;
                stream_upload w fuel (resp_uploadUrl session) sz chunkSize stream
              else upload_buffered w c fuel messageId fileName contentType stream
            | None => upload_buffered w c fuel messageId fileName contentType stream
            end
        end.

(** [await fs.stat(path)] inside its [try]/[catch]: [None] stands for the
    [continue] of the handler. *)
Definition try_stat (w : World) (p : string) : M (option Stats) :=
  try_catch
    (stats <- call (EvStat p) (fun log => fs_stat w log p) ;; ret (Some stats))
    (fun _ => ret None).

(** [attachment.content], when it is truthy. *)
Definition truthy_data (opt : option Content) : option Content :=
  if truthy_content opt then opt else None.

(** The [if (attachment.content) { ... continue }] block. *)
Definition upload_content (w : World) (c : MailClient) (fuel : nat)
    (messageId fileName : string) (contentType : ContentType)
    (data : Content) : M unit :=
  let buf := to_Buffer data in
  if buf_length buf >? MAX_ATTACHMENT_SIZE then throw Error_too_large
  else if buf_length buf <=? largeFileThreshold (attachmentUploadOptions c)
  then attach_inline w c messageId fileName buf contentType
  else uploadLargeContent w c fuel messageId fileName buf contentType.

(** The [if (attachment.path) { ... continue }] block. *)
Definition upload_path (w : World) (c : MailClient)
    (messageId fileName : string) (contentType : ContentType)
    (p : string) : M unit :=
  found <- try_stat w p ;;
  match found with
  | None => ret tt
  | Some stats =>
    if negb (stats_isFile stats) || (stats_size stats =? 0) then ret tt
    else if stats_size stats >? MAX_ATTACHMENT_SIZE then throw Error_too_large
    else if stats_size stats <=? largeFileThreshold (attachmentUploadOptions c) then
      fileContent <- call (EvReadFile p) (fun log => fs_readFile w log p) ;;
      attach_inline w c messageId fileName fileContent
        (getContentTypeFromFileName fileName)
    else uploadLargeFileByPath w c messageId fileName p contentType (stats_size stats)
  end.

(** The body of the loop of [uploadAttachments] for one attachment; each
    [continue] is a return. *)
Definition uploadAttachment (w : World) (c : MailClient) (fuel : nat)
    (messageId : string) (attachment : Attachment) : M unit :=
  if negb (truthy_content (content attachment))
     && negb (truthy_opt (path attachment))
     && negb (truthy_opt (href attachment))
  then ret tt
  else
    let fileName := resolve_fileName w attachment in
    let contentType := getContentTypeFromFileName fileName in
    match truthy_data (content attachment) with
    | Some data => upload_content w c fuel messageId fileName contentType data
    | None =>
      match truthy_string (path attachment) with
      | Some p => upload_path w c messageId fileName contentType p
      | None =>
        match truthy_string (href attachment) with
        | Some h => uploadAttachmentFromUrl w c fuel messageId fileName h contentType
        | None => ret tt
        end
      end
    end.

(** The [for await (const attachment of attachments)] loop. *)
Fixpoint uploadAttachments_loop (w : World) (c : MailClient) (fuel : nat)
    (messageId : string) (attachments : list Attachment) : M unit :=
  match attachments with
  | [] => ret tt
  | attachment :: rest =>
    uploadAttachment w c fuel messageId attachment ;;;
    uploadAttachments_loop w c fuel messageId rest
  end.

(** [uploadAttachments(messageId, attachments)] *)
Definition uploadAttachments (w : World) (c : MailClient) (fuel : nat)
    (messageId : string) (attachments : option (list Attachment)) : M unit :=
  match attachments with
  | None => ret tt
  | Some l =>
    if Z.of_nat (List.length l) =? 0 then ret tt
    else uploadAttachments_loop w c fuel messageId l
  end.

(** ** Construction *)

(** [AttachmentUploadOptions], every field optional: a key is absent, or
    it holds an integer. A key that is present with the value [undefined]
    is not represented. *)
Record PartialUploadOptions : Type := {
  opt_largeFileThreshold : option Z;
  opt_chunkSize : option Z
}.

(** What the key [error] of a configured logger holds: a function, or a
    value that is no function ([error: undefined]). *)
Inductive LoggerKey : Type :=
| KeyFunction (hook : nat)
| KeyNotAFunction.

(** [Logger]; only [error] is read, and the key can be absent. *)
Record Logger : Type := {
  logger_error : option LoggerKey
}.

Record CredentialOptions : Type := {
  cred_sharedMailbox : string;
  cred_tenantId : string;
  cred_clientId : string;
  cred_clientSecret : string;
  cred_attachmentUploadOptions : option PartialUploadOptions;
  cred_logger : option Logger
}.

(** [{ ...defaultAttachmentUploadOptions, ...options.attachmentUploadOptions }] *)
Definition merge_upload_options (o : option PartialUploadOptions) : AttachmentUploadOptions :=
  match o with
  | None => defaultAttachmentUploadOptions
  | Some p =>
    {| largeFileThreshold :=
         match opt_largeFileThreshold p with
         | Some t => t
         | None => largeFileThreshold defaultAttachmentUploadOptions
         end;
       chunkSize :=
         match opt_chunkSize p with
         | Some s => s
         | None => chunkSize defaultAttachmentUploadOptions
         end |}
  end.

(** [{ ...defaultLogger, ...(options.logger || {}) }] *)
Definition merge_logger (l : option Logger) : LoggerHook :=
  match l with
  | Some {| logger_error := Some (KeyFunction hook) |} => CustomError hook
  | Some {| logger_error := Some KeyNotAFunction |} => NotAFunction
  | _ => ConsoleError
  end.

(** [options.attachmentUploadOptions?.chunkSize] *)
Definition configured_chunkSize (options : CredentialOptions) : option Z :=
  match cred_attachmentUploadOptions options with
  | Some p => opt_chunkSize p
  | None => None
  end.

(** [new MailClient(options)] *)
Definition new_MailClient (options : CredentialOptions) : MailClient :=
  let merged := merge_upload_options (cred_attachmentUploadOptions options) in
  {| sharedMailbox := cred_sharedMailbox options;
     attachmentUploadOptions :=
       {| largeFileThreshold := largeFileThreshold merged;
          chunkSize := normalizeChunkSize (chunkSize merged) |};
     logger := merge_logger (cred_logger options) |}.

(** ** Sending *)

Record MailOptions : Type := {
  subject : string;
  to : RecipientInput;
  cc : RecipientInput;
  bcc : RecipientInput;
  text : option string;
  html : option string;
  attachments : option (list Attachment)
}.

(** What [sendMail] resolves to. *)
Record SendResult : Type := {
  sent_id : string;
  sent_internetMessageId : string
}.

Definition double_quote : string := String (ascii_of_nat 34) EmptyString.

(** [new Error('No recipients provided in "to"')] *)
Definition Error_no_recipients : JsError :=
  Error ("No recipients provided in " ++ double_quote ++ "to" ++ double_quote).

(** [!toRecipients || toRecipients.length === 0] *)
Definition no_recipients (r : option (list Recipient)) : bool :=
  match r with
  | None => true
  | Some l => Z.of_nat (List.length l) =? 0
  end.

(** The [body] of the draft, from [mail.html] or else [mail.text]. *)
Definition draft_body (mail : MailOptions) : option (string * string) :=
  match truthy_string (html mail) with
  | Some h => Some ("html", h)
  | None =>
    match truthy_string (text mail) with
    | Some t => Some ("text", t)
    | None => None
    end
  end.

(** The [try] block of [sendMail]. *)
Definition sendMail_try (w : World) (c : MailClient) (fuel : nat)
    (mail : MailOptions) : M SendResult :=
  let toRecipients := buildRecipients (to mail) in
  if no_recipients toRecipients then throw Error_no_recipients
  else
    let ccRecipients := buildRecipients (cc mail) in
    let bccRecipients := buildRecipients (bcc mail) in
    let draftMessage :=
      DraftMessage (subject mail) toRecipients ccRecipients bccRecipients
        (draft_body mail) in
    draft <- post w ("/users/" ++ sharedMailbox c ++ "/messages") draftMessage ;;
    uploadAttachments w c fuel (resp_id draft) (attachments mail) ;;;
    post w ("/users/" ++ sharedMailbox c ++ "/messages/" ++ resp_id draft ++ "/send")
      EmptyBody ;;;
    ret {| sent_id := resp_id draft;
           sent_internetMessageId := resp_internetMessageId draft |}.

(** The [TypeError] of a call of [this.logger.error] when it is no
    function. *)
Definition Error_not_a_function : JsError :=
  TypeError "this.logger.error is not a function".

(** [this.logger.error(message, error)] *)
Definition logger_error_call (w : World) (c : MailClient) (message : string)
    (error : JsError) : M unit :=
  match logger c with
  | ConsoleError => emit (EvLoggerError ConsoleError message error) (fun _ => tt)
  | CustomError hook =>
    call (EvLoggerError (CustomError hook) message error)
      (fun log => logger_hook w log hook message error)
  | NotAFunction => throw Error_not_a_function
  end.

(** [sendMail(mail)] *)
Definition sendMail (w : World) (c : MailClient) (fuel : nat)
    (mail : MailOptions) : M SendResult :=
  try_catch (sendMail_try w c fuel mail)
    (fun error =>
       logger_error_call w c "Failed to send mail" error ;;;
       throw error).

(** ** Retrieval *)

Inductive IdType : Type :=
| graph
| internetMessageId.

(** [Partial<getMailByIdOptions>] *)
Record getMailByIdOptions : Type := {
  select : option (list string);
  includeAttachments : option bool;
  idType : option IdType
}.

Definition default_select : string :=
  "id,subject,bodyPreview,body,sentDateTime,receivedDateTime,from,toRecipients,ccRecipients,bccRecipients,hasAttachments".

(** [Array.isArray(select) && select.length > 0 ? select.join(',') : '...'] *)
Definition select_fields (sel : option (list string)) : string :=
  match sel with
  | Some l => if Z.of_nat (List.length l) >? 0 then join "," l else default_select
  | None => default_select
  end.

(** [message.attachments = attRes.value || []] after the listing call. *)
Definition with_attachments (w : World) (c : MailClient) (id : string)
    (message : Message) : M Message :=
  let p := ("/users/" ++ sharedMailbox c ++ "/messages/" ++ id ++ "/attachments")%string in
  value <- call (EvGraphGet p None None) (fun log => graph_get_attachments w log p) ;;
  ret {| msg_id := msg_id message;
         msg_fields := msg_fields message;
         msg_attachments := Some (match value with Some l => l | None => [] end) |}.

(** [getMailById(id, options)] *)
Definition getMailById (w : World) (c : MailClient) (id : string)
    (options : getMailByIdOptions) : M Message :=
  let includeAtt := match includeAttachments options with
                    | Some b => b
                    | None => false
                    end in
  if negb (truthy id) then throw (Error "id is required")
  else
    let selectFields := select_fields (select options) in
    let looksLikeInternetId := looks_like_internet_id id in
    let useInternetMessageId :=
      match idType options with
      | Some internetMessageId => true
      | _ => false
      end || looksLikeInternetId in
    if useInternetMessageId then
      let filterValue := escape_quotes id in
      let p := ("/users/" ++ sharedMailbox c ++ "/messages")%string in
      let f := ("internetMessageId eq '" ++ filterValue ++ "'")%string in
      value <- call (EvGraphGet p (Some f) (Some selectFields))
                 (fun log => graph_get_list w log p f selectFields) ;;
      match value with
      | Some (message :: _) =>
        if includeAtt then with_attachments w c (msg_id message) message
        else ret message
      | _ => throw (Error "Message not found by internetMessageId")
      end
    else
      let p := ("/users/" ++ sharedMailbox c ++ "/messages/" ++ id)%string in
      message <- call (EvGraphGet p None (Some selectFields))
                   (fun log => graph_get_message w log p selectFields) ;;
      if includeAtt then with_attachments w c id message
      else ret message.

(** ** Worlds used in the examples *)

(** [Number] on the strings of decimal digits. *)
Definition decimal_Number (s : string) : option Z :=
  option_map Z.of_int (NilEmpty.int_of_string s).

Definition no_stream : ByteStream := {| stream_chunks := []; stream_failure := None |}.

(** The collaborators as the test suite of the repository mocks them: the
    Graph client answers every [post] with the message [MSG-1] and the
    upload URL of the session; [fetch] answers a [HEAD] with a
    content-length of 10, a [PUT] with status 202 and a [GET] with the
    three bytes [abc], no length header and no body; [fs.stat] reports a
    regular file of 1024 bytes and [fs.readFile] the bytes [file]; the
    configured logger function returns. *)
Definition test_world : World :=
  {| graph_post := fun _ _ _ =>
       inr {| resp_id := "MSG-1";
              resp_internetMessageId := "<IM-MSG-1@exch.example.com>";
              resp_uploadUrl := "https://upload.example/session" |};
     graph_get_message := fun _ p _ =>
       inr {| msg_id := p; msg_fields := []; msg_attachments := None |};
     graph_get_list := fun _ _ _ _ => inr None;
     graph_get_attachments := fun _ _ => inr None;
     world_fetch := fun _ req =>
       match req with
       | HEAD _ =>
         inr {| res_ok := true; res_status := 200;
                res_contentLength := Some "10";
                res_arrayBuffer := []; res_body := None |}
       | PUT _ _ _ _ _ _ =>
         inr {| res_ok := true; res_status := 202;
                res_contentLength := None;
                res_arrayBuffer := []; res_body := None |}
       | GET _ =>
         inr {| res_ok := true; res_status := 200;
                res_contentLength := None;
                res_arrayBuffer := Buffer_from_string "abc"; res_body := None |}
       end;
     fs_stat := fun _ _ => inr {| stats_isFile := true; stats_size := 1024 |};
     fs_readFile := fun _ _ => inr (Buffer_from_string "file");
     fs_open := fun _ _ => inr tt;
     fs_createReadStream := fun _ _ _ => no_stream;
     logger_hook := fun _ _ _ _ => inr tt;
     js_Number := decimal_Number;
     URL_pathname := fun _ => None;
     path_basename := fun p => p |}.

(** The options of the test suite: a threshold of 1024 bytes. *)
Definition test_options : CredentialOptions :=
  {| cred_sharedMailbox := "shared@example.com";
     cred_tenantId := "tenant";
     cred_clientId := "client";
     cred_clientSecret := "secret";
     cred_attachmentUploadOptions :=
       Some {| opt_largeFileThreshold := Some 1024;
               opt_chunkSize := Some (320 * 1024) |};
     cred_logger := Some {| logger_error := Some (KeyFunction 0%nat) |} |}.

Definition test_client : MailClient := new_MailClient test_options.

(** ** Ranges *)

(** The byte range of a [PUT], read off its [Content-Range] header. *)
Definition put_range (ev : Event) : option (Z * Z) :=
  match ev with
  | EvFetch (PUT _ _ s e _ _) => Some (s, e)
  | _ => None
  end.

(** The byte ranges sent by a sequence of calls, in order. *)
Fixpoint put_ranges (evs : list Event) : list (Z * Z) :=
  match evs with
  | [] => []
  | ev :: rest =>
    match put_range ev with
    | Some r => r :: put_ranges rest
    | None => put_ranges rest
    end
  end.

(** Is this call a [PUT] to [url] that declares the total [total]? *)
Definition is_put_to (url : string) (total : Z) (ev : Event) : Prop :=
  match ev with
  | EvFetch (PUT u _ _ _ t _) => u = url /\ t = total
  | _ => False
  end.

(** The ranges follow one another from [from] on, each of them holding at
    least one byte. *)
Fixpoint chained (from : Z) (rs : list (Z * Z)) : Prop :=
  match rs with
  | [] => True
  | r :: rest => fst r = from /\ fst r <= snd r /\ chained (snd r + 1) rest
  end.

(** The offset after the last range. *)
Fixpoint end_offset (from : Z) (rs : list (Z * Z)) : Z :=
  match rs with
  | [] => from
  | r :: rest => end_offset (snd r + 1) rest
  end.

(** The last element of a list, if any. *)
Fixpoint last_range (rs : list (Z * Z)) : option (Z * Z) :=
  match rs with
  | [] => None
  | [r] => Some r
  | _ :: rest => last_range rest
  end.

(** [ceil (a / b)] for a positive [b]. *)
Definition ceil_div (a b : Z) : Z := (a + b - 1) / b.

(** Every [PUT] is answered, with [ok] or one of the statuses 200, 201
    and 202. *)
Definition accepts_chunks (w : World) : Prop :=
  forall log url len s e total body,
    exists res, world_fetch w log (PUT url len s e total body) = inr res
                /\ chunk_rejected res = false.

(** ** Recipient parsing, as the specification words it *)

(** The pieces of [s] between any two separators ([;] or [,]). *)
Fixpoint split_each (s : string) : list string :=
  match s with
  | EmptyString => [EmptyString]
  | String c r =>
    if isSeparator c then EmptyString :: split_each r
    else match split_each r with
         | p :: ps => String c p :: ps
         | [] => [String c EmptyString]
         end
  end.

(** Deduplication that keeps the first occurrence of every element, in
    order. *)
Fixpoint first_occurrences (l : list string) : list string :=
  match l with
  | [] => []
  | x :: r => x :: filter (fun y => negb (String.eqb y x)) (first_occurrences r)
  end.

(** Split on semicolons and commas, trim, drop the empty entries,
    deduplicate keeping first occurrences. *)
Definition parse_recipients (s : string) : list string :=
  first_occurrences (filter truthy (map trim (split_each s))).

Definition recipient_of (a : string) : Recipient :=
  {| emailAddress := {| address := a |} |}.

(** ** Kinds of attachments and of answers *)

(** An attachment whose data is the in-memory buffer [buf]. *)
Definition buffer_attachment (a : Attachment) (buf : Buffer) : Prop :=
  content a = Some (ContentBuffer buf).

(** An attachment whose data is the local path [p]: no content, a path. *)
Definition path_attachment (a : Attachment) (p : string) : Prop :=
  truthy_data (content a) = None /\ truthy_string (path a) = Some p.

(** An attachment whose data is the URL [h]: no content, no path, a href. *)
Definition url_attachment (a : Attachment) (h : string) : Prop :=
  truthy_data (content a) = None /\ truthy_string (path a) = None
  /\ truthy_string (href a) = Some h.

(** After the calls of [log], the path [p] cannot be stat'ed, or is not a
    regular file, or has size zero. *)
Definition unavailable_path (w : World) (log : Log) (p : string) : Prop :=
  match fs_stat w log p with
  | inl _ => True
  | inr stats => stats_isFile stats = false \/ stats_size stats = 0
  end.

(** The attachment [a] has a source that is not available after the calls
    of [log], and [evs] are the calls that find it out: a local path that
    cannot be stat'ed, is not a regular file or is empty, or a URL whose
    scheme is neither http nor https. *)
Definition unavailable_source (w : World) (log : Log) (a : Attachment)
    (evs : list Event) : Prop :=
  (exists p, path_attachment a p /\ unavailable_path w log p /\ evs = [EvStat p])
  \/ (exists h, url_attachment a h /\ is_http_url h = false /\ evs = []).

(** The source of [a] is unavailable whenever it is looked at. *)
Definition never_available (w : World) (a : Attachment) : Prop :=
  (exists p, path_attachment a p /\ forall log, unavailable_path w log p)
  \/ (exists h, url_attachment a h /\ is_http_url h = false).

(** The Graph client resolves every [post]. *)
Definition graph_resolves (w : World) : Prop :=
  forall log p body, exists r, graph_post w log p body = inr r.

(** The size the [HEAD] probe of [href] yields after the calls of [log]. *)
Definition probed_size (w : World) (log : Log) (href : string) : option Z :=
  match world_fetch w log (HEAD href) with
  | inr head => if res_ok head then parse_length w (res_contentLength head) else None
  | inl _ => None
  end.

Definition is_put (ev : Event) : Prop :=
  match ev with
  | EvFetch (PUT _ _ _ _ _ _) => True
  | _ => False
  end.

Definition is_stat (ev : Event) : Prop :=
  match ev with
  | EvStat _ => True
  | _ => False
  end.

(** The test world with a file system in which no path exists. *)
Definition world_without_files : World :=
  {| graph_post := graph_post test_world;
     graph_get_message := graph_get_message test_world;
     graph_get_list := graph_get_list test_world;
     graph_get_attachments := graph_get_attachments test_world;
     world_fetch := world_fetch test_world;
     fs_stat := fun _ _ => inl (Error "ENOENT: no such file or directory");
     fs_readFile := fun _ _ => inl (Error "ENOENT: no such file or directory");
     fs_open := fun _ _ => inl (Error "ENOENT: no such file or directory");
     fs_createReadStream := fs_createReadStream test_world;
     logger_hook := logger_hook test_world;
     js_Number := js_Number test_world;
     URL_pathname := URL_pathname test_world;
     path_basename := path_basename test_world |}.

(** A mail in the manner of the test suite. *)
Definition test_mail (recipients : string) (l : option (list Attachment)) : MailOptions :=
  {| subject := "Subject";
     to := OneString recipients;
     cc := NoInput;
     bcc := NoInput;
     text := Some "Hello";
     html := None;
     attachments := l |}.

Definition attachment_of_path (name p : string) : Attachment :=
  {| filename := Some name; content := None; path := Some p; href := None |}.

Definition attachment_of_href (name h : string) : Attachment :=
  {| filename := Some name; content := None; path := None; href := Some h |}.

Definition attachment_of_buffer (name : string) (b : Buffer) : Attachment :=
  {| filename := Some name; content := Some (ContentBuffer b); path := None; href := None |}.

(** The number of bytes a stream delivers. *)
Definition stream_total (chunks : list Buffer) : Z :=
  buf_length (Buffer_concat chunks).

(** The ranges are sent in sequence and end with the declared total: the
    first starts at offset 0, each of the others starts one byte after the
    end of the one before it, the starts increase strictly, and the last
    one ends at [total - 1]. *)
Definition sequential_ranges (total : Z) (rs : list (Z * Z)) : Prop :=
  (forall r, nth_error rs 0 = Some r -> fst r = 0)
  /\ (forall i r1 r2,
         nth_error rs i = Some r1 -> nth_error rs (S i) = Some r2 ->
         fst r2 = snd r1 + 1)
  /\ StronglySorted Z.lt (map fst rs)
  /\ exists r, last_range rs = Some r /\ snd r = total - 1.

(** A client whose threshold for large files is 200 MiB. *)
Definition roomy_client : MailClient :=
  new_MailClient
    {| cred_sharedMailbox := "shared@example.com";
       cred_tenantId := "tenant";
       cred_clientId := "client";
       cred_clientSecret := "secret";
       cred_attachmentUploadOptions :=
         Some {| opt_largeFileThreshold := Some (200 * 1024 * 1024);
                 opt_chunkSize := None |};
       cred_logger := None |}.

(** A buffer of 150 MiB and one byte. *)
Definition oversized_buffer : Buffer :=
  repeat x00 (Z.to_nat (MAX_ATTACHMENT_SIZE + 1)).

(** The test world with a server whose [HEAD] announces 150 MiB and one
    byte. *)
Definition world_announcing_too_much : World :=
  {| graph_post := graph_post test_world;
     graph_get_message := graph_get_message test_world;
     graph_get_list := graph_get_list test_world;
     graph_get_attachments := graph_get_attachments test_world;
     world_fetch := fun log req =>
       match req with
       | HEAD _ =>
         inr {| res_ok := true; res_status := 200;
                res_contentLength := Some "157286401";
                res_arrayBuffer := []; res_body := None |}
       | _ => world_fetch test_world log req
       end;
     fs_stat := fs_stat test_world;
     fs_readFile := fs_readFile test_world;
     fs_open := fs_open test_world;
     fs_createReadStream := fs_createReadStream test_world;
     logger_hook := logger_hook test_world;
     js_Number := js_Number test_world;
     URL_pathname := URL_pathname test_world;
     path_basename := path_basename test_world |}.

(** The test world with a server whose [HEAD] announces 655360 bytes and
    whose [GET] announces and delivers 327680 bytes, in one read. *)
Definition world_delivering_less : World :=
  {| graph_post := graph_post test_world;
     graph_get_message := graph_get_message test_world;
     graph_get_list := graph_get_list test_world;
     graph_get_attachments := graph_get_attachments test_world;
     world_fetch := fun log req =>
       match req with
       | HEAD _ =>
         inr {| res_ok := true; res_status := 200;
                res_contentLength := Some "655360";
                res_arrayBuffer := []; res_body := None |}
       | GET _ =>
         inr {| res_ok := true; res_status := 200;
                res_contentLength := Some "327680";
                res_arrayBuffer := [];
                res_body := Some {| stream_chunks := [repeat x00 (Z.to_nat 327680)];
                                    stream_failure := None |} |}
       | _ => world_fetch test_world log req
       end;
     fs_stat := fs_stat test_world;
     fs_readFile := fs_readFile test_world;
     fs_open := fs_open test_world;
     fs_createReadStream := fs_createReadStream test_world;
     logger_hook := logger_hook test_world;
     js_Number := js_Number test_world;
     URL_pathname := URL_pathname test_world;
     path_basename := path_basename test_world |}.

(** The upload of a URL attachment in that world, by the client of the
    test suite. *)
Definition short_delivery_run : Outcome unit * Log :=
  uploadAttachmentFromUrl world_delivering_less test_client 5 "MSG-1"
    "big.bin" "http://example.com/big.bin" (Mime "application/octet-stream") [].

(** The test world with a server that answers every [GET] with status
    404. *)
Definition world_not_found : World :=
  {| graph_post := graph_post test_world;
     graph_get_message := graph_get_message test_world;
     graph_get_list := graph_get_list test_world;
     graph_get_attachments := graph_get_attachments test_world;
     world_fetch := fun log req =>
       match req with
       | GET _ =>
         inr {| res_ok := false; res_status := 404;
                res_contentLength := None;
                res_arrayBuffer := []; res_body := None |}
       | _ => world_fetch test_world log req
       end;
     fs_stat := fs_stat test_world;
     fs_readFile := fs_readFile test_world;
     fs_open := fs_open test_world;
     fs_createReadStream := fs_createReadStream test_world;
     logger_hook := logger_hook test_world;
     js_Number := js_Number test_world;
     URL_pathname := URL_pathname test_world;
     path_basename := path_basename test_world |}.

(** The calls [evs] are [PUT]s to [url], each of which declares the total
    [total], and their ranges follow one another from the offset [from] up
    to the offset [upto]. *)
Definition sends_ranges (url : string) (total from upto : Z) (evs : list Event) : Prop :=
  Forall (is_put_to url total) evs
  /\ List.length (put_ranges evs) = List.length evs
  /\ chained from (put_ranges evs)
  /\ end_offset from (put_ranges evs) = upto.

(** The test world with a file system whose [fs.stat] reports a regular
    file of 150 MiB and one byte. *)
Definition world_with_big_file : World :=
  {| graph_post := graph_post test_world;
     graph_get_message := graph_get_message test_world;
     graph_get_list := graph_get_list test_world;
     graph_get_attachments := graph_get_attachments test_world;
     world_fetch := world_fetch test_world;
     fs_stat := fun _ _ =>
       inr {| stats_isFile := true; stats_size := 150 * 1024 * 1024 + 1 |};
     fs_readFile := fs_readFile test_world;
     fs_open := fs_open test_world;
     fs_createReadStream := fs_createReadStream test_world;
     logger_hook := logger_hook test_world;
     js_Number := js_Number test_world;
     URL_pathname := URL_pathname test_world;
     path_basename := path_basename test_world |}.

(** The test world with a mailbox that holds the message [M-789], whose
    internet message id is [<IM-123@exch.example.com>] and which has one
    attachment. *)
Definition world_with_message : World :=
  {| graph_post := graph_post test_world;
     graph_get_message := fun _ _ _ =>
       inr {| msg_id := "M-789"; msg_fields := [("subject", "S")];
              msg_attachments := None |};
     graph_get_list := fun _ _ f _ =>
       if String.eqb f "internetMessageId eq '<IM-123@exch.example.com>'"
       then inr (Some [{| msg_id := "M-789"; msg_fields := [("subject", "S")];
                          msg_attachments := None |}])
       else inr (Some []);
     graph_get_attachments := fun _ _ =>
       inr (Some [{| att_id := "A1"; att_name := "f.txt" |}]);
     world_fetch := world_fetch test_world;
     fs_stat := fs_stat test_world;
     fs_readFile := fs_readFile test_world;
     fs_open := fs_open test_world;
     fs_createReadStream := fs_createReadStream test_world;
     logger_hook := logger_hook test_world;
     js_Number := js_Number test_world;
     URL_pathname := URL_pathname test_world;
     path_basename := path_basename test_world |}.

(** ** The shared instance *)

(** [static getInstance(options)]: the static field [_instance] is threaded
    as a state; the function returns the client and the new value of the
    field. *)
Definition getInstance (options : CredentialOptions) (_instance : option MailClient)
    : MailClient * option MailClient :=
  match _instance with
  | None =>
    let created := new_MailClient options in
    (created, Some created)
  | Some existing => (existing, Some existing)
  end.

(** ** Kinds of calls *)

(** Running [m] only adds calls to the log, and every call it adds
    satisfies [P]. *)
Definition adds_only {A : Type} (P : Event -> Prop) (m : M A) : Prop :=
  forall log, exists evs, snd (m log) = log ++ evs /\ Forall P evs.

(** A call made on behalf of an attachment: an inline attach or a session
    creation on the Graph client, a [fetch], or a file-system call, the
    closing of the iterator of a read stream included. *)
Definition is_upload_call (ev : Event) : Prop :=
  match ev with
  | EvGraphPost _ (FileAttachment _ _ _) => True
  | EvGraphPost _ (AttachmentItem _ _ _) => True
  | EvFetch _ => True
  | EvStat _ => True
  | EvReadFile _ => True
  | EvOpen _ => True
  | EvCreateReadStream _ _ => True
  | EvDestroyStream _ => True
  | EvCloseStream _ => True
  | EvCloseFile _ => True
  | _ => False
  end.

(** A call that reads from the Graph client. *)
Definition is_graph_get (ev : Event) : Prop :=
  match ev with
  | EvGraphGet _ _ _ => True
  | _ => False
  end.

(** A Graph [post] or the [PUT] of a chunk: the calls an in-memory content
    can give rise to. *)
Definition is_post_or_put (ev : Event) : Prop :=
  match ev with
  | EvGraphPost _ (FileAttachment _ _ _) => True
  | EvGraphPost _ (AttachmentItem _ _ _) => True
  | EvFetch (PUT _ _ _ _ _ _) => True
  | _ => False
  end.

(** The body of a [PUT]. *)
Definition put_body (ev : Event) : option Buffer :=
  match ev with
  | EvFetch (PUT _ _ _ _ _ body) => Some body
  | _ => None
  end.

(** The bodies of the [PUT]s of a sequence of calls, in order. *)
Fixpoint put_bodies (evs : list Event) : list Buffer :=
  match evs with
  | [] => []
  | ev :: rest =>
    match put_body ev with
    | Some b => b :: put_bodies rest
    | None => put_bodies rest
    end
  end.

(** The [Content-Length] of a [PUT] is the length of its body, and so is
    the length of its range. *)
Definition well_formed_put (ev : Event) : Prop :=
  match ev with
  | EvFetch (PUT _ len s e _ body) =>
    len = buf_length body /\ e - s + 1 = buf_length body
  | _ => False
  end.

(** The string has no separator ([;] or [,]). *)
Definition no_separator (s : string) : bool :=
  string_forallb (fun c => negb (isSeparator c)) s.

(** The string has no dot. *)
Definition no_dot (s : string) : bool :=
  string_forallb (fun c => negb (Ascii.eqb c ".")) s.

(** The addresses of a list of recipients. *)
Definition addresses_of (r : list Recipient) : list string :=
  map (fun x => address (emailAddress x)) r.

(** A string does not begin with white space. *)
Definition starts_clean (s : string) : bool :=
  match s with
  | EmptyString => true
  | String c _ => negb (isWhiteSpace c)
  end.

(** An address: not empty, trimmed, without separator. *)
Definition is_address (a : string) : Prop :=
  truthy a = true /\ trim a = a /\ no_separator a = true.


(** The attachment has no data source at all. *)
Definition sourceless (a : Attachment) : Prop :=
  truthy_content (content a) = false
  /\ truthy_opt (path a) = false
  /\ truthy_opt (href a) = false.

(** The draft that [sendMail] posts for a mail. *)
Definition draft_of (mail : MailOptions) : PostBody :=
  DraftMessage (subject mail) (buildRecipients (to mail)) (buildRecipients (cc mail))
    (buildRecipients (bcc mail)) (draft_body mail).

(** The filter that [getMailById] builds for an internet message id. *)
Definition internet_id_filter (id : string) : string :=
  ("internetMessageId eq '" ++ escape_quotes id ++ "'")%string.



(** The test world with a file of 1500 bytes, which its read stream
    delivers as 1000 bytes and then 500. *)
Definition world_with_large_file : World :=
  {| graph_post := graph_post test_world;
     graph_get_message := graph_get_message test_world;
     graph_get_list := graph_get_list test_world;
     graph_get_attachments := graph_get_attachments test_world;
     world_fetch := world_fetch test_world;
     fs_stat := fun _ _ => inr {| stats_isFile := true; stats_size := 1500 |};
     fs_readFile := fs_readFile test_world;
     fs_open := fs_open test_world;
     fs_createReadStream := fun _ _ _ =>
       {| stream_chunks := [repeat x00 (Z.to_nat 1000); repeat x00 (Z.to_nat 500)];
          stream_failure := None |};
     logger_hook := logger_hook test_world;
     js_Number := js_Number test_world;
     URL_pathname := URL_pathname test_world;
     path_basename := path_basename test_world |}.

(** That world with an upload server that answers every [PUT] with the
    status 500. *)
Definition world_refusing_chunks : World :=
  {| graph_post := graph_post test_world;
     graph_get_message := graph_get_message test_world;
     graph_get_list := graph_get_list test_world;
     graph_get_attachments := graph_get_attachments test_world;
     world_fetch := fun log req =>
       match req with
       | PUT _ _ _ _ _ _ =>
         inr {| res_ok := false; res_status := 500;
                res_contentLength := None;
                res_arrayBuffer := []; res_body := None |}
       | _ => world_fetch test_world log req
       end;
     fs_stat := fs_stat world_with_large_file;
     fs_readFile := fs_readFile test_world;
     fs_open := fs_open test_world;
     fs_createReadStream := fs_createReadStream world_with_large_file;
     logger_hook := logger_hook test_world;
     js_Number := js_Number test_world;
     URL_pathname := URL_pathname test_world;
     path_basename := path_basename test_world |}.

(** The test world with a server whose [HEAD] fails and whose [GET]
    delivers six bytes in two reads, without announcing a length. *)
Definition world_of_unknown_length : World :=
  {| graph_post := graph_post test_world;
     graph_get_message := graph_get_message test_world;
     graph_get_list := graph_get_list test_world;
     graph_get_attachments := graph_get_attachments test_world;
     world_fetch := fun log req =>
       match req with
       | HEAD _ => inl (Error "fetch failed")
       | GET _ =>
         inr {| res_ok := true; res_status := 200;
                res_contentLength := None;
                res_arrayBuffer := Buffer_from_string "abcdef";
                res_body := Some {| stream_chunks := [Buffer_from_string "abc";
                                                      Buffer_from_string "def"];
                                    stream_failure := None |} |}
       | _ => world_fetch test_world log req
       end;
     fs_stat := fs_stat test_world;
     fs_readFile := fs_readFile test_world;
     fs_open := fs_open test_world;
     fs_createReadStream := fs_createReadStream test_world;
     logger_hook := logger_hook test_world;
     js_Number := js_Number test_world;
     URL_pathname := URL_pathname test_world;
     path_basename := path_basename test_world |}.

(** Options that configure a chunk size of 1000000 bytes. *)
Definition options_of_a_megabyte : CredentialOptions :=
  {| cred_sharedMailbox := "shared@example.com";
     cred_tenantId := "tenant";
     cred_clientId := "client";
     cred_clientSecret := "secret";
     cred_attachmentUploadOptions :=
       Some {| opt_largeFileThreshold := None; opt_chunkSize := Some 1000000 |};
     cred_logger := None |}.

(** Options that give the credentials only. *)
Definition bare_options : CredentialOptions :=
  {| cred_sharedMailbox := "shared@example.com";
     cred_tenantId := "tenant";
     cred_clientId := "client";
     cred_clientSecret := "secret";
     cred_attachmentUploadOptions := None;
     cred_logger := None |}.

(** An attachment with a name and nothing else, and one whose content and
    path are empty strings. *)
Definition attachment_without_source : Attachment :=
  {| filename := Some "empty.txt"; content := None; path := None; href := None |}.

Definition attachment_of_empty_strings : Attachment :=
  {| filename := None; content := Some (ContentString EmptyString);
     path := Some EmptyString; href := None |}.

(** An attachment that has a content, a path and a href at once. *)
Definition attachment_with_everything : Attachment :=
  {| filename := None;
     content := Some (ContentBuffer (Buffer_from_string "hello"));
     path := Some "/tmp/sample.txt";
     href := Some "https://example.com/bytes.bin" |}.

(** The ranges follow one another from [from] on: each of them starts one
    byte after the end of the one before it. *)
Fixpoint follows (from : Z) (rs : list (Z * Z)) : Prop :=
  match rs with
  | [] => True
  | r :: rest => fst r = from /\ follows (snd r + 1) rest
  end.

(** The first range starts at offset 0 and each of the others starts one
    byte after the end of the one before it. *)
Definition contiguous_ranges (rs : list (Z * Z)) : Prop :=
  (forall r, nth_error rs 0 = Some r -> fst r = 0)
  /\ (forall i r1 r2,
         nth_error rs i = Some r1 -> nth_error rs (S i) = Some r2 ->
         fst r2 = snd r1 + 1).

(** The starts of the ranges increase strictly. *)
Definition ascending_starts (rs : list (Z * Z)) : Prop :=
  StronglySorted Z.lt (map fst rs).

(** There is a last range, and it ends at [total - 1]. *)
Definition ends_at (total : Z) (rs : list (Z * Z)) : Prop :=
  exists r, last_range rs = Some r /\ snd r = total - 1.

(** The range holds at least one byte. *)
Definition holds_bytes (r : Z * Z) : Prop := fst r <= snd r.

(** The end of the last range of a streaming transfer that returns after
    [delivered] bytes: the remainder, when there is one, is sent with the
    declared total for its end. *)
Definition stream_end (size C delivered : Z) : Z :=
  if delivered mod C =? 0 then delivered else size.

(** Options that configure a chunk size of 0. *)
Definition options_with_chunk_size_zero : CredentialOptions :=
  {| cred_sharedMailbox := "shared@example.com";
     cred_tenantId := "tenant";
     cred_clientId := "client";
     cred_clientSecret := "secret";
     cred_attachmentUploadOptions :=
       Some {| opt_largeFileThreshold := Some 1; opt_chunkSize := Some 0 |};
     cred_logger := None |}.

(** The first three turns of the upload of five bytes by a client that
    was configured with a chunk size of 0. *)
Definition stalled_run : Outcome unit * Log :=
  uploadLargeContent test_world (new_MailClient options_with_chunk_size_zero) 3
    "MSG-1" "hello.txt" (Buffer_from_string "hello") (Mime "text/plain") [].

(** Any call but the post that sends a draft. *)
Definition not_send (ev : Event) : Prop :=
  match ev with
  | EvGraphPost _ EmptyBody => False
  | _ => True
  end.

(** The test world with a configured logger function that throws. *)
Definition world_with_failing_logger : World :=
  {| graph_post := graph_post test_world;
     graph_get_message := graph_get_message test_world;
     graph_get_list := graph_get_list test_world;
     graph_get_attachments := graph_get_attachments test_world;
     world_fetch := world_fetch test_world;
     fs_stat := fs_stat test_world;
     fs_readFile := fs_readFile test_world;
     fs_open := fs_open test_world;
     fs_createReadStream := fs_createReadStream test_world;
     logger_hook := fun _ _ _ _ => inl (Error "logger failed");
     js_Number := js_Number test_world;
     URL_pathname := URL_pathname test_world;
     path_basename := path_basename test_world |}.

(** A mail without recipients, sent in that world by the client of the
    test suite, whose logger is a configured function. *)
Definition failing_logger_run : Outcome SendResult * Log :=
  sendMail world_with_failing_logger test_client 0 (test_mail EmptyString None) [].

(** A client whose logger was configured as [{ error: undefined }]. *)
Definition client_without_logger_function : MailClient :=
  new_MailClient
    {| cred_sharedMailbox := "shared@example.com";
       cred_tenantId := "tenant";
       cred_clientId := "client";
       cred_clientSecret := "secret";
       cred_attachmentUploadOptions := None;
       cred_logger := Some {| logger_error := Some KeyNotAFunction |} |}.

(** ** Facts about the monad *)

Lemma bind_returned {A B : Type} (m : M A) (k : A -> M B) log a log' :
  m log = (Returned a, log') -> bind m k log = k a log'.
Proof. intros H. unfold bind. rewrite H. reflexivity. Qed.

Lemma bind_thrown {A B : Type} (m : M A) (k : A -> M B) log e log' :
  m log = (Thrown e, log') -> bind m k log = (Thrown e, log').
Proof. intros H. unfold bind. rewrite H. reflexivity. Qed.

Lemma call_resolves {A : Type} ev (answer : Log -> Answer A) log a :
  answer log = inr a -> call ev answer log = (Returned a, log ++ [ev]).
Proof. intros H. unfold call. rewrite H. reflexivity. Qed.

Lemma call_rejects {A : Type} ev (answer : Log -> Answer A) log e :
  answer log = inl e -> call ev answer log = (Thrown e, log ++ [ev]).
Proof. intros H. unfold call. rewrite H. reflexivity. Qed.

(** A call always adds exactly its event to the log. *)
Lemma call_log {A : Type} ev (answer : Log -> Answer A) log :
  snd (call ev answer log) = log ++ [ev].
Proof. unfold call. destruct (answer log); reflexivity. Qed.

Lemma fetch_resolves w req log res :
  world_fetch w log req = inr res ->
  fetch w req log = (Returned res, log ++ [EvFetch req]).
Proof. intros H. unfold fetch. apply call_resolves. assumption. Qed.

Lemma post_resolves w p body log :
  graph_resolves w ->
  exists r, post w p body log = (Returned r, log ++ [EvGraphPost p body]).
Proof.
  intros Hw. destruct (Hw log p body) as [r Hr]. exists r.
  unfold post. apply call_resolves. assumption.
Qed.

(** What running [bind m k] amounts to. *)
Lemma bind_run {A B : Type} (m : M A) (k : A -> M B) log :
  bind m k log
  = match m log with
    | (Returned a, log') => k a log'
    | (Thrown e, log') => (Thrown e, log')
    | (OutOfFuel, log') => (OutOfFuel, log')
    end.
Proof. reflexivity. Qed.

(** ** Facts about buffers *)

Lemma buf_length_nonneg b : 0 <= buf_length b.
Proof. unfold buf_length. lia. Qed.

Lemma buf_length_app (a b : Buffer) :
  buf_length (a ++ b) = buf_length a + buf_length b.
Proof. unfold buf_length. rewrite length_app. lia. Qed.

Lemma buf_length_repeat (x : byte) n : buf_length (repeat x n) = Z.of_nat n.
Proof. unfold buf_length. rewrite repeat_length. reflexivity. Qed.

Lemma relIndex_inside len i : 0 <= i <= len -> relIndex len i = i.
Proof.
  intros H. unfold relIndex.
  destruct (Z.ltb_spec i 0); lia.
Qed.

(** Inside the buffer, a [subarray] has the length its bounds tell. *)
Lemma buf_length_subarray b s e :
  0 <= s <= e -> e <= buf_length b ->
  buf_length (subarray b s e) = e - s.
Proof.
  intros Hs He. unfold subarray.
  rewrite !relIndex_inside by lia.
  unfold buf_length in *. rewrite length_firstn, length_skipn. lia.
Qed.

Lemma buf_length_subarray_from b s :
  0 <= s <= buf_length b ->
  buf_length (subarray_from b s) = buf_length b - s.
Proof.
  intros H. unfold subarray_from. apply buf_length_subarray; lia.
Qed.

Lemma stream_total_cons chunk chunks :
  stream_total (chunk :: chunks) = buf_length chunk + stream_total chunks.
Proof. unfold stream_total, Buffer_concat. cbn [List.concat]. apply buf_length_app. Qed.

Lemma stream_total_nonneg chunks : 0 <= stream_total chunks.
Proof. apply buf_length_nonneg. Qed.

(** ** Facts about chunk-size normalisation *)

Lemma base_value : base = 327680.
Proof. reflexivity. Qed.

Lemma normalize_multiple x :
  Z.rem x base = 0 -> normalizeChunkSize x = x.
Proof.
  intros H. unfold normalizeChunkSize. rewrite H. reflexivity.
Qed.

Lemma normalize_not_multiple x :
  Z.rem x base <> 0 ->
  normalizeChunkSize x = Z.max base (x / base * base).
Proof.
  intros H. unfold normalizeChunkSize.
  destruct (Z.eqb_spec (Z.rem x base) 0); [contradiction | reflexivity].
Qed.

(** The result is always a multiple of the unit. *)
Lemma normalize_divides x : (base | normalizeChunkSize x).
Proof.
  destruct (Z.eq_dec (Z.rem x base) 0) as [H | H].
  - rewrite normalize_multiple by assumption.
    apply Z.rem_divide; [discriminate | assumption].
  - rewrite normalize_not_multiple by assumption.
    destruct (Z.max_spec base (x / base * base)) as [[_ ->] | [_ ->]].
    + exists (x / base). reflexivity.
    + exists 1. lia.
Qed.

(** Off the multiples the floor of one unit applies. *)
Lemma normalize_floor x :
  Z.rem x base <> 0 -> base <= normalizeChunkSize x.
Proof.
  intros H. rewrite normalize_not_multiple by assumption. lia.
Qed.

(** A positive configuration value is normalised to a positive one. *)
Lemma normalize_positive x : 0 < x -> 0 < normalizeChunkSize x.
Proof.
  intros Hx. destruct (Z.eq_dec (Z.rem x base) 0) as [H | H].
  - rewrite normalize_multiple by assumption. assumption.
  - pose proof (normalize_floor x H). rewrite base_value in *. lia.
Qed.

(** Rounding is downwards as soon as one unit fits. *)
Lemma normalize_le x : base <= x -> normalizeChunkSize x <= x.
Proof.
  intros Hx. destruct (Z.eq_dec (Z.rem x base) 0) as [H | H].
  - rewrite normalize_multiple by assumption. lia.
  - rewrite normalize_not_multiple by assumption.
    assert (x / base * base <= x).
    { rewrite Z.mul_comm. apply Z.mul_div_le. rewrite base_value. lia. }
    lia.
Qed.

Lemma normalize_idempotent x :
  normalizeChunkSize (normalizeChunkSize x) = normalizeChunkSize x.
Proof.
  apply normalize_multiple.
  apply Z.rem_divide; [discriminate | apply normalize_divides].
Qed.

(** The normalised value fails to be positive exactly on the multiples of
    the unit that are not positive. *)
Lemma normalize_not_positive_iff x :
  normalizeChunkSize x <= 0 <-> x <= 0 /\ Z.rem x base = 0.
Proof.
  destruct (Z.eq_dec (Z.rem x base) 0) as [H | H].
  - rewrite normalize_multiple by assumption. tauto.
  - pose proof (normalize_floor x H). rewrite base_value in *. split; [lia | tauto].
Qed.

(** ** Facts about ranges *)

Lemma chained_end_offset rs : forall from,
  chained from rs -> from <= end_offset from rs.
Proof.
  induction rs as [| r rs IH]; intros from H; cbn in *; [lia |].
  destruct H as [Hs [Hle Hrest]]. specialize (IH _ Hrest). lia.
Qed.

Lemma chained_nonempty rs from :
  chained from rs -> from < end_offset from rs -> rs <> [].
Proof. intros _ H ->. cbn in H. lia. Qed.

(** Every range lies between the starting offset and the end offset. *)
Lemma chained_bounds rs : forall from,
  chained from rs ->
  Forall (fun r => from <= fst r <= snd r /\ snd r < end_offset from rs) rs.
Proof.
  induction rs as [| r rs IH]; intros from H; [constructor |].
  cbn in H. destruct H as [Hs [Hle Hrest]].
  pose proof (chained_end_offset _ _ Hrest) as Hend.
  constructor.
  - cbn. lia.
  - specialize (IH _ Hrest). cbn [end_offset].
    eapply Forall_impl; [| exact IH]. cbn. intros a Ha. lia.
Qed.

(** The ranges cover exactly the interval from the starting offset to the
    end offset. *)
Lemma chained_cover rs : forall from x,
  chained from rs ->
  ((exists r, In r rs /\ fst r <= x <= snd r) <-> from <= x < end_offset from rs).
Proof.
  induction rs as [| r rs IH]; intros from x H.
  - cbn. split; [intros [r [[] _]] | lia].
  - cbn in H. destruct H as [Hs [Hle Hrest]].
    pose proof (chained_end_offset _ _ Hrest) as Hend.
    specialize (IH (snd r + 1) x Hrest). cbn [end_offset]. split.
    + intros [r' [[<- | Hin] Hx]]; [lia |].
      assert (snd r + 1 <= x < end_offset (snd r + 1) rs)
        by (apply IH; exists r'; auto).
      lia.
    + intros Hx. destruct (Z_le_gt_dec x (snd r)) as [Hin | Hout].
      * exists r. split; [left; reflexivity | lia].
      * destruct IH as [_ IH]. destruct IH as [r' [Hin Hr']]; [lia |].
        exists r'. split; [right; assumption | assumption].
Qed.

Lemma chained_sorted_ends rs : forall from,
  chained from rs -> StronglySorted Z.lt (map snd rs).
Proof.
  induction rs as [| r rs IH]; intros from H; [constructor |].
  cbn in H. destruct H as [Hs [Hle Hrest]]. cbn. constructor.
  - eapply IH; eassumption.
  - apply Forall_map. pose proof (chained_bounds _ _ Hrest) as Hb.
    eapply Forall_impl; [| exact Hb]. cbn. intros a Ha. lia.
Qed.

Lemma chained_sorted_starts rs : forall from,
  chained from rs -> StronglySorted Z.lt (map fst rs).
Proof.
  induction rs as [| r rs IH]; intros from H; [constructor |].
  cbn in H. destruct H as [Hs [Hle Hrest]]. cbn. constructor.
  - eapply IH; eassumption.
  - apply Forall_map. pose proof (chained_bounds _ _ Hrest) as Hb.
    eapply Forall_impl; [| exact Hb]. cbn. intros a Ha. lia.
Qed.

(** Each range starts one byte after the end of the range before it. *)
Lemma chained_adjacent rs : forall from i r1 r2,
  chained from rs ->
  nth_error rs i = Some r1 -> nth_error rs (S i) = Some r2 ->
  fst r2 = snd r1 + 1.
Proof.
  induction rs as [| r rs IH]; intros from i r1 r2 H H1 H2.
  - destruct i; discriminate.
  - cbn in H. destruct H as [Hs [Hle Hrest]]. destruct i as [| i].
    + cbn in H1, H2. injection H1 as <-. destruct rs as [| r' rs]; [discriminate |].
      cbn in H2. injection H2 as <-. cbn in Hrest. lia.
    + cbn in H1. eapply IH; eassumption.
Qed.

Lemma chained_first rs from r :
  chained from rs -> nth_error rs 0 = Some r -> fst r = from.
Proof.
  destruct rs as [| r' rs]; [discriminate |].
  cbn. intros [H _] [= <-]. assumption.
Qed.

Lemma chained_last rs : forall from r,
  chained from rs -> last_range rs = Some r -> snd r = end_offset from rs - 1.
Proof.
  induction rs as [| r' rs IH]; intros from r H Hl; [discriminate |].
  cbn in H. destruct H as [Hs [Hle Hrest]].
  destruct rs as [| r'' rs].
  - cbn in Hl. injection Hl as <-. cbn. lia.
  - change (last_range (r' :: r'' :: rs)) with (last_range (r'' :: rs)) in Hl.
    change (end_offset from (r' :: r'' :: rs)) with (end_offset (snd r' + 1) (r'' :: rs)).
    eapply IH; eassumption.
Qed.

Lemma last_range_some rs : rs <> [] -> exists r, last_range rs = Some r.
Proof.
  induction rs as [| r rs IH]; [contradiction |]. intros _.
  destruct rs as [| r' rs]; [exists r; reflexivity |].
  destruct IH as [x Hx]; [discriminate |]. exists x. exact Hx.
Qed.

Lemma chained_app rs1 : forall from rs2,
  chained from rs1 -> chained (end_offset from rs1) rs2 ->
  chained from (rs1 ++ rs2).
Proof.
  induction rs1 as [| r rs1 IH]; intros from rs2 H1 H2; [assumption |].
  cbn in H1 |- *. destruct H1 as [Hs [Hle Hrest]].
  repeat split; try assumption. apply IH; assumption.
Qed.

Lemma end_offset_app rs1 : forall from rs2,
  end_offset from (rs1 ++ rs2) = end_offset (end_offset from rs1) rs2.
Proof.
  induction rs1 as [| r rs1 IH]; intros from rs2; [reflexivity |].
  cbn. apply IH.
Qed.

Lemma put_ranges_app evs1 evs2 :
  put_ranges (evs1 ++ evs2) = put_ranges evs1 ++ put_ranges evs2.
Proof.
  induction evs1 as [| ev evs1 IH]; [reflexivity |].
  cbn [app put_ranges]. destruct (put_range ev); rewrite IH; reflexivity.
Qed.

Lemma is_put_to_is_put url total ev : is_put_to url total ev -> is_put ev.
Proof. destruct ev as [| | [] | | | | | | | |]; cbn; tauto. Qed.

(** ** Facts about the ceiling *)

Lemma ceil_div_zero C : 0 < C -> ceil_div 0 C = 0.
Proof. intros H. unfold ceil_div. apply Z.div_small. lia. Qed.

Lemma ceil_div_succ d C : 0 < C -> 0 < d -> ceil_div d C = (d - 1) / C + 1.
Proof.
  intros HC Hd. unfold ceil_div.
  replace (d + C - 1) with (d - 1 + 1 * C) by lia.
  apply Z.div_add. lia.
Qed.

Lemma ceil_div_step d C :
  0 < C -> 0 < d -> ceil_div d C = 1 + ceil_div (d - Z.min C d) C.
Proof.
  intros HC Hd. rewrite (ceil_div_succ d C) by assumption.
  destruct (Z.min_spec C d) as [[Hlt ->] | [Hle ->]].
  - unfold ceil_div. replace (d - C + C - 1) with (d - 1) by lia. lia.
  - replace (d - d) with 0 by lia. rewrite ceil_div_zero by assumption.
    rewrite Z.div_small by lia. reflexivity.
Qed.

(** The defining property of the ceiling. *)
Lemma ceil_div_spec a b :
  0 < b -> b * (ceil_div a b - 1) < a <= b * ceil_div a b.
Proof.
  intros Hb. unfold ceil_div.
  pose proof (Z.div_mod (a + b - 1) b ltac:(lia)) as E.
  pose proof (Z.mod_pos_bound (a + b - 1) b Hb) as B.
  nia.
Qed.

(** ** Facts about sequences of [PUT]s *)

Lemma sends_nothing url total from : sends_ranges url total from from [].
Proof. repeat split. constructor. Qed.

Lemma sends_one_more url total len s e body upto evs :
  s <= e ->
  sends_ranges url total (e + 1) upto evs ->
  sends_ranges url total s upto (EvFetch (PUT url len s e total body) :: evs).
Proof.
  intros Hle [Hput [Hlen [Hch Hend]]]. unfold sends_ranges.
  cbn [put_ranges put_range List.length chained end_offset fst snd].
  split; [constructor; [cbn; auto | assumption] |].
  split; [lia |]. split; [| assumption]. repeat split; assumption.
Qed.

Lemma sends_more url total from mid upto evs1 evs2 :
  sends_ranges url total from mid evs1 ->
  sends_ranges url total mid upto evs2 ->
  sends_ranges url total from upto (evs1 ++ evs2).
Proof.
  intros [Hput1 [Hlen1 [Hch1 Hend1]]] [Hput2 [Hlen2 [Hch2 Hend2]]].
  unfold sends_ranges. rewrite put_ranges_app, end_offset_app, !length_app, Hend1.
  split; [apply Forall_app; auto |]. split; [lia |].
  split; [| assumption]. apply chained_app; [assumption |].
  rewrite Hend1. assumption.
Qed.

Lemma sends_forward url total from upto evs :
  sends_ranges url total from upto evs -> from <= upto.
Proof.
  intros [_ [_ [Hch <-]]]. apply chained_end_offset. assumption.
Qed.

(** One turn of the read loop of [uploadLargeFileByPath]: the [PUT] of
    the chunk, and the closing of the iterator when it fails. *)
Lemma uploadLargeFileByPath_turn w url fileSize filePath chunk offset log :
  let req := PUT url (buf_length chunk) offset (offset + buf_length chunk - 1)
               fileSize chunk in
  for_await_body filePath (uploadLargeFileByPath_body w url fileSize chunk offset) log
  = match world_fetch w log req with
    | inl e => (Thrown e, log ++ [EvFetch req; EvDestroyStream filePath])
    | inr res =>
      if chunk_rejected res
      then (Thrown (Error ("Upload chunk failed with status " ++ show_Z (res_status res))),
            log ++ [EvFetch req; EvDestroyStream filePath])
      else (Returned tt, log ++ [EvFetch req])
    end.
Proof.
  cbn zeta. unfold for_await_body, try_catch, uploadLargeFileByPath_body.
  unfold bind, fetch, call, emit, throw, ret.
  destruct (world_fetch w log _) as [e | res]; [rewrite <- app_assoc; reflexivity |].
  destruct (chunk_rejected res); [rewrite <- app_assoc |]; reflexivity.
Qed.

(** ** The chunk loops when every chunk is accepted *)

Section AcceptedChunks.

Variable w : World.
Hypothesis Hw : accepts_chunks w.
Variable url : string.

Lemma fetch_put_accepted log len s e total body :
  exists res,
    fetch w (PUT url len s e total body) log
    = (Returned res, log ++ [EvFetch (PUT url len s e total body)])
    /\ chunk_rejected res = false.
Proof.
  destruct (Hw log url len s e total body) as [res [Hres Hok]].
  exists res. split; [| assumption].
  unfold fetch. apply call_resolves. assumption.
Qed.

(** Runs the [PUT] at the head of the goal and takes the branch of the
    accepted chunk. *)
Ltac accept_put :=
  match goal with
  | |- context [bind (fetch w (PUT url ?len ?s ?e ?total ?body)) _ ?log] =>
    let res := fresh "res" in
    let Hrun := fresh "Hrun" in
    let Hok := fresh "Hok" in
    destruct (fetch_put_accepted log len s e total body) as [res [Hrun Hok]];
    rewrite (bind_returned _ _ _ _ _ Hrun), Hok
  end.

Lemma uploadLargeContent_loop_run content C :
  0 < C ->
  forall fuel offset log,
    0 <= offset <= buf_length content ->
    (Z.to_nat (buf_length content - offset) < fuel)%nat ->
    exists evs,
      uploadLargeContent_loop w fuel url content C offset log
      = (Returned tt, log ++ evs)
      /\ sends_ranges url (buf_length content) offset (buf_length content) evs
      /\ Z.of_nat (List.length evs) = ceil_div (buf_length content - offset) C.
Proof.
  intros HC. set (T := buf_length content).
  induction fuel as [| fuel IH]; intros offset log Hoff Hfuel; [lia |].
  cbn [uploadLargeContent_loop]. fold T.
  destruct (Z.ltb_spec offset T) as [Hlt | Hge].
  - set (endExclusive := Z.min (offset + C) T).
    assert (Hend : offset < endExclusive <= T) by (unfold endExclusive; lia).
    accept_put.
    edestruct (IH endExclusive) as [evs [Hevs [Hsends Hcount]]];
      [| | rewrite Hevs]; [lia | lia |].
    eexists (_ :: evs). rewrite <- app_assoc.
    split; [reflexivity |]. split.
    + apply sends_one_more; [lia |].
      replace (endExclusive - 1 + 1) with endExclusive by lia. assumption.
    + cbn [List.length]. rewrite Nat2Z.inj_succ, Hcount.
      rewrite (ceil_div_step (T - offset) C) by lia.
      replace (T - offset - Z.min C (T - offset)) with (T - endExclusive)
        by (unfold endExclusive; lia).
      lia.
  - exists []. rewrite app_nil_r.
    replace offset with T by lia. rewrite Z.sub_diag, ceil_div_zero by assumption.
    split; [reflexivity |]. split; [apply sends_nothing | reflexivity].
Qed.

Lemma uploadLargeFileByPath_loop_run fileSize filePath chunks :
  Forall (fun chunk => 0 < buf_length chunk) chunks ->
  forall offset log,
    exists evs,
      uploadLargeFileByPath_loop w url fileSize filePath chunks None offset log
      = (Returned tt, log ++ evs)
      /\ sends_ranges url fileSize offset (offset + stream_total chunks) evs.
Proof.
  induction 1 as [| chunk chunks Hchunk _ IH]; intros offset log.
  - exists []. rewrite app_nil_r. split; [reflexivity |].
    replace (offset + stream_total []) with offset
      by (unfold stream_total; cbn; lia).
    apply sends_nothing.
  - cbn [uploadLargeFileByPath_loop]. unfold bind at 1.
    rewrite uploadLargeFileByPath_turn.
    destruct (Hw log url (buf_length chunk) offset (offset + buf_length chunk - 1)
                fileSize chunk) as [res [-> ->]].
    edestruct (IH (offset + buf_length chunk)) as [evs [Hevs Hsends]].
    rewrite Hevs. eexists (_ :: evs). rewrite <- app_assoc.
    split; [reflexivity |].
    apply sends_one_more; [lia |]. rewrite stream_total_cons.
    replace (offset + buf_length chunk - 1 + 1) with (offset + buf_length chunk) by lia.
    rewrite Z.add_assoc. assumption.
Qed.

Lemma stream_drain_run size C :
  0 < C ->
  forall fuel offset pending log,
    (Z.to_nat (buf_length pending) < fuel)%nat ->
    exists evs offset' pending',
      stream_drain w fuel url size C offset pending log
      = (Returned (offset', pending'), log ++ evs)
      /\ sends_ranges url size offset offset' evs
      /\ offset' + buf_length pending' = offset + buf_length pending.
Proof.
  intros HC. induction fuel as [| fuel IH]; intros offset pending log Hfuel; [lia |].
  cbn [stream_drain].
  destruct (Z.geb_spec (buf_length pending) C) as [Hge | Hlt].
  - set (toSend := subarray pending 0 C).
    assert (HtoSend : buf_length toSend = C)
      by (unfold toSend; rewrite buf_length_subarray; lia).
    assert (Hrest : buf_length (subarray_from pending (buf_length toSend))
                    = buf_length pending - C)
      by (rewrite buf_length_subarray_from; lia).
    accept_put.
    edestruct (IH (offset + buf_length toSend)
                 (subarray_from pending (buf_length toSend)))
      as [evs [offset' [pending' [Hevs [Hsends Hsum]]]]]; [| rewrite Hevs]; [lia |].
    eexists (_ :: evs), offset', pending'. rewrite <- app_assoc.
    split; [reflexivity |]. split; [| lia].
    apply sends_one_more; [lia |].
    replace (offset + buf_length toSend - 1 + 1) with (offset + buf_length toSend) by lia.
    assumption.
  - exists [], offset, pending. rewrite app_nil_r.
    split; [reflexivity |]. split; [apply sends_nothing | reflexivity].
Qed.

Lemma stream_read_run size C :
  0 < C ->
  forall fuel values offset pending log,
    (Z.to_nat (buf_length pending + stream_total values) < fuel)%nat ->
    exists evs offset' pending',
      stream_read w fuel url size C values None offset pending log
      = (Returned (offset', pending'), log ++ evs)
      /\ sends_ranges url size offset offset' evs
      /\ offset' + buf_length pending'
         = offset + buf_length pending + stream_total values.
Proof.
  intros HC fuel.
  induction values as [| value rest IH]; intros offset pending log Hfuel.
  - exists [], offset, pending. rewrite app_nil_r.
    split; [reflexivity |]. split; [apply sends_nothing |].
    unfold stream_total. cbn. lia.
  - cbn [stream_read]. rewrite stream_total_cons in Hfuel |- *.
    pose proof (buf_length_nonneg pending) as Hp.
    pose proof (buf_length_nonneg value) as Hv.
    pose proof (stream_total_nonneg rest) as Hr.
    set (pending1 := if buf_length pending =? 0 then value
                     else Buffer_concat [pending; value]).
    assert (Hlen1 : buf_length pending1 = buf_length pending + buf_length value).
    { unfold pending1. destruct (Z.eqb_spec (buf_length pending) 0) as [-> | _]; [lia |].
      unfold Buffer_concat. cbn [List.concat]. rewrite app_nil_r. apply buf_length_app. }
    destruct (stream_drain_run size C HC fuel offset pending1 log)
      as [evs1 [offset1 [pending2 [Hrun1 [Hsends1 Hsum1]]]]]; [lia |].
    rewrite (bind_returned _ _ _ _ _ Hrun1). cbn [fst snd].
    pose proof (sends_forward _ _ _ _ _ Hsends1) as Hmono.
    pose proof (buf_length_nonneg pending2) as Hp2.
    destruct (IH offset1 pending2 (log ++ evs1))
      as [evs2 [offset' [pending' [Hrun2 [Hsends2 Hsum2]]]]]; [lia |].
    exists (evs1 ++ evs2), offset', pending'. rewrite Hrun2, app_assoc.
    split; [reflexivity |]. split; [| lia].
    eapply sends_more; eassumption.
Qed.

Lemma stream_upload_run size C stream :
  0 < C ->
  stream_failure stream = None ->
  stream_total (stream_chunks stream) = size ->
  forall fuel log,
    (Z.to_nat size < fuel)%nat ->
    exists evs,
      stream_upload w fuel url size C stream log = (Returned tt, log ++ evs)
      /\ sends_ranges url size 0 size evs.
Proof.
  intros HC Hfail Htotal fuel log Hfuel. unfold stream_upload. rewrite Hfail.
  destruct (stream_read_run size C HC fuel (stream_chunks stream) 0 [] log)
    as [evs [offset [pending [Hrun [Hsends Hsum]]]]].
  { rewrite Htotal. cbn. assumption. }
  rewrite (bind_returned _ _ _ _ _ Hrun). cbn [fst snd].
  rewrite Htotal in Hsum. change (buf_length []) with 0 in Hsum.
  destruct (Z.gtb_spec (buf_length pending) 0) as [Hpos | Hzero].
  - accept_put. eexists (evs ++ [_]). unfold ret. rewrite app_assoc.
    split; [reflexivity |].
    eapply sends_more; [eassumption |].
    apply sends_one_more; [lia |].
    replace (size - 1 + 1) with size by lia. apply sends_nothing.
  - pose proof (buf_length_nonneg pending). exists evs.
    split; [reflexivity |].
    assert (E : offset = size) by lia. rewrite E in Hsends. assumption.
Qed.

(** With a chunk size of 0 the loop of [uploadLargeContent] makes no
    progress: whatever the fuel, it does not return. *)
Lemma zero_chunk_size_never_returns content :
  0 < buf_length content ->
  forall fuel log,
    fst (uploadLargeContent_loop w fuel url content 0 0 log) = OutOfFuel.
Proof.
  intros HT. induction fuel as [| fuel IH]; intros log; [reflexivity |].
  cbn [uploadLargeContent_loop].
  destruct (Z.ltb_spec 0 (buf_length content)) as [_ | H]; [| lia].
  replace (Z.min (0 + 0) (buf_length content)) with 0 by lia.
  accept_put. apply IH.
Qed.

End AcceptedChunks.

Lemma test_world_accepts : accepts_chunks test_world.
Proof.
  intros log url len s e total body. eexists. split; reflexivity.
Qed.

(** ** The chunk loop of [uploadLargeContent] whatever the answers *)

(** Whatever the answers and the fuel, the loop of [uploadLargeContent]
    makes no other call than [PUT]s to the upload URL. *)
Lemma uploadLargeContent_loop_log w url content C : forall fuel offset log,
  exists out evs,
    uploadLargeContent_loop w fuel url content C offset log = (out, log ++ evs)
    /\ Forall (is_put_to url (buf_length content)) evs.
Proof.
  induction fuel as [| fuel IH]; intros offset log.
  - exists OutOfFuel, []. rewrite app_nil_r. split; [reflexivity | constructor].
  - cbn [uploadLargeContent_loop].
    destruct (offset <? buf_length content).
    + set (req := PUT _ _ _ _ _ _). unfold bind, fetch, call.
      destruct (world_fetch w log req) as [e | res].
      * exists (Thrown e), [EvFetch req]. split; [reflexivity |].
        constructor; [cbn; auto | constructor].
      * destruct (chunk_rejected res).
        -- eexists _, [EvFetch req]. split; [reflexivity |].
           constructor; [cbn; auto | constructor].
        -- destruct (IH (Z.min (offset + C) (buf_length content)) (log ++ [EvFetch req]))
             as [out [evs [Hrun Hput]]].
           exists out, (EvFetch req :: evs). rewrite Hrun, <- app_assoc.
           split; [reflexivity |]. constructor; [cbn; auto | assumption].
    + exists (Returned tt), []. rewrite app_nil_r. split; [reflexivity | constructor].
Qed.

Lemma uploadLargeContent_log w c fuel messageId fileName content contentType log :
  buf_length content <= MAX_ATTACHMENT_SIZE ->
  exists out evs,
    uploadLargeContent w c fuel messageId fileName content contentType log
    = (out, log ++ EvGraphPost (createUploadSession_path c messageId)
                     (AttachmentItem fileName (buf_length content) contentType) :: evs)
    /\ Forall is_put evs.
Proof.
  intros H. unfold uploadLargeContent.
  destruct (Z.gtb_spec (buf_length content) MAX_ATTACHMENT_SIZE) as [Hgt | _]; [lia |].
  set (ev := EvGraphPost _ _). unfold bind, post, call. fold ev.
  destruct (graph_post w log _ _) as [e | session].
  - exists (Thrown e), []. split; [reflexivity | constructor].
  - destruct (uploadLargeContent_loop_log w (resp_uploadUrl session) content
                (normalizeChunkSize (chunkSize (attachmentUploadOptions c)))
                fuel 0 (log ++ [ev])) as [out [evs [Hrun Hput]]].
    exists out, evs. rewrite Hrun, <- app_assoc. split; [reflexivity |].
    eapply Forall_impl; [| exact Hput]. intros ev'. apply is_put_to_is_put.
Qed.

(** ** Ranges that follow one another *)

(** Ranges are in sequence up to a total when they are contiguous, their
    starts ascend, and the last of them ends at the total minus one. *)
Lemma sequential_ranges_parts total rs :
  sequential_ranges total rs
  <-> contiguous_ranges rs /\ ascending_starts rs /\ ends_at total rs.
Proof. unfold sequential_ranges, contiguous_ranges, ascending_starts, ends_at. tauto. Qed.

Lemma follows_app rs1 : forall from rs2,
  follows from rs1 -> follows (end_offset from rs1) rs2 ->
  follows from (rs1 ++ rs2).
Proof.
  induction rs1 as [| r rs1 IH]; intros from rs2 H1 H2; [assumption |].
  cbn in H1 |- *. destruct H1 as [Hs Hrest].
  split; [assumption |]. apply IH; assumption.
Qed.

Lemma follows_chained rs : forall from,
  follows from rs -> Forall holds_bytes rs -> chained from rs.
Proof.
  induction rs as [| r rs IH]; intros from H Hall; [exact I |].
  cbn in H |- *. destruct H as [Hs Hrest]. inversion Hall as [| ? ? Hr Hrs]; subst.
  split; [reflexivity |]. split; [exact Hr |]. apply IH; assumption.
Qed.

Lemma follows_contiguous rs : follows 0 rs -> contiguous_ranges rs.
Proof.
  intros H. split.
  - destruct rs as [| r rs]; [discriminate |]. cbn. intros r' [= <-]. apply H.
  - revert H. generalize 0. induction rs as [| r rs IH]; intros from H i r1 r2 H1 H2.
    + destruct i; discriminate.
    + cbn in H. destruct H as [Hs Hrest]. destruct i as [| i].
      * cbn in H1, H2. injection H1 as <-. destruct rs as [| r' rs]; [discriminate |].
        cbn in H2. injection H2 as <-. cbn in Hrest. lia.
      * cbn in H1. eapply IH; eassumption.
Qed.

Lemma follows_last rs : forall from r,
  follows from rs -> last_range rs = Some r -> snd r = end_offset from rs - 1.
Proof.
  induction rs as [| r' rs IH]; intros from r H Hl; [discriminate |].
  cbn in H. destruct H as [Hs Hrest].
  destruct rs as [| r'' rs].
  - cbn in Hl. injection Hl as <-. cbn. lia.
  - change (last_range (r' :: r'' :: rs)) with (last_range (r'' :: rs)) in Hl.
    change (end_offset from (r' :: r'' :: rs)) with (end_offset (snd r' + 1) (r'' :: rs)).
    eapply IH; eassumption.
Qed.

(** Ranges that follow one another up to [total], and are not all
    missing, end at [total - 1]. *)
Lemma follows_ends_at rs from total :
  follows from rs -> end_offset from rs = total -> rs <> [] -> ends_at total rs.
Proof.
  intros H Hend Hne. destruct (last_range_some rs Hne) as [r Hr].
  exists r. split; [assumption |]. rewrite (follows_last _ _ _ H Hr), Hend. reflexivity.
Qed.

Lemma last_range_snoc rs r : last_range (rs ++ [r]) = Some r.
Proof.
  induction rs as [| r' rs IH]; [reflexivity |].
  cbn [app]. destruct (rs ++ [r]) eqn:E; [destruct rs; discriminate |].
  exact IH.
Qed.

(** Ranges that hold bytes and follow one another, and then one more
    range, have ascending starts. *)
Lemma chained_snoc_ascending rs : forall from e,
  chained from rs -> ascending_starts (rs ++ [(end_offset from rs, e)]).
Proof.
  unfold ascending_starts.
  induction rs as [| r rs IH]; intros from e H.
  - cbn. constructor; constructor.
  - cbn in H. destruct H as [Hs [Hle Hrest]]. cbn [app map end_offset]. constructor.
    + apply IH. assumption.
    + rewrite map_app. apply Forall_app. split.
      * apply Forall_map. pose proof (chained_bounds _ _ Hrest) as Hb.
        eapply Forall_impl; [| exact Hb]. cbn. intros a Ha. lia.
      * cbn. constructor; [| constructor].
        pose proof (chained_end_offset _ _ Hrest). lia.
Qed.

Lemma put_ranges_all_puts evs :
  Forall is_put evs -> List.length (put_ranges evs) = List.length evs.
Proof.
  induction 1 as [| ev evs Hev _ IH]; [reflexivity |].
  destruct ev as [| | [] | | | | | | | |]; try contradiction.
  cbn. rewrite IH. reflexivity.
Qed.

Lemma ends_at_cons total r rs : ends_at total rs -> ends_at total (r :: rs).
Proof.
  intros [x [Hx Hend]]. exists x. split; [| assumption].
  destruct rs as [| r' rs]; [discriminate |]. exact Hx.
Qed.

(** ** The chunk loops, whatever the answers, the chunk size and the fuel *)

Section AnyWorld.

Variable w : World.
Variable url : string.

Lemma uploadLargeContent_loop_ranges content C : forall fuel offset log,
  exists evs,
    snd (uploadLargeContent_loop w fuel url content C offset log) = log ++ evs
    /\ Forall is_put evs
    /\ follows offset (put_ranges evs)
    /\ (0 < C -> Forall holds_bytes (put_ranges evs))
    /\ (buf_length content <= offset -> evs = [])
    /\ (fst (uploadLargeContent_loop w fuel url content C offset log) = Returned tt ->
        offset < buf_length content ->
        end_offset offset (put_ranges evs) = buf_length content).
Proof.
  set (T := buf_length content).
  induction fuel as [| fuel IH]; intros offset log.
  - exists []. cbn. rewrite app_nil_r.
    repeat (split; [reflexivity || constructor || (intros; constructor) |]). discriminate.
  - cbn [uploadLargeContent_loop]. fold T.
    destruct (Z.ltb_spec offset T) as [Hlt | Hge].
    + set (endExclusive := Z.min (offset + C) T).
      set (req := PUT url _ offset (endExclusive - 1) T _).
      assert (Hone : follows offset (put_ranges [EvFetch req])) by (cbn; auto).
      assert (Hbytes : 0 < C -> Forall holds_bytes (put_ranges [EvFetch req])).
      { intros HC. cbn. constructor; [| constructor].
        unfold holds_bytes, endExclusive. cbn. lia. }
      unfold bind, fetch, call.
      destruct (world_fetch w log req) as [e | res].
      * exists [EvFetch req]. cbn [fst snd].
        split; [reflexivity |]. split; [repeat constructor |].
        split; [exact Hone |]. split; [exact Hbytes |]. split; [lia | discriminate].
      * destruct (chunk_rejected res).
        -- exists [EvFetch req]. cbn [fst snd].
           split; [reflexivity |]. split; [repeat constructor |].
           split; [exact Hone |]. split; [exact Hbytes |]. split; [lia | discriminate].
        -- destruct (IH endExclusive (log ++ [EvFetch req]))
             as [evs [Hevs [Hput [Hfol [Hhold [Hnil Hend]]]]]].
           exists (EvFetch req :: evs). rewrite Hevs, <- app_assoc.
           split; [reflexivity |]. split; [constructor; [exact I | assumption] |].
           change (put_ranges (EvFetch req :: evs))
             with ((offset, endExclusive - 1) :: put_ranges evs).
           cbn [follows fst snd end_offset].
           replace (endExclusive - 1 + 1) with endExclusive by lia.
           split; [split; [reflexivity | assumption] |].
           split.
           { intros HC. constructor; [| auto].
             unfold holds_bytes, endExclusive. cbn. lia. }
           split; [lia |].
           intros Hret _. destruct (Z_lt_le_dec endExclusive T) as [Hin | Hout].
           ++ apply Hend; assumption.
           ++ rewrite (Hnil Hout). cbn. unfold endExclusive in *. lia.
    + exists []. cbn. rewrite app_nil_r.
      split; [reflexivity |]. split; [constructor |]. split; [exact I |].
      split; [intros; constructor |]. split; [reflexivity | lia].
Qed.

Lemma uploadLargeFileByPath_loop_ranges fileSize filePath failure :
  forall chunks offset log,
    exists evs,
      snd (uploadLargeFileByPath_loop w url fileSize filePath chunks failure offset log)
      = log ++ evs
      /\ follows offset (put_ranges evs)
      /\ (Forall (fun chunk => 0 < buf_length chunk) chunks ->
          Forall holds_bytes (put_ranges evs))
      /\ (fst (uploadLargeFileByPath_loop w url fileSize filePath chunks failure offset log)
          = Returned tt ->
          Forall is_put evs
          /\ List.length evs = List.length chunks
          /\ end_offset offset (put_ranges evs) = offset + stream_total chunks).
Proof.
  induction chunks as [| chunk chunks IH]; intros offset log.
  - exists []. cbn [uploadLargeFileByPath_loop].
    assert (E : offset + stream_total [] = offset) by (unfold stream_total; cbn; lia).
    destruct failure as [e |]; cbn; rewrite app_nil_r;
      (split; [reflexivity |]); (split; [exact I |]); (split; [intros; constructor |]);
      [discriminate |].
    intros _. split; [constructor |]. split; [reflexivity |]. symmetry. exact E.
  - cbn [uploadLargeFileByPath_loop]. unfold bind at 1 2.
    rewrite uploadLargeFileByPath_turn.
    set (req := PUT url _ offset _ fileSize chunk).
    assert (Hone : forall rest, put_ranges (EvFetch req :: rest)
                                = (offset, offset + buf_length chunk - 1) :: put_ranges rest)
      by reflexivity.
    assert (Hfail : exists evs,
               log ++ [EvFetch req; EvDestroyStream filePath] = log ++ evs
               /\ follows offset (put_ranges evs)
               /\ (Forall (fun c => 0 < buf_length c) (chunk :: chunks) ->
                   Forall holds_bytes (put_ranges evs))).
    { exists [EvFetch req; EvDestroyStream filePath]. split; [reflexivity |].
      rewrite Hone. cbn. split; [auto |]. intros Hall.
      inversion Hall; subst. constructor; [| constructor]. unfold holds_bytes. cbn. lia. }
    destruct (world_fetch w log req) as [e | res].
    + destruct Hfail as [evs [E [Hfol Hhold]]]. exists evs. cbn [fst snd].
      split; [exact E |]. split; [exact Hfol |]. split; [exact Hhold | discriminate].
    + destruct (chunk_rejected res).
      * destruct Hfail as [evs [E [Hfol Hhold]]]. exists evs. cbn [fst snd].
        split; [exact E |]. split; [exact Hfol |]. split; [exact Hhold | discriminate].
      * destruct (IH (offset + buf_length chunk) (log ++ [EvFetch req]))
          as [evs [Hevs [Hfol [Hhold Hret]]]].
        exists (EvFetch req :: evs). rewrite Hevs, <- app_assoc.
        split; [reflexivity |]. rewrite Hone.
        cbn [follows fst snd end_offset].
        replace (offset + buf_length chunk - 1 + 1) with (offset + buf_length chunk) by lia.
        split; [split; [reflexivity | assumption] |].
        split.
        { intros Hall. inversion Hall; subst. constructor; [| auto].
          unfold holds_bytes. cbn. lia. }
        intros Hr. destruct (Hret Hr) as [Hput [Hlen Hend]].
        split; [constructor; [exact I | assumption] |].
        split; [cbn; congruence |].
        rewrite Hend, stream_total_cons. lia.
Qed.

Lemma stream_drain_ranges size C : forall fuel offset pending log,
  exists evs,
    snd (stream_drain w fuel url size C offset pending log) = log ++ evs
    /\ Forall is_put evs
    /\ follows offset (put_ranges evs)
    /\ (0 < C -> Forall holds_bytes (put_ranges evs))
    /\ (forall st,
          fst (stream_drain w fuel url size C offset pending log) = Returned st ->
          end_offset offset (put_ranges evs) = fst st
          /\ (0 < C ->
              fst st + buf_length (snd st) = offset + buf_length pending
              /\ buf_length (snd st) < C
              /\ (C | fst st - offset))).
Proof.
  induction fuel as [| fuel IH]; intros offset pending log.
  - exists []. cbn. rewrite app_nil_r.
    split; [reflexivity |]. split; [constructor |]. split; [exact I |].
    split; [intros; constructor | discriminate].
  - cbn [stream_drain].
    destruct (Z.geb_spec (buf_length pending) C) as [Hge | Hlt].
    + set (toSend := subarray pending 0 C).
      set (req := PUT url _ offset _ size toSend).
      assert (Hone : forall rest, put_ranges (EvFetch req :: rest)
                                  = (offset, offset + buf_length toSend - 1) :: put_ranges rest)
        by reflexivity.
      assert (HtoSend : 0 < C -> buf_length toSend = C)
        by (intros HC; unfold toSend; rewrite buf_length_subarray; lia).
      assert (Hbytes : 0 < C -> holds_bytes (offset, offset + buf_length toSend - 1))
        by (intros HC; unfold holds_bytes; cbn; rewrite (HtoSend HC); lia).
      unfold bind, fetch, call.
      destruct (world_fetch w log req) as [e | res].
      * exists [EvFetch req]. cbn [fst snd]. rewrite Hone.
        split; [reflexivity |]. split; [repeat constructor |].
        split; [cbn; auto |]. split; [| discriminate].
        intros HC. constructor; [auto | constructor].
      * destruct (chunk_rejected res).
        -- exists [EvFetch req]. cbn [fst snd]. rewrite Hone.
           split; [reflexivity |]. split; [repeat constructor |].
           split; [cbn; auto |]. split; [| discriminate].
           intros HC. constructor; [auto | constructor].
        -- destruct (IH (offset + buf_length toSend)
                       (subarray_from pending (buf_length toSend))
                       (log ++ [EvFetch req]))
             as [evs [Hevs [Hput [Hfol [Hhold Hret]]]]].
           exists (EvFetch req :: evs). rewrite Hevs, <- app_assoc, Hone.
           split; [reflexivity |]. split; [constructor; [exact I | assumption] |].
           cbn [follows fst snd end_offset].
           replace (offset + buf_length toSend - 1 + 1) with (offset + buf_length toSend)
             by lia.
           split; [split; [reflexivity | assumption] |].
           split; [intros HC; constructor; auto |].
           intros st Hst. destruct (Hret st Hst) as [Hend Hsum].
           split; [assumption |]. intros HC. destruct (Hsum HC) as [Hs [Hlt [k Hk]]].
           rewrite buf_length_subarray_from in Hs by (rewrite (HtoSend HC); lia).
           rewrite (HtoSend HC) in *.
           split; [lia |]. split; [assumption |]. exists (k + 1). lia.
    + exists []. cbn. rewrite app_nil_r.
      split; [reflexivity |]. split; [constructor |]. split; [exact I |].
      split; [intros; constructor |].
      intros st [= <-]. cbn. split; [reflexivity |]. intros _.
      split; [lia |]. split; [assumption |]. exists 0. lia.
Qed.

Lemma stream_read_ranges size C fuel failure : forall values offset pending log,
  exists evs,
    snd (stream_read w fuel url size C values failure offset pending log) = log ++ evs
    /\ Forall is_put evs
    /\ follows offset (put_ranges evs)
    /\ (0 < C -> Forall holds_bytes (put_ranges evs))
    /\ (forall st,
          fst (stream_read w fuel url size C values failure offset pending log)
          = Returned st ->
          end_offset offset (put_ranges evs) = fst st
          /\ (0 < C ->
              fst st + buf_length (snd st)
              = offset + buf_length pending + stream_total values
              /\ (buf_length pending < C -> buf_length (snd st) < C)
              /\ (C | fst st - offset))).
Proof.
  induction values as [| value rest IH]; intros offset pending log.
  - exists []. cbn [stream_read].
    destruct failure as [e |]; cbn; rewrite app_nil_r;
      (split; [reflexivity |]); (split; [constructor |]); (split; [exact I |]);
      (split; [intros; constructor |]); [discriminate |].
    intros st [= <-]. cbn. split; [reflexivity |].
    intros _. split; [unfold stream_total; cbn; lia |].
    split; [auto |]. exists 0. lia.
  - cbn [stream_read].
    set (pending1 := if buf_length pending =? 0 then value
                     else Buffer_concat [pending; value]).
    assert (Hlen1 : buf_length pending1 = buf_length pending + buf_length value).
    { unfold pending1. destruct (Z.eqb_spec (buf_length pending) 0) as [-> | _]; [lia |].
      unfold Buffer_concat. cbn [List.concat]. rewrite app_nil_r. apply buf_length_app. }
    destruct (stream_drain_ranges size C fuel offset pending1 log)
      as [evs1 [Hevs1 [Hput1 [Hfol1 [Hhold1 Hret1]]]]].
    unfold bind.
    destruct (stream_drain w fuel url size C offset pending1 log) as [[st1 | e |] log1];
      cbn [fst snd] in *; subst log1.
    + destruct (Hret1 st1 eq_refl) as [Hend1 Hsum1].
      destruct (IH (fst st1) (snd st1) (log ++ evs1))
        as [evs2 [Hevs2 [Hput2 [Hfol2 [Hhold2 Hret2]]]]].
      exists (evs1 ++ evs2). rewrite Hevs2, app_assoc, put_ranges_app.
      split; [reflexivity |]. split; [apply Forall_app; auto |].
      split; [apply follows_app; [assumption | rewrite Hend1; assumption] |].
      split; [intros HC; apply Forall_app; auto |].
      intros st Hst. destruct (Hret2 st Hst) as [Hend2 Hsum2].
      rewrite end_offset_app, Hend1. split; [assumption |].
      intros HC. destruct (Hsum1 HC) as [Hs1 [Hlt1 [k1 Hk1]]].
      destruct (Hsum2 HC) as [Hs2 [Hlt2 [k2 Hk2]]].
      rewrite stream_total_cons.
      split; [lia |]. split; [auto |]. exists (k1 + k2). lia.
    + exists evs1. split; [reflexivity |]. repeat (split; [assumption |]). discriminate.
    + exists evs1. split; [reflexivity |]. repeat (split; [assumption |]). discriminate.
Qed.

(** With a chunk size that is not positive the draining loop never comes
    to an end. *)
Lemma stream_drain_stuck size C :
  C <= 0 ->
  forall fuel offset pending log st,
    fst (stream_drain w fuel url size C offset pending log) <> Returned st.
Proof.
  intros HC. induction fuel as [| fuel IH]; intros offset pending log st; [discriminate |].
  cbn [stream_drain]. pose proof (buf_length_nonneg pending).
  destruct (Z.geb_spec (buf_length pending) C) as [_ | Hlt]; [| lia].
  unfold bind, fetch, call.
  destruct (world_fetch w log _) as [e | res]; [cbn; discriminate |].
  destruct (chunk_rejected res); [cbn; discriminate | apply IH].
Qed.

Lemma stream_upload_ranges size C fuel stream log :
  exists evs,
    snd (stream_upload w fuel url size C stream log) = log ++ evs
    /\ Forall is_put evs
    /\ follows 0 (put_ranges evs)
    /\ (0 < C -> ascending_starts (put_ranges evs))
    /\ (fst (stream_upload w fuel url size C stream log) = Returned tt ->
        0 < stream_total (stream_chunks stream) ->
        ends_at (stream_end size C (stream_total (stream_chunks stream)))
          (put_ranges evs)).
Proof.
  unfold stream_upload.
  destruct (stream_read_ranges size C fuel (stream_failure stream) (stream_chunks stream)
              0 [] log) as [evs1 [Hevs1 [Hput1 [Hfol1 [Hhold1 Hret1]]]]].
  assert (Hasc1 : 0 < C -> ascending_starts (put_ranges evs1)).
  { intros HC. eapply chained_sorted_starts. apply follows_chained; eauto. }
  rewrite bind_run.
  pose proof (stream_drain_stuck size C) as Hstuck.
  destruct (stream_read w fuel url size C (stream_chunks stream) (stream_failure stream)
              0 [] log) as [[st | e |] log1] eqn:Hread; cbn [fst snd] in *; subst log1.
  - destruct (Hret1 st eq_refl) as [Hend1 Hsum1].
    assert (Hstuck' : 0 < stream_total (stream_chunks stream) -> 0 < C).
    { intros Htotal. destruct (Z_lt_le_dec 0 C) as [HC | HC]; [assumption |].
      exfalso. destruct (stream_chunks stream) as [| value rest] eqn:Hchunks.
      - unfold stream_total in Htotal. cbn in Htotal. lia.
      - cbn [stream_read] in Hread. unfold bind in Hread.
        match type of Hread with
        | context [stream_drain w fuel url size C ?o ?p ?l] =>
          pose proof (Hstuck HC fuel o p l) as Hs;
          destruct (stream_drain w fuel url size C o p l) as [[st1 | e1 |] l1]
        end; cbn [fst] in Hs.
        + exact (Hs st1 eq_refl).
        + discriminate.
        + discriminate. }
    assert (Hrem : 0 < stream_total (stream_chunks stream) ->
                   stream_total (stream_chunks stream) mod C = buf_length (snd st)).
    { intros Htotal. pose proof (Hstuck' Htotal) as HC.
      destruct (Hsum1 HC) as [Hs [Hlt [k Hk]]]. change (buf_length []) with 0 in *.
      pose proof (buf_length_nonneg (snd st)).
      symmetry. apply (Z.mod_unique _ _ k); lia. }
    destruct (Z.gtb_spec (buf_length (snd st)) 0) as [Hpos | Hzero].
    + set (req := PUT url _ (fst st) (size - 1) size (snd st)).
      assert (Hranges : put_ranges (evs1 ++ [EvFetch req])
                        = put_ranges evs1 ++ [(end_offset 0 (put_ranges evs1), size - 1)]).
      { rewrite put_ranges_app, Hend1. reflexivity. }
      assert (Hall : exists evs,
                 log ++ evs1 ++ [EvFetch req] = log ++ evs
                 /\ Forall is_put evs
                 /\ follows 0 (put_ranges evs)
                 /\ (0 < C -> ascending_starts (put_ranges evs))
                 /\ (0 < stream_total (stream_chunks stream) ->
                     ends_at (stream_end size C (stream_total (stream_chunks stream)))
                       (put_ranges evs))).
      { exists (evs1 ++ [EvFetch req]). split; [reflexivity |].
        split; [apply Forall_app; split; [assumption | repeat constructor] |].
        rewrite Hranges.
        split; [apply follows_app; [assumption | cbn; auto] |].
        split.
        - intros HC. apply chained_snoc_ascending. apply follows_chained; auto.
        - intros Htotal. unfold stream_end. rewrite (Hrem Htotal).
          destruct (Z.eqb_spec (buf_length (snd st)) 0); [lia |].
          eexists. split; [apply last_range_snoc | reflexivity]. }
      destruct Hall as [evs [E [Hput [Hfol [Hasc Hends]]]]].
      unfold bind, fetch, call.
      destruct (world_fetch w (log ++ evs1) req) as [e | res];
        [| destruct (chunk_rejected res)]; cbn [fst snd]; rewrite <- app_assoc;
        exists evs; repeat (split; [assumption |]); auto.
    + exists evs1. cbn [fst snd].
      split; [reflexivity |]. split; [assumption |]. split; [assumption |].
      split; [assumption |].
      intros _ Htotal. pose proof (Hstuck' Htotal) as HC.
      destruct (Hsum1 HC) as [Hs _]. change (buf_length []) with 0 in Hs.
      pose proof (buf_length_nonneg (snd st)).
      unfold stream_end. rewrite (Hrem Htotal).
      destruct (Z.eqb_spec (buf_length (snd st)) 0); [| lia].
      apply (follows_ends_at _ 0); [assumption | lia |].
      intros E. rewrite E in Hend1. cbn in Hend1. lia.
  - exists evs1. split; [reflexivity |]. repeat (split; [assumption |]). discriminate.
  - exists evs1. split; [reflexivity |]. repeat (split; [assumption |]). discriminate.
Qed.

End AnyWorld.

(** With accepted chunks the read loop of a file returns. *)
Lemma uploadLargeFileByPath_loop_returns w url fileSize filePath :
  accepts_chunks w ->
  forall chunks offset log,
    fst (uploadLargeFileByPath_loop w url fileSize filePath chunks None offset log)
    = Returned tt.
Proof.
  intros Hw. induction chunks as [| chunk chunks IH]; intros offset log; [reflexivity |].
  cbn [uploadLargeFileByPath_loop]. rewrite bind_run, uploadLargeFileByPath_turn.
  destruct (Hw log url (buf_length chunk) offset (offset + buf_length chunk - 1)
              fileSize chunk) as [res [-> ->]].
  apply IH.
Qed.

(** With accepted chunks, a positive chunk size and enough fuel, the
    streaming transfer returns, whatever size was declared. *)
Lemma stream_upload_returns w url size C stream fuel log :
  accepts_chunks w ->
  0 < C ->
  stream_failure stream = None ->
  (Z.to_nat (stream_total (stream_chunks stream)) < fuel)%nat ->
  fst (stream_upload w fuel url size C stream log) = Returned tt.
Proof.
  intros Hw HC Hfail Hfuel. unfold stream_upload. rewrite Hfail.
  destruct (stream_read_run w Hw url size C HC fuel (stream_chunks stream) 0 [] log)
    as [evs [offset [pending [Hrun _]]]]; [cbn; assumption |].
  rewrite (bind_returned _ _ _ _ _ Hrun). cbn [fst snd].
  destruct (buf_length pending >? 0); [| reflexivity].
  destruct (fetch_put_accepted w Hw url (log ++ evs) (buf_length pending) offset
              (size - 1) size pending) as [res [Hput Hok]].
  rewrite (bind_returned _ _ _ _ _ Hput), Hok. reflexivity.
Qed.

(** ** Properties of the chunked transfers *)

(** C2. For a content of length [T > 0] and a chunk size [C > 0], when
    every chunk is accepted and the fuel exceeds [T], the [while] loop of
    [uploadLargeContent] returns after a sequence of calls that are all
    [PUT]s; the inclusive ends of their ranges increase strictly, a byte
    offset lies in some range exactly when it lies in [[0, T-1]], and the
    number of ranges is [ceil (T / C)]. *)
Theorem C2_chunk_ranges_cover_content w fuel url content C log :
  0 < buf_length content ->
  0 < C ->
  accepts_chunks w ->
  (Z.to_nat (buf_length content) < fuel)%nat ->
  exists evs,
    uploadLargeContent_loop w fuel url content C 0 log = (Returned tt, log ++ evs)
    /\ List.length (put_ranges evs) = List.length evs
    /\ StronglySorted Z.lt (map snd (put_ranges evs))
    /\ (forall x, (exists r, In r (put_ranges evs) /\ fst r <= x <= snd r)
                  <-> 0 <= x <= buf_length content - 1)
    /\ Z.of_nat (List.length (put_ranges evs)) = ceil_div (buf_length content) C.
Proof.
  intros HT HC Hw Hfuel.
  destruct (uploadLargeContent_loop_run w Hw url content C HC fuel 0 log)
    as [evs [Hrun [[_ [Hlen [Hch Hend]]] Hcount]]];
    [lia | rewrite Z.sub_0_r; assumption |].
  exists evs.
  split; [assumption |]. split; [assumption |].
  split; [eapply chained_sorted_ends; eassumption |].
  split; [| rewrite Hlen, Hcount, Z.sub_0_r; reflexivity].
  intros x. rewrite (chained_cover _ 0 x Hch), Hend. lia.
Qed.

Lemma C2_witness :
  0 < buf_length (Buffer_from_string "hello world")
  /\ 0 < 4
  /\ accepts_chunks test_world
  /\ (Z.to_nat (buf_length (Buffer_from_string "hello world")) < 12)%nat
  /\ exists evs,
       uploadLargeContent_loop test_world 12 "https://upload.example/session"
         (Buffer_from_string "hello world") 4 0 []
       = (Returned tt, [] ++ evs)
       /\ List.length (put_ranges evs) = List.length evs
       /\ StronglySorted Z.lt (map snd (put_ranges evs))
       /\ (forall x, (exists r, In r (put_ranges evs) /\ fst r <= x <= snd r)
                     <-> 0 <= x <= buf_length (Buffer_from_string "hello world") - 1)
       /\ Z.of_nat (List.length (put_ranges evs))
          = ceil_div (buf_length (Buffer_from_string "hello world")) 4.
Proof.
  split; [reflexivity |]. split; [reflexivity |].
  split; [exact test_world_accepts |]. split; [vm_compute; lia |].
  apply C2_chunk_ranges_cover_content;
    [reflexivity | reflexivity | exact test_world_accepts | vm_compute; lia].
Defined.

(** The ranges of that run, computed. *)
Example chunk_ranges_hello_world :
  put_ranges (snd (uploadLargeContent_loop test_world 12 "https://upload.example/session"
                     (Buffer_from_string "hello world") 4 0 []))
  = [(0, 3); (4, 7); (8, 10)].
Proof. reflexivity. Qed.

(** C4, amended. In each of the three chunked transfers (the loop of
    [uploadLargeContent] over a buffer of length [T], the read loop of
    [uploadLargeFileByPath] for a declared size [T], and the streaming
    branch of [uploadAttachmentFromUrl] for a declared size [T]),
    whatever the server answers, whatever the source delivers, whatever
    the chunk size and the fuel, and whether the transfer returns, throws
    or is still running: the first range sent starts at offset 0 and
    each of the others starts one byte after the end of the one before
    it. The starts increase strictly as soon as the chunk size is
    positive (for a file: as soon as the chunks read are not empty). When
    the transfer returns, every call was a [PUT], and the last range ends
    as follows: for a buffer, at [T - 1]; for a file, at the number of
    bytes read minus one, which is [T - 1] exactly when the stream has
    delivered [T] bytes; for a URL, at [T - 1] when the bytes read are
    not a multiple of the chunk size (the remainder is sent with the end
    [T - 1] whatever its length), and otherwise at the number of bytes
    read minus one, which again is [T - 1] exactly when the stream has
    delivered [T] bytes. And the transfer does return when every chunk is
    accepted, the source does not fail, the chunk size is positive and
    the fuel suffices. *)
Theorem C4_ranges_in_sequence_up_to_total w url T :
  (forall fuel content C log,
      buf_length content = T ->
      let run := uploadLargeContent_loop w fuel url content C 0 log in
      exists evs,
        snd run = log ++ evs
        /\ List.length (put_ranges evs) = List.length evs
        /\ contiguous_ranges (put_ranges evs)
        /\ (0 < C -> ascending_starts (put_ranges evs))
        /\ (fst run = Returned tt -> 0 < T -> ends_at T (put_ranges evs))
        /\ (accepts_chunks w -> 0 < C -> (Z.to_nat T < fuel)%nat ->
            fst run = Returned tt))
  /\ (forall filePath chunks failure log,
         let run := uploadLargeFileByPath_loop w url T filePath chunks failure 0 log in
         exists evs,
           snd run = log ++ evs
           /\ contiguous_ranges (put_ranges evs)
           /\ (Forall (fun chunk => 0 < buf_length chunk) chunks ->
               ascending_starts (put_ranges evs))
           /\ (fst run = Returned tt ->
               List.length (put_ranges evs) = List.length evs
               /\ (chunks <> [] -> ends_at (stream_total chunks) (put_ranges evs)))
           /\ (accepts_chunks w -> failure = None -> fst run = Returned tt))
  /\ (forall fuel C stream log,
         let run := stream_upload w fuel url T C stream log in
         let delivered := stream_total (stream_chunks stream) in
         exists evs,
           snd run = log ++ evs
           /\ List.length (put_ranges evs) = List.length evs
           /\ contiguous_ranges (put_ranges evs)
           /\ (0 < C -> ascending_starts (put_ranges evs))
           /\ (fst run = Returned tt -> 0 < delivered ->
               ends_at (stream_end T C delivered) (put_ranges evs))
           /\ (accepts_chunks w -> 0 < C -> stream_failure stream = None ->
               (Z.to_nat delivered < fuel)%nat ->
               fst run = Returned tt)).
Proof.
  split; [| split].
  - intros fuel content C log Hlen run. subst run.
    destruct (uploadLargeContent_loop_ranges w url content C fuel 0 log)
      as [evs [Hevs [Hput [Hfol [Hhold [_ Hend]]]]]].
    exists evs. split; [assumption |].
    split; [apply put_ranges_all_puts; assumption |].
    split; [apply follows_contiguous; assumption |].
    split; [intros HC; eapply chained_sorted_starts; apply follows_chained; eauto |].
    split.
    + intros Hret HT. rewrite <- Hlen in *.
      specialize (Hend Hret HT).
      apply (follows_ends_at _ 0); [assumption | assumption |].
      intros E. rewrite E in Hend. cbn in Hend. lia.
    + intros Hw HC Hfuel.
      destruct (uploadLargeContent_loop_run w Hw url content C HC fuel 0 log)
        as [evs' [Hrun _]]; [pose proof (buf_length_nonneg content); lia
                            | rewrite Z.sub_0_r, Hlen; assumption |].
      rewrite Hrun. reflexivity.
  - intros filePath chunks failure log run. subst run.
    destruct (uploadLargeFileByPath_loop_ranges w url T filePath failure chunks 0 log)
      as [evs [Hevs [Hfol [Hhold Hret]]]].
    exists evs. split; [assumption |].
    split; [apply follows_contiguous; assumption |].
    split; [intros Hc; eapply chained_sorted_starts; apply follows_chained; eauto |].
    split.
    + intros Hr. destruct (Hret Hr) as [Hput [Hlen Hend]].
      pose proof (put_ranges_all_puts _ Hput) as Hall.
      split; [exact Hall |].
      intros Hne. apply (follows_ends_at _ 0); [assumption | lia |].
      intros E. rewrite E in Hall. destruct chunks; [contradiction |].
      destruct evs; discriminate.
    + intros Hw ->. apply uploadLargeFileByPath_loop_returns. assumption.
  - intros fuel C stream log run delivered. subst run delivered.
    destruct (stream_upload_ranges w url T C fuel stream log)
      as [evs [Hevs [Hput [Hfol [Hasc Hend]]]]].
    exists evs. split; [assumption |].
    split; [apply put_ranges_all_puts; assumption |].
    split; [apply follows_contiguous; assumption |].
    split; [assumption |]. split; [assumption |].
    intros Hw HC Hfail Hfuel. apply stream_upload_returns; assumption.
Qed.

Lemma C4_witness :
  accepts_chunks test_world
  /\ 0 < 4
  /\ 0 < stream_total [Buffer_from_string "hello"; Buffer_from_string " world"]
  /\ (Z.to_nat (stream_total [Buffer_from_string "hello"; Buffer_from_string " world"])
      < 12)%nat
  /\ exists evs,
       stream_upload test_world 12 "https://upload.example/session" 11 4
         {| stream_chunks := [Buffer_from_string "hello"; Buffer_from_string " world"];
            stream_failure := None |} []
       = (Returned tt, [] ++ evs)
       /\ List.length (put_ranges evs) = List.length evs
       /\ contiguous_ranges (put_ranges evs)
       /\ ascending_starts (put_ranges evs)
       /\ ends_at 11 (put_ranges evs).
Proof.
  split; [exact test_world_accepts |]. split; [reflexivity |].
  split; [reflexivity |]. split; [vm_compute; lia |].
  destruct (C4_ranges_in_sequence_up_to_total test_world
              "https://upload.example/session" 11) as [_ [_ H]].
  destruct (H 12%nat 4
              {| stream_chunks := [Buffer_from_string "hello"; Buffer_from_string " world"];
                 stream_failure := None |} [])
    as [evs [Hevs [Hlen [Hcont [Hasc [Hend Hret]]]]]].
  exists evs.
  split; [rewrite <- Hevs; reflexivity |]. split; [exact Hlen |].
  split; [exact Hcont |]. split; [exact (Hasc eq_refl) |].
  exact (Hend eq_refl eq_refl).
Defined.

(** The ranges of that run, computed: the stream is cut in chunks of four
    bytes whatever the sizes of the reads. *)
Example stream_ranges_hello_world :
  put_ranges (snd (stream_upload test_world 12 "https://upload.example/session" 11 4
                     {| stream_chunks := [Buffer_from_string "hello";
                                          Buffer_from_string " world"];
                        stream_failure := None |} []))
  = [(0, 3); (4, 7); (8, 10)].
Proof. reflexivity. Qed.

(** A server announces 655360 bytes and delivers 327680: the streaming
    transfer returns normally after the session has been created for
    655360 bytes and one range has been sent, which ends at 327679 and not
    at 655359. And a client configured with a chunk size of 0 keeps it,
    and sends the range that starts at 0 and ends at -1 again and again,
    here for the three turns that the fuel allows: the starts do not
    increase. *)
Lemma C4_counterexample :
  accepts_chunks world_delivering_less
  /\ fst short_delivery_run = Returned tt
  /\ nth_error (snd short_delivery_run) 2
     = Some (EvGraphPost (createUploadSession_path test_client "MSG-1")
               (AttachmentItem "big.bin" 655360 (Mime "application/octet-stream")))
  /\ put_ranges (snd short_delivery_run) = [(0, 327679)]
  /\ ~ sequential_ranges 655360 (put_ranges (snd short_delivery_run))
  /\ ~ ends_at 655360 (put_ranges (snd short_delivery_run))
  /\ chunkSize (attachmentUploadOptions (new_MailClient options_with_chunk_size_zero)) = 0
  /\ fst stalled_run = OutOfFuel
  /\ put_ranges (snd stalled_run) = [(0, -1); (0, -1); (0, -1)]
  /\ ~ ascending_starts (put_ranges (snd stalled_run)).
Proof.
  assert (Hranges : put_ranges (snd short_delivery_run) = [(0, 327679)])
    by (vm_compute; reflexivity).
  assert (Hstalled : put_ranges (snd stalled_run) = [(0, -1); (0, -1); (0, -1)])
    by (vm_compute; reflexivity).
  split; [intros log url len s e total body; eexists; split; reflexivity |].
  split; [vm_compute; reflexivity |].
  split; [vm_compute; reflexivity |].
  split; [exact Hranges |].
  assert (Hnot : ~ ends_at 655360 (put_ranges (snd short_delivery_run))).
  { rewrite Hranges. intros [r [Hr Hend]].
    cbn in Hr. injection Hr as <-. cbn in Hend. discriminate. }
  split; [intros [_ [_ [_ H]]]; exact (Hnot H) |].
  split; [exact Hnot |].
  split; [reflexivity |].
  split; [vm_compute; reflexivity |].
  split; [exact Hstalled |].
  rewrite Hstalled. unfold ascending_starts. cbn. intros H.
  inversion H as [| ? ? _ Hall]; subst. inversion Hall as [| ? ? Hlt _]; subst. lia.
Qed.

(** ** The normalisation at zero *)

(** C3. The normalisation leaves a multiple of 320 KiB as it is, so the
    configuration value 0 is normalised to 0, which is not positive: the
    floor of one unit is applied to the values that are not multiples
    only. *)
Theorem C3_normalize_zero_is_zero :
  normalizeChunkSize 0 = 0
  /\ ~ 0 < normalizeChunkSize 0
  /\ chunkSize (attachmentUploadOptions
       (new_MailClient
          {| cred_sharedMailbox := "shared@example.com";
             cred_tenantId := "tenant";
             cred_clientId := "client";
             cred_clientSecret := "secret";
             cred_attachmentUploadOptions :=
               Some {| opt_largeFileThreshold := None; opt_chunkSize := Some 0 |};
             cred_logger := None |})) = 0.
Proof.
  split; [reflexivity |]. split; [| reflexivity].
  intros H. vm_compute in H. discriminate.
Qed.

(** ** Recipient parsing *)

(** The trimmed, non-empty entries of a list of pieces. *)
Lemma push_trimmed_app split : forall addresses,
  push_trimmed addresses split = addresses ++ filter truthy (map trim split).
Proof.
  unfold push_trimmed.
  induction split as [| s split IH]; intros addresses; cbn [fold_left map filter].
  - rewrite app_nil_r. reflexivity.
  - rewrite IH. destruct (truthy (trim s)).
    + rewrite <- app_assoc. reflexivity.
    + reflexivity.
Qed.

Lemma collect_addresses_flat_map parts :
  collect_addresses parts
  = flat_map (fun p => filter truthy (map trim (split_separators p))) parts.
Proof.
  unfold collect_addresses.
  enough (H : forall acc,
             fold_left (fun acc p => push_trimmed acc (split_separators p)) parts acc
             = acc ++ flat_map (fun p => filter truthy (map trim (split_separators p))) parts)
    by apply (H []).
  induction parts as [| p parts IH]; intros acc; cbn [fold_left flat_map].
  - rewrite app_nil_r. reflexivity.
  - rewrite IH, push_trimmed_app, <- app_assoc. reflexivity.
Qed.

(** Splitting on runs of separators and splitting on every separator
    differ by empty pieces only. *)
Lemma split_runs_split_each s :
  (exists p ps ps',
      split_runs false s = p :: ps /\ split_each s = p :: ps'
      /\ filter truthy (map trim ps) = filter truthy (map trim ps'))
  /\ filter truthy (map trim (split_runs true s))
     = filter truthy (map trim (split_each s)).
Proof.
  induction s as [| c r [[p [ps [ps' [H1 [H2 H3]]]]] H4]].
  - split; [exists EmptyString, [], []; repeat split |]; reflexivity.
  - cbn [split_runs split_each]. destruct (isSeparator c).
    + split.
      * exists EmptyString, (split_runs true r), (split_each r).
        repeat split. assumption.
      * rewrite H4. reflexivity.
    + rewrite H1, H2. split.
      * exists (String c p), ps, ps'. repeat split. assumption.
      * cbn [map filter]. rewrite H3. reflexivity.
Qed.

Lemma split_separators_entries s :
  filter truthy (map trim (split_separators s))
  = filter truthy (map trim (split_each s)).
Proof.
  destruct (split_runs_split_each s) as [[p [ps [ps' [H1 [H2 H3]]]]] _].
  unfold split_separators. rewrite H1, H2. cbn [map filter]. rewrite H3.
  reflexivity.
Qed.

Lemma filter_filter_and {A : Type} (f g h : A -> bool) l :
  (forall x, h x = f x && g x) ->
  filter f (filter g l) = filter h l.
Proof.
  intros H. induction l as [| x l IH]; [reflexivity |].
  cbn [filter]. rewrite H. destruct (g x); cbn [filter].
  - destruct (f x); cbn; rewrite IH; reflexivity.
  - rewrite andb_false_r. assumption.
Qed.

Lemma existsb_app_single (x y : string) set :
  existsb (String.eqb y) (set ++ [x]) = existsb (String.eqb y) set || String.eqb y x.
Proof. rewrite existsb_app. cbn. rewrite orb_false_r. reflexivity. Qed.

(** The insertion order of a [Set] is the order of first occurrences. *)
Lemma Set_add_all l : forall set,
  fold_left Set_add l set
  = set ++ filter (fun y => negb (existsb (String.eqb y) set)) (first_occurrences l).
Proof.
  induction l as [| x l IH]; intros set; cbn [fold_left first_occurrences filter].
  - rewrite app_nil_r. reflexivity.
  - rewrite IH. unfold Set_add. destruct (existsb (String.eqb x) set) eqn:Hx; cbn [negb].
    + f_equal. symmetry. apply filter_filter_and. intros y.
      destruct (String.eqb_spec y x) as [-> | Hne]; cbn [negb].
      * rewrite Hx. reflexivity.
      * rewrite andb_true_r. reflexivity.
    + rewrite <- app_assoc. cbn [app]. f_equal. f_equal.
      symmetry. erewrite (filter_filter_and _ _ (fun y => negb (existsb (String.eqb y) (set ++ [x])))).
      * reflexivity.
      * intros y. rewrite existsb_app_single. rewrite negb_orb. reflexivity.
Qed.

Lemma Array_from_Set_first_occurrences l :
  Array_from_Set l = first_occurrences l.
Proof.
  unfold Array_from_Set. rewrite Set_add_all. cbn [app existsb negb].
  induction (first_occurrences l) as [| y r IH]; [reflexivity |].
  cbn [filter]. rewrite IH. reflexivity.
Qed.

Lemma first_occurrences_In l : forall x, In x (first_occurrences l) <-> In x l.
Proof.
  induction l as [| y l IH]; intros x; [reflexivity |].
  cbn [first_occurrences In]. rewrite filter_In, IH.
  destruct (String.eqb_spec x y) as [-> | Hne]; cbn [negb].
  - split; [intros [H | [_ H]]; [auto | discriminate] | auto].
  - split; [intros [H | [H _]]; auto | intros [H | H]; auto].
Qed.

Lemma first_occurrences_NoDup l : NoDup (first_occurrences l).
Proof.
  induction l as [| y l IH]; [constructor |].
  cbn [first_occurrences]. constructor.
  - rewrite filter_In. intros [_ H]. rewrite String.eqb_refl in H. discriminate.
  - apply NoDup_filter. assumption.
Qed.

Lemma map_recipient_nil l : map recipient_of l = [] -> l = [].
Proof. destruct l; [reflexivity | discriminate]. Qed.

Lemma buildRecipients_string s :
  buildRecipients (OneString s)
  = match parse_recipients s with
    | [] => None
    | l => Some (map recipient_of l)
    end.
Proof.
  unfold buildRecipients, falsy_input, parse_recipients.
  destruct s as [| c r]; [reflexivity |].
  cbn [truthy negb]. rewrite Array_from_Set_first_occurrences.
  rewrite collect_addresses_flat_map. cbn [flat_map]. rewrite app_nil_r.
  rewrite split_separators_entries.
  destruct (first_occurrences _); reflexivity.
Qed.

(** C8. On a string, [buildRecipients] returns the recipients that the
    specification describes: split on semicolons and commas, trim, drop
    the empty entries, deduplicate keeping the first occurrences in order
    ([undefined] when nothing is left); and on the input of the test suite
    it returns [a@ex.com] then [b@ex.com]. *)
Theorem C8_recipients_split_trim_dedup :
  (forall s,
      buildRecipients (OneString s)
      = match parse_recipients s with
        | [] => None
        | l => Some (map recipient_of l)
        end)
  /\ buildRecipients (OneString "a@ex.com; b@ex.com, a@ex.com")
     = Some [recipient_of "a@ex.com"; recipient_of "b@ex.com"].
Proof.
  split; [exact buildRecipients_string | reflexivity].
Qed.

(** ** Sending without recipients *)

(** A string yields no recipient exactly when nothing is left of it after
    splitting, trimming and dropping the empty entries. *)
Lemma no_recipients_string s :
  no_recipients (buildRecipients (OneString s)) = true <-> parse_recipients s = [].
Proof.
  rewrite buildRecipients_string.
  destruct (parse_recipients s) as [| a l]; cbn; split; congruence.
Qed.

(** C7, amended. When the [to] value of a mail yields no recipient,
    [sendMail] fails without any call to the Graph client. With the
    default logger, or with a configured logger function that returns, the
    only call is one call of that hook, which receives the no-recipients
    error, and the caller gets that same error. With a configured logger
    function that throws, the hook has been called once with the
    no-recipients error just the same, but the caller gets what the hook
    threw. With a configured [error] that is no function, no hook is
    called and the caller gets a [TypeError]. *)
Theorem C7_no_recipients_logged_once_and_rethrown w c fuel mail log :
  no_recipients (buildRecipients (to mail)) = true ->
  let logged :=
    log ++ [EvLoggerError (logger c) "Failed to send mail" Error_no_recipients] in
  match logger c with
  | ConsoleError => sendMail w c fuel mail log = (Thrown Error_no_recipients, logged)
  | CustomError hook =>
    match logger_hook w log hook "Failed to send mail" Error_no_recipients with
    | inr _ => sendMail w c fuel mail log = (Thrown Error_no_recipients, logged)
    | inl thrown => sendMail w c fuel mail log = (Thrown thrown, logged)
    end
  | NotAFunction => sendMail w c fuel mail log = (Thrown Error_not_a_function, log)
  end.
Proof.
  intros H logged. subst logged.
  unfold sendMail, try_catch, sendMail_try, logger_error_call. rewrite H.
  destruct (logger c) as [| hook |]; [reflexivity | | reflexivity].
  unfold bind, call, throw.
  destruct (logger_hook w log hook "Failed to send mail" Error_no_recipients);
    reflexivity.
Qed.

Lemma C7_witness :
  no_recipients (buildRecipients (to (test_mail EmptyString None))) = true
  /\ sendMail test_world test_client 0 (test_mail EmptyString None) []
     = (Thrown Error_no_recipients,
        [] ++ [EvLoggerError (logger test_client) "Failed to send mail" Error_no_recipients]).
Proof.
  split; [reflexivity |].
  exact (C7_no_recipients_logged_once_and_rethrown test_world test_client 0
           (test_mail EmptyString None) [] eq_refl).
Defined.

(** The logger of the client is a configured function, and it throws:
    the mail has no recipient, the hook is called once with the
    no-recipients error, and the caller gets the error of the hook, not
    the no-recipients error. *)
Lemma C7_counterexample :
  no_recipients (buildRecipients (to (test_mail EmptyString None))) = true
  /\ failing_logger_run
     = (Thrown (Error "logger failed"),
        [EvLoggerError (CustomError 0) "Failed to send mail" Error_no_recipients])
  /\ fst failing_logger_run <> Thrown Error_no_recipients.
Proof.
  split; [reflexivity |]. split; [reflexivity |].
  cbn. discriminate.
Qed.

(** ** Retrieval without an id *)

(** C10. With an empty id, [getMailById] throws [id is required] and
    makes no call at all: the log is left as it was. *)
Theorem C10_empty_id_rejected_before_any_call w c id options log :
  truthy id = false ->
  getMailById w c id options log = (Thrown (Error "id is required"), log).
Proof.
  intros H. unfold getMailById. rewrite H. reflexivity.
Qed.

Lemma C10_witness :
  truthy EmptyString = false
  /\ getMailById test_world test_client EmptyString
       {| select := None; includeAttachments := Some true; idType := None |} []
     = (Thrown (Error "id is required"), []).
Proof.
  split; [reflexivity |].
  apply C10_empty_id_rejected_before_any_call. reflexivity.
Defined.

(** ** The body of the attachment loop *)

Lemma truthy_string_some o s : truthy_string o = Some s -> truthy_opt o = true.
Proof.
  destruct o as [x |]; [| discriminate]. cbn.
  destruct (truthy x); [reflexivity | discriminate].
Qed.

Lemma uploadAttachment_buffer w c fuel messageId a buf :
  buffer_attachment a buf ->
  uploadAttachment w c fuel messageId a
  = upload_content w c fuel messageId (resolve_fileName w a)
      (getContentTypeFromFileName (resolve_fileName w a)) (ContentBuffer buf).
Proof.
  unfold buffer_attachment. intros H. unfold uploadAttachment. rewrite H.
  reflexivity.
Qed.

(** The loop body on a local-path attachment. *)
Lemma uploadAttachment_path w c fuel messageId a p :
  path_attachment a p ->
  uploadAttachment w c fuel messageId a
  = upload_path w c messageId (resolve_fileName w a)
      (getContentTypeFromFileName (resolve_fileName w a)) p.
Proof.
  intros [Hc Hp]. unfold uploadAttachment.
  rewrite (truthy_string_some _ _ Hp). cbn [negb andb].
  rewrite andb_false_r. cbn [andb]. rewrite Hc, Hp. reflexivity.
Qed.

(** The loop body on a URL attachment. *)
Lemma uploadAttachment_url w c fuel messageId a h :
  url_attachment a h ->
  uploadAttachment w c fuel messageId a
  = uploadAttachmentFromUrl w c fuel messageId (resolve_fileName w a) h
      (getContentTypeFromFileName (resolve_fileName w a)).
Proof.
  intros [Hc [Hp Hh]]. unfold uploadAttachment.
  rewrite (truthy_string_some _ _ Hh). cbn [negb andb].
  rewrite andb_false_r. rewrite Hc, Hp, Hh. reflexivity.
Qed.

(** An attachment that returns normally leaves the loop to the rest. *)
Lemma uploadAttachments_loop_skip w c fuel messageId a rest log log' :
  uploadAttachment w c fuel messageId a log = (Returned tt, log') ->
  uploadAttachments_loop w c fuel messageId (a :: rest) log
  = uploadAttachments_loop w c fuel messageId rest log'.
Proof.
  intros H. cbn [uploadAttachments_loop].
  rewrite (bind_returned _ _ _ _ _ H). reflexivity.
Qed.

(** ** Buffer attachments *)

Lemma upload_content_too_large w c fuel messageId fileName contentType data log :
  MAX_ATTACHMENT_SIZE < buf_length (to_Buffer data) ->
  upload_content w c fuel messageId fileName contentType data log
  = (Thrown Error_too_large, log).
Proof.
  intros H. unfold upload_content.
  apply Z.gtb_lt in H. rewrite H. reflexivity.
Qed.

Lemma attach_inline_log w c messageId fileName buf contentType log :
  exists out,
    attach_inline w c messageId fileName buf contentType log
    = (out, log ++ [EvGraphPost (attachments_path c messageId)
                      (FileAttachment fileName (toBase64 buf) contentType)]).
Proof.
  unfold attach_inline, bind, post, call.
  destruct (graph_post w log _ _); eexists; reflexivity.
Qed.

(** C1, amended. For a buffer attachment of length [L]: if [L] is at most
    the threshold and at most the ceiling of 150 MiB, exactly one call is
    made, the inline attach whose content is the base64 encoding of the
    buffer; if [L] exceeds the threshold and is at most the ceiling, the
    first call creates an upload session of declared size [L] and every
    other call is a [PUT]; if [L] exceeds the ceiling, the too-large error
    is thrown and no call is made. *)
Theorem C1_buffer_attachment_by_size w c fuel messageId a buf log :
  buffer_attachment a buf ->
  let L := buf_length buf in
  let threshold := largeFileThreshold (attachmentUploadOptions c) in
  let fileName := resolve_fileName w a in
  let contentType := getContentTypeFromFileName fileName in
  (L <= threshold -> L <= MAX_ATTACHMENT_SIZE ->
   exists out,
     uploadAttachment w c fuel messageId a log
     = (out, log ++ [EvGraphPost (attachments_path c messageId)
                       (FileAttachment fileName (toBase64 buf) contentType)]))
  /\ (threshold < L -> L <= MAX_ATTACHMENT_SIZE ->
      exists out evs,
        uploadAttachment w c fuel messageId a log
        = (out, log ++ EvGraphPost (createUploadSession_path c messageId)
                         (AttachmentItem fileName L contentType) :: evs)
        /\ Forall is_put evs)
  /\ (MAX_ATTACHMENT_SIZE < L ->
      uploadAttachment w c fuel messageId a log = (Thrown Error_too_large, log)).
Proof.
  intros Ha L threshold fileName contentType.
  rewrite (uploadAttachment_buffer _ _ _ _ _ _ Ha).
  split; [| split].
  - intros Hsmall Hmax. unfold upload_content. cbn [to_Buffer]. fold L threshold.
    destruct (Z.gtb_spec L MAX_ATTACHMENT_SIZE) as [Hgt | _]; [lia |].
    destruct (Z.leb_spec L threshold) as [_ | Hgt]; [| lia].
    apply attach_inline_log.
  - intros Hlarge Hmax. unfold upload_content. cbn [to_Buffer]. fold L threshold.
    destruct (Z.gtb_spec L MAX_ATTACHMENT_SIZE) as [Hgt | _]; [lia |].
    destruct (Z.leb_spec L threshold) as [Hle | _]; [lia |].
    apply uploadLargeContent_log. assumption.
  - intros Hmax. apply upload_content_too_large. assumption.
Qed.

Lemma C1_witness :
  buffer_attachment (attachment_of_buffer "note.txt" (Buffer_from_string "hello"))
    (Buffer_from_string "hello")
  /\ buf_length (Buffer_from_string "hello")
     <= largeFileThreshold (attachmentUploadOptions test_client)
  /\ buf_length (Buffer_from_string "hello") <= MAX_ATTACHMENT_SIZE
  /\ exists out,
       uploadAttachment test_world test_client 0 "MSG-1"
         (attachment_of_buffer "note.txt" (Buffer_from_string "hello")) []
       = (out, [] ++ [EvGraphPost (attachments_path test_client "MSG-1")
                        (FileAttachment "note.txt" "aGVsbG8=" (Mime "text/plain"))]).
Proof.
  split; [reflexivity |].
  split; [vm_compute; discriminate |]. split; [vm_compute; discriminate |].
  apply (C1_buffer_attachment_by_size test_world test_client 0 "MSG-1"
           (attachment_of_buffer "note.txt" (Buffer_from_string "hello"))
           (Buffer_from_string "hello") [] eq_refl);
    vm_compute; discriminate.
Defined.

(** With a threshold of 200 MiB, a buffer of 150 MiB and one byte is at
    most the threshold, and yet no inline-attach call is made: the
    operation fails without any call. *)
Lemma C1_counterexample :
  buf_length oversized_buffer <= largeFileThreshold (attachmentUploadOptions roomy_client)
  /\ uploadAttachment test_world roomy_client 0 "MSG-1"
       (attachment_of_buffer "big.bin" oversized_buffer) []
     = (Thrown Error_too_large, [])
  /\ ~ exists out,
         uploadAttachment test_world roomy_client 0 "MSG-1"
           (attachment_of_buffer "big.bin" oversized_buffer) []
         = (out, [] ++ [EvGraphPost (attachments_path roomy_client "MSG-1")
                          (FileAttachment "big.bin" (toBase64 oversized_buffer)
                             (Mime "application/octet-stream"))]).
Proof.
  assert (Hlen : buf_length oversized_buffer = MAX_ATTACHMENT_SIZE + 1).
  { unfold oversized_buffer. rewrite buf_length_repeat. apply Z2Nat.id.
    unfold MAX_ATTACHMENT_SIZE. lia. }
  assert (Hrun : uploadAttachment test_world roomy_client 0 "MSG-1"
                   (attachment_of_buffer "big.bin" oversized_buffer) []
                 = (Thrown Error_too_large, [])).
  { rewrite (uploadAttachment_buffer test_world roomy_client 0 "MSG-1"
               (attachment_of_buffer "big.bin" oversized_buffer) oversized_buffer eq_refl).
    apply upload_content_too_large. cbn [to_Buffer]. rewrite Hlen. lia. }
  split; [| split].
  - rewrite Hlen. change (largeFileThreshold (attachmentUploadOptions roomy_client))
      with (200 * 1024 * 1024). unfold MAX_ATTACHMENT_SIZE. lia.
  - exact Hrun.
  - intros [out H]. rewrite Hrun in H. discriminate.
Qed.

(** ** The probe of a URL attachment *)

Lemma probe_size_run w href log :
  probe_size w href log
  = (Returned (probed_size w log href), log ++ [EvFetch (HEAD href)]).
Proof.
  unfold probe_size, probed_size, try_catch, bind, fetch, call.
  destruct (world_fetch w log (HEAD href)) as [e | head]; reflexivity.
Qed.

(** C5. For an http or https URL whose [HEAD] probe answers [ok] with a
    content-length that reads as a number above 150 MiB,
    [uploadAttachmentFromUrl] throws the too-large error and the probe is
    the only call made: no [GET] is issued. *)
Theorem C5_probe_above_ceiling_fails_before_download
    w c fuel messageId fileName href contentType log head cl n :
  is_http_url href = true ->
  world_fetch w log (HEAD href) = inr head ->
  res_ok head = true ->
  res_contentLength head = Some cl ->
  truthy cl = true ->
  js_Number w cl = Some n ->
  MAX_ATTACHMENT_SIZE < n ->
  uploadAttachmentFromUrl w c fuel messageId fileName href contentType log
  = (Thrown Error_too_large, log ++ [EvFetch (HEAD href)]).
Proof.
  intros Hurl Hhead Hok Hcl Htruthy Hnum Hn.
  unfold uploadAttachmentFromUrl. rewrite Hurl. cbn [negb].
  rewrite (bind_returned _ _ _ _ _ (probe_size_run w href log)).
  unfold probed_size. rewrite Hhead, Hok. unfold parse_length.
  rewrite Hcl, Htruthy, Hnum.
  assert (Hge : (n >=? 0) = true) by (apply Z.geb_le; unfold MAX_ATTACHMENT_SIZE in Hn; lia).
  rewrite Hge. unfold known_above.
  assert (Hgt : (n >? MAX_ATTACHMENT_SIZE) = true) by (apply Z.gtb_lt; assumption).
  rewrite Hgt. reflexivity.
Qed.

Lemma C5_witness :
  is_http_url "http://example.com/big.bin" = true
  /\ uploadAttachmentFromUrl world_announcing_too_much test_client 0 "MSG-1" "big.bin"
       "http://example.com/big.bin" (Mime "application/octet-stream") []
     = (Thrown Error_too_large, [] ++ [EvFetch (HEAD "http://example.com/big.bin")]).
Proof.
  split; [reflexivity |].
  apply (C5_probe_above_ceiling_fails_before_download world_announcing_too_much
           test_client 0 "MSG-1" "big.bin" "http://example.com/big.bin"
           (Mime "application/octet-stream") []
           {| res_ok := true; res_status := 200;
              res_contentLength := Some "157286401";
              res_arrayBuffer := []; res_body := None |}
           "157286401" 157286401);
    reflexivity.
Defined.

(** ** Skipped attachments *)

Lemma try_stat_run w p log :
  try_stat w p log
  = (Returned match fs_stat w log p with
              | inl _ => None
              | inr stats => Some stats
              end, log ++ [EvStat p]).
Proof.
  unfold try_stat, try_catch, bind, call.
  destruct (fs_stat w log p); reflexivity.
Qed.

Lemma upload_path_unavailable w c messageId fileName contentType p log :
  unavailable_path w log p ->
  upload_path w c messageId fileName contentType p log
  = (Returned tt, log ++ [EvStat p]).
Proof.
  unfold unavailable_path, upload_path. intros H.
  rewrite (bind_returned _ _ _ _ _ (try_stat_run w p log)).
  destruct (fs_stat w log p) as [e | stats]; [reflexivity |].
  destruct H as [H | H]; rewrite H; cbn [negb orb]; [reflexivity |].
  rewrite orb_true_r. reflexivity.
Qed.

Lemma uploadAttachmentFromUrl_other_scheme w c fuel messageId fileName h contentType log :
  is_http_url h = false ->
  uploadAttachmentFromUrl w c fuel messageId fileName h contentType log
  = (Returned tt, log).
Proof.
  intros H. unfold uploadAttachmentFromUrl. rewrite H. reflexivity.
Qed.

Lemma uploadAttachment_unavailable w c fuel messageId a log evs :
  unavailable_source w log a evs ->
  uploadAttachment w c fuel messageId a log = (Returned tt, log ++ evs).
Proof.
  intros [[p [Ha [Hp ->]]] | [h [Ha [Hh ->]]]].
  - rewrite (uploadAttachment_path _ _ _ _ _ _ Ha).
    apply upload_path_unavailable. assumption.
  - rewrite (uploadAttachment_url _ _ _ _ _ _ Ha), app_nil_r.
    apply uploadAttachmentFromUrl_other_scheme. assumption.
Qed.

Lemma never_available_now w a log :
  never_available w a -> exists evs, unavailable_source w log a evs /\ Forall is_stat evs.
Proof.
  intros [[p [Ha Hp]] | [h [Ha Hh]]].
  - exists [EvStat p]. split.
    + left. exists p. auto.
    + constructor; [exact I | constructor].
  - exists []. split; [| constructor]. right. exists h. auto.
Qed.

(** A list of attachments none of which is available is walked through
    with no other call than [fs.stat]. *)
Lemma uploadAttachments_loop_none_available w c fuel messageId l :
  Forall (never_available w) l ->
  forall log, exists evs,
    uploadAttachments_loop w c fuel messageId l log = (Returned tt, log ++ evs)
    /\ Forall is_stat evs.
Proof.
  induction 1 as [| a l Ha _ IH]; intros log.
  - exists []. rewrite app_nil_r. split; [reflexivity | constructor].
  - destruct (never_available_now w a log Ha) as [evs [Hevs Hstat]].
    rewrite (uploadAttachments_loop_skip _ _ _ _ _ _ _ _
               (uploadAttachment_unavailable w c fuel messageId a log evs Hevs)).
    destruct (IH (log ++ evs)) as [evs' [Hrun Hstat']].
    exists (evs ++ evs'). rewrite Hrun, app_assoc. split; [reflexivity |].
    apply Forall_app. auto.
Qed.

Lemma uploadAttachments_none_available w c fuel messageId l :
  Forall (never_available w) l ->
  forall log, exists evs,
    uploadAttachments w c fuel messageId (Some l) log = (Returned tt, log ++ evs)
    /\ Forall is_stat evs.
Proof.
  intros Hl log. unfold uploadAttachments.
  destruct (Z.of_nat (List.length l) =? 0).
  - exists []. rewrite app_nil_r. split; [reflexivity | constructor].
  - apply uploadAttachments_loop_none_available. assumption.
Qed.

(** C6. An attachment whose source is unavailable (a local path that
    cannot be stat'ed, is not a regular file or has size zero, or a URL
    whose scheme is neither http nor https) makes the loop body return
    normally with no other call than the [fs.stat] of a path, and the loop
    goes on with the rest of the attachments from there.  And a mail with
    recipients all of whose attachments are unavailable is sent as soon as
    the Graph client resolves its calls: [sendMail] returns the
    identifiers of the draft, after the draft call, [fs.stat] calls and the
    send call. *)
Theorem C6_unavailable_sources_are_skipped w c fuel :
  (forall messageId a rest log evs,
      unavailable_source w log a evs ->
      uploadAttachment w c fuel messageId a log = (Returned tt, log ++ evs)
      /\ uploadAttachments_loop w c fuel messageId (a :: rest) log
         = uploadAttachments_loop w c fuel messageId rest (log ++ evs))
  /\ (forall mail l log,
         no_recipients (buildRecipients (to mail)) = false ->
         attachments mail = Some l ->
         Forall (never_available w) l ->
         graph_resolves w ->
         exists draft body evs,
           sendMail w c fuel mail log
           = (Returned {| sent_id := resp_id draft;
                          sent_internetMessageId := resp_internetMessageId draft |},
              log ++ [EvGraphPost ("/users/" ++ sharedMailbox c ++ "/messages") body]
                  ++ evs
                  ++ [EvGraphPost ("/users/" ++ sharedMailbox c ++ "/messages/"
                                     ++ resp_id draft ++ "/send") EmptyBody])
           /\ Forall is_stat evs).
Proof.
  split.
  - intros messageId a rest log evs H.
    pose proof (uploadAttachment_unavailable w c fuel messageId a log evs H) as Hrun.
    split; [assumption |]. apply uploadAttachments_loop_skip. assumption.
  - intros mail l log Hto Hatt Hl Hw.
    unfold sendMail, try_catch, sendMail_try. rewrite Hto, Hatt.
    set (body := DraftMessage _ _ _ _ _).
    set (p := ("/users/" ++ sharedMailbox c ++ "/messages")%string).
    destruct (post_resolves w p body log Hw) as [draft Hdraft].
    rewrite (bind_returned _ _ _ _ _ Hdraft).
    destruct (uploadAttachments_none_available w c fuel (resp_id draft) l Hl
                (log ++ [EvGraphPost p body])) as [evs [Hevs Hstat]].
    rewrite (bind_returned _ _ _ _ _ Hevs).
    set (ps := ("/users/" ++ sharedMailbox c ++ "/messages/" ++ resp_id draft ++ "/send")%string).
    destruct (post_resolves w ps EmptyBody ((log ++ [EvGraphPost p body]) ++ evs) Hw)
      as [sent Hsent].
    rewrite (bind_returned _ _ _ _ _ Hsent). unfold ret.
    exists draft, body, evs. split; [| assumption].
    rewrite <- !app_assoc. reflexivity.
Qed.

Lemma world_without_files_resolves : graph_resolves world_without_files.
Proof. intros log p body. eexists. reflexivity. Qed.

Lemma C6_witness :
  unavailable_source world_without_files []
    (attachment_of_path "sample.txt" "/tmp/missing/sample.txt")
    [EvStat "/tmp/missing/sample.txt"]
  /\ uploadAttachment world_without_files test_client 0 "MSG-1"
       (attachment_of_path "sample.txt" "/tmp/missing/sample.txt") []
     = (Returned tt, [] ++ [EvStat "/tmp/missing/sample.txt"])
  /\ Forall (never_available world_without_files)
       [attachment_of_path "sample.txt" "/tmp/missing/sample.txt";
        attachment_of_href "bytes.bin" "ftp://example.com/bytes.bin"]
  /\ exists draft body evs,
       sendMail world_without_files test_client 0
         (test_mail "x@ex.com"
            (Some [attachment_of_path "sample.txt" "/tmp/missing/sample.txt";
                   attachment_of_href "bytes.bin" "ftp://example.com/bytes.bin"])) []
       = (Returned {| sent_id := resp_id draft;
                      sent_internetMessageId := resp_internetMessageId draft |},
          [] ++ [EvGraphPost ("/users/" ++ sharedMailbox test_client ++ "/messages") body]
             ++ evs
             ++ [EvGraphPost ("/users/" ++ sharedMailbox test_client ++ "/messages/"
                                ++ resp_id draft ++ "/send") EmptyBody])
       /\ Forall is_stat evs.
Proof.
  assert (H1 : unavailable_source world_without_files []
                 (attachment_of_path "sample.txt" "/tmp/missing/sample.txt")
                 [EvStat "/tmp/missing/sample.txt"]).
  { left. exists "/tmp/missing/sample.txt". repeat split. }
  assert (H2 : Forall (never_available world_without_files)
                 [attachment_of_path "sample.txt" "/tmp/missing/sample.txt";
                  attachment_of_href "bytes.bin" "ftp://example.com/bytes.bin"]).
  { constructor; [| constructor; [| constructor]].
    - left. exists "/tmp/missing/sample.txt". repeat split.
    - right. exists "ftp://example.com/bytes.bin". repeat split. }
  destruct (C6_unavailable_sources_are_skipped world_without_files test_client 0)
    as [Hskip Hsend].
  split; [exact H1 |].
  split; [exact (proj1 (Hskip "MSG-1" _ [] [] _ H1)) |].
  split; [exact H2 |].
  exact (Hsend
           (test_mail "x@ex.com"
              (Some [attachment_of_path "sample.txt" "/tmp/missing/sample.txt";
                     attachment_of_href "bytes.bin" "ftp://example.com/bytes.bin"]))
           [attachment_of_path "sample.txt" "/tmp/missing/sample.txt";
            attachment_of_href "bytes.bin" "ftp://example.com/bytes.bin"]
           [] eq_refl eq_refl H2 world_without_files_resolves).
Defined.

(** ** Refused downloads *)

Lemma uploadAttachmentFromUrl_download_refused
    w c fuel messageId fileName href contentType log res :
  is_http_url href = true ->
  known_above (probed_size w log href) MAX_ATTACHMENT_SIZE = false ->
  world_fetch w (log ++ [EvFetch (HEAD href)]) (GET href) = inr res ->
  res_ok res = false
  \/ (known_at_most (probed_size w log href)
        (largeFileThreshold (attachmentUploadOptions c)) = false
      /\ res_body res = None) ->
  uploadAttachmentFromUrl w c fuel messageId fileName href contentType log
  = (Returned tt, log ++ [EvFetch (HEAD href); EvFetch (GET href)]).
Proof.
  intros Hurl Hmax Hget Hres.
  unfold uploadAttachmentFromUrl. rewrite Hurl. cbn [negb].
  rewrite (bind_returned _ _ _ _ _ (probe_size_run w href log)).
  rewrite Hmax.
  replace (log ++ [EvFetch (HEAD href); EvFetch (GET href)])
    with ((log ++ [EvFetch (HEAD href)]) ++ [EvFetch (GET href)])
    by (rewrite <- app_assoc; reflexivity).
  destruct (known_at_most (probed_size w log href)
              (largeFileThreshold (attachmentUploadOptions c))) eqn:Hsmall.
  - rewrite (bind_returned _ _ _ _ _ (fetch_resolves _ _ _ _ Hget)).
    destruct Hres as [Hok | [Habs _]]; [| discriminate].
    rewrite Hok. reflexivity.
  - rewrite (bind_returned _ _ _ _ _ (fetch_resolves _ _ _ _ Hget)).
    destruct Hres as [Hok | [_ Hbody]].
    + rewrite Hok. reflexivity.
    + rewrite Hbody. destruct (res_ok res); reflexivity.
Qed.

(** C9. For an http or https URL attachment whose probed size does not
    exceed the ceiling, if the [GET] answers not [ok], or answers without a
    body when the probe has not established a size of at most the
    threshold, then the loop body returns normally after the [HEAD] and
    the [GET], with no other call, and the loop goes on with the rest of
    the attachments. *)
Theorem C9_refused_download_is_skipped
    w c fuel messageId a href rest log res :
  url_attachment a href ->
  is_http_url href = true ->
  known_above (probed_size w log href) MAX_ATTACHMENT_SIZE = false ->
  world_fetch w (log ++ [EvFetch (HEAD href)]) (GET href) = inr res ->
  res_ok res = false
  \/ (known_at_most (probed_size w log href)
        (largeFileThreshold (attachmentUploadOptions c)) = false
      /\ res_body res = None) ->
  uploadAttachment w c fuel messageId a log
  = (Returned tt, log ++ [EvFetch (HEAD href); EvFetch (GET href)])
  /\ uploadAttachments_loop w c fuel messageId (a :: rest) log
     = uploadAttachments_loop w c fuel messageId rest
         (log ++ [EvFetch (HEAD href); EvFetch (GET href)]).
Proof.
  intros Ha Hurl Hmax Hget Hres.
  assert (Hrun : uploadAttachment w c fuel messageId a log
                 = (Returned tt, log ++ [EvFetch (HEAD href); EvFetch (GET href)])).
  { rewrite (uploadAttachment_url _ _ _ _ _ _ Ha).
    eapply uploadAttachmentFromUrl_download_refused; eassumption. }
  split; [assumption |]. apply uploadAttachments_loop_skip. assumption.
Qed.

Lemma C9_witness :
  url_attachment (attachment_of_href "bytes.bin" "https://example.com/bytes.bin")
    "https://example.com/bytes.bin"
  /\ uploadAttachment world_not_found test_client 0 "MSG-1"
       (attachment_of_href "bytes.bin" "https://example.com/bytes.bin") []
     = (Returned tt,
        [] ++ [EvFetch (HEAD "https://example.com/bytes.bin");
               EvFetch (GET "https://example.com/bytes.bin")]).
Proof.
  split; [repeat split |].
  refine (proj1 (C9_refused_download_is_skipped world_not_found test_client 0 "MSG-1"
                   (attachment_of_href "bytes.bin" "https://example.com/bytes.bin")
                   "https://example.com/bytes.bin" [] []
                   {| res_ok := false; res_status := 404;
                      res_contentLength := None;
                      res_arrayBuffer := []; res_body := None |}
                   _ eq_refl eq_refl eq_refl (or_introl eq_refl))).
  repeat split.
Defined.

(** ** The test suite of the repository, replayed *)

Example test_sendMail_text_body :
  sendMail test_world test_client 0 (test_mail "a@ex.com; b@ex.com, a@ex.com" None) []
  = (Returned {| sent_id := "MSG-1";
                 sent_internetMessageId := "<IM-MSG-1@exch.example.com>" |},
     [EvGraphPost "/users/shared@example.com/messages"
        (DraftMessage "Subject"
           (Some [recipient_of "a@ex.com"; recipient_of "b@ex.com"]) None None
           (Some ("text", "Hello")));
      EvGraphPost "/users/shared@example.com/messages/MSG-1/send" EmptyBody]).
Proof. reflexivity. Qed.

Example test_sendMail_html_body :
  sendMail test_world test_client 0
    {| subject := "Hi"; to := OneString "x@ex.com"; cc := NoInput; bcc := NoInput;
       text := None; html := Some "<b>hi</b>"; attachments := None |} []
  = (Returned {| sent_id := "MSG-1";
                 sent_internetMessageId := "<IM-MSG-1@exch.example.com>" |},
     [EvGraphPost "/users/shared@example.com/messages"
        (DraftMessage "Hi" (Some [recipient_of "x@ex.com"]) None None
           (Some ("html", "<b>hi</b>")));
      EvGraphPost "/users/shared@example.com/messages/MSG-1/send" EmptyBody]).
Proof. reflexivity. Qed.

Example test_small_buffer_attachment :
  snd (sendMail test_world test_client 0
         (test_mail "x@ex.com"
            (Some [attachment_of_buffer "note.txt" (Buffer_from_string "hello")])) [])
  = [EvGraphPost "/users/shared@example.com/messages"
       (DraftMessage "Subject" (Some [recipient_of "x@ex.com"]) None None
          (Some ("text", "Hello")));
     EvGraphPost "/users/shared@example.com/messages/MSG-1/attachments"
       (FileAttachment "note.txt" "aGVsbG8=" (Mime "text/plain"));
     EvGraphPost "/users/shared@example.com/messages/MSG-1/send" EmptyBody].
Proof. reflexivity. Qed.

Example test_getMailById_with_attachments :
  getMailById world_with_message test_client "M-789"
    {| select := None; includeAttachments := Some true; idType := None |} []
  = (Returned {| msg_id := "M-789"; msg_fields := [("subject", "S")];
                 msg_attachments := Some [{| att_id := "A1"; att_name := "f.txt" |}] |},
     [EvGraphGet "/users/shared@example.com/messages/M-789" None (Some default_select);
      EvGraphGet "/users/shared@example.com/messages/M-789/attachments" None None]).
Proof. reflexivity. Qed.

Example test_getMailById_custom_select :
  snd (getMailById world_with_message test_client "M-789"
         {| select := Some ["id"; "subject"]; includeAttachments := None;
            idType := None |} [])
  = [EvGraphGet "/users/shared@example.com/messages/M-789" None (Some "id,subject")].
Proof. reflexivity. Qed.

Example test_getMailById_internet_message_id :
  getMailById world_with_message test_client "<IM-123@exch.example.com>"
    {| select := None; includeAttachments := Some true; idType := None |} []
  = (Returned {| msg_id := "M-789"; msg_fields := [("subject", "S")];
                 msg_attachments := Some [{| att_id := "A1"; att_name := "f.txt" |}] |},
     [EvGraphGet "/users/shared@example.com/messages"
        (Some "internetMessageId eq '<IM-123@exch.example.com>'")
        (Some default_select);
      EvGraphGet "/users/shared@example.com/messages/M-789/attachments" None None]).
Proof. reflexivity. Qed.

Example test_path_attachment_above_ceiling :
  sendMail world_with_big_file test_client 0
    (test_mail "x@ex.com" (Some [attachment_of_path "big.bin" "/tmp/big.bin"])) []
  = (Thrown Error_too_large,
     [EvGraphPost "/users/shared@example.com/messages"
        (DraftMessage "Subject" (Some [recipient_of "x@ex.com"]) None None
           (Some ("text", "Hello")));
      EvStat "/tmp/big.bin";
      EvLoggerError (CustomError 0) "Failed to send mail" Error_too_large]).
Proof. reflexivity. Qed.

Example test_href_attachment_above_ceiling :
  sendMail world_announcing_too_much test_client 0
    (test_mail "x@ex.com" (Some [attachment_of_href "big.bin" "http://example.com/big.bin"])) []
  = (Thrown Error_too_large,
     [EvGraphPost "/users/shared@example.com/messages"
        (DraftMessage "Subject" (Some [recipient_of "x@ex.com"]) None None
           (Some ("text", "Hello")));
      EvFetch (HEAD "http://example.com/big.bin");
      EvLoggerError (CustomError 0) "Failed to send mail" Error_too_large]).
Proof. reflexivity. Qed.

(** ** More on chunk-size normalisation *)

(** X1. From one unit on, the normalisation rounds down: for a configured
    chunk size that is an integer of at least 320 KiB and at most
    [MAX_SAFE_INTEGER] (beyond which the doubles of the code no longer
    compute as the integers do), the normalised size is a multiple of
    320 KiB, is at most the configured size, and is less than one unit
    below it. *)
Theorem X1_normalize_rounds_down_from_one_unit x :
  base <= x ->
  x <= MAX_SAFE_INTEGER ->
  (base | normalizeChunkSize x)
  /\ x - base < normalizeChunkSize x <= x.
Proof.
  intros Hx _. split; [apply normalize_divides |].
  destruct (Z.eq_dec (Z.rem x base) 0) as [H | H].
  - rewrite normalize_multiple by assumption. rewrite base_value. lia.
  - rewrite normalize_not_multiple by assumption.
    pose proof (Z.div_mod x base ltac:(rewrite base_value; lia)) as E.
    pose proof (Z.mod_pos_bound x base ltac:(rewrite base_value; lia)) as B.
    assert (1 <= x / base).
    { apply Z.div_le_lower_bound; rewrite base_value in *; lia. }
    rewrite base_value in *. lia.
Qed.

Lemma X1_witness :
  base <= 1000000
  /\ 1000000 <= MAX_SAFE_INTEGER
  /\ (base | normalizeChunkSize 1000000)
  /\ 1000000 - base < normalizeChunkSize 1000000 <= 1000000.
Proof.
  split; [vm_compute; discriminate |]. split; [vm_compute; discriminate |].
  apply X1_normalize_rounds_down_from_one_unit; vm_compute; discriminate.
Defined.

(** X2. Below one unit the normalisation rounds up: a configured chunk
    size under 320 KiB that is not a multiple of 320 KiB, a negative one
    included, is replaced by exactly 320 KiB. *)
Theorem X2_normalize_below_one_unit x :
  x < base -> Z.rem x base <> 0 -> normalizeChunkSize x = base.
Proof.
  intros Hx H. rewrite normalize_not_multiple by assumption.
  assert (x / base <= 0).
  { assert (x / base < 1); [| lia].
    apply Z.div_lt_upper_bound; rewrite base_value in *; lia. }
  rewrite base_value in *. lia.
Qed.

Lemma X2_witness :
  1024 < base /\ Z.rem 1024 base <> 0 /\ normalizeChunkSize 1024 = base.
Proof.
  split; [reflexivity |]. split; [vm_compute; discriminate |].
  apply X2_normalize_below_one_unit; [reflexivity | vm_compute; discriminate].
Defined.

(** X3. For options whose [chunkSize] is absent or is an integer of
    magnitude at most [MAX_SAFE_INTEGER], the chunk size that the
    constructor stores is a multiple of 320 KiB which the normalisation
    leaves unchanged, so that the normalisation which every upload routine
    repeats has no effect on it. It is the configured value itself when
    that is a multiple of 320 KiB, zero and the negative multiples
    included; otherwise it is a positive multiple, which does not exceed
    the configured value when one unit fits in it; and it is 320 KiB when
    no chunk size is configured. *)
Theorem X3_constructor_stores_normalised_options options :
  (forall s, configured_chunkSize options = Some s -> Z.abs s <= MAX_SAFE_INTEGER) ->
  let stored := chunkSize (attachmentUploadOptions (new_MailClient options)) in
  normalizeChunkSize stored = stored
  /\ Z.rem stored base = 0
  /\ match configured_chunkSize options with
     | Some s =>
       if Z.rem s base =? 0 then stored = s
       else base <= stored /\ (base <= s -> stored <= s)
     | None => stored = base
     end.
Proof.
  intros _ stored. subst stored. unfold new_MailClient, configured_chunkSize.
  cbn [attachmentUploadOptions chunkSize].
  split; [apply normalize_idempotent |].
  split; [apply Z.rem_divide; [discriminate | apply normalize_divides] |].
  unfold merge_upload_options.
  destruct (cred_attachmentUploadOptions options) as [[t [s |]] |];
    cbn [chunkSize opt_chunkSize defaultAttachmentUploadOptions];
    [| reflexivity | reflexivity].
  destruct (Z.eqb_spec (Z.rem s base) 0) as [H | H].
  - apply normalize_multiple. assumption.
  - split; [apply normalize_floor; assumption | apply normalize_le].
Qed.

(** ** The shared instance *)

(** X4. [getInstance] creates the client at its first call only: once it
    has returned, every later call returns that same client and leaves
    the static field as it is, whatever options it is given. *)
Theorem X4_getInstance_first_call_wins first later _instance :
  let c := fst (getInstance first _instance) in
  let state := snd (getInstance first _instance) in
  getInstance later state = (c, state)
  /\ (_instance = None -> c = new_MailClient first)
  /\ (forall existing, _instance = Some existing -> c = existing).
Proof.
  destruct _instance as [existing |]; cbn.
  - split; [reflexivity |]. split; [discriminate |]. intros ? [= ->]. reflexivity.
  - split; [reflexivity |]. split; [reflexivity | discriminate].
Qed.

(** ** Content types and file names *)

Lemma pop_last l x : pop (l ++ [x]) = Some x.
Proof.
  induction l as [| y l IH]; [reflexivity |].
  cbn [app]. destruct (l ++ [x]) eqn:E.
  - destruct l; discriminate.
  - exact IH.
Qed.

Lemma split_on_no_sep sep s :
  string_forallb (fun c => negb (Ascii.eqb c sep)) s = true ->
  split_on sep s = [s].
Proof.
  induction s as [| c r IH]; [reflexivity |].
  cbn. intros H. apply andb_prop in H. destruct H as [Hc Hr].
  apply negb_true_iff in Hc. rewrite Hc, (IH Hr). reflexivity.
Qed.

(** The last piece of a name is what follows its last separator. *)
Lemma split_on_last sep name ext :
  string_forallb (fun c => negb (Ascii.eqb c sep)) ext = true ->
  exists p ps, split_on sep (name ++ String sep ext) = p :: ps ++ [ext].
Proof.
  intros Hext. induction name as [| c r [p [ps IH]]].
  - exists EmptyString, []. cbn. rewrite Ascii.eqb_refl, (split_on_no_sep _ _ Hext).
    reflexivity.
  - cbn [append split_on]. rewrite IH. destruct (Ascii.eqb c sep).
    + exists EmptyString, (p :: ps). reflexivity.
    + exists (String c p), ps. reflexivity.
Qed.

Lemma pop_split_on_last sep name ext :
  string_forallb (fun c => negb (Ascii.eqb c sep)) ext = true ->
  pop (split_on sep (name ++ String sep ext)) = Some ext.
Proof.
  intros Hext. destruct (split_on_last sep name ext Hext) as [p [ps ->]].
  apply (pop_last (p :: ps)).
Qed.

Lemma lower_char_idempotent c : lower_char (lower_char c) = lower_char c.
Proof.
  destruct c as [[] [] [] [] [] [] [] []]; reflexivity.
Qed.

Lemma lower_char_dot c : Ascii.eqb (lower_char c) "." = Ascii.eqb c ".".
Proof.
  destruct c as [[] [] [] [] [] [] [] []]; reflexivity.
Qed.

Lemma toLowerCase_idempotent s : toLowerCase (toLowerCase s) = toLowerCase s.
Proof.
  induction s as [| c r IH]; [reflexivity |].
  cbn. rewrite lower_char_idempotent, IH. reflexivity.
Qed.

Lemma no_dot_toLowerCase s : no_dot (toLowerCase s) = no_dot s.
Proof.
  unfold no_dot. induction s as [| c r IH]; [reflexivity |].
  cbn. rewrite lower_char_dot, IH. reflexivity.
Qed.

Lemma getContentType_no_dot ext :
  no_dot ext = true ->
  getContentTypeFromFileName ext
  = getContentTypeFromFileName (toLowerCase ext).
Proof.
  intros H. unfold getContentTypeFromFileName.
  rewrite (split_on_no_sep "." ext H).
  rewrite (split_on_no_sep "." (toLowerCase ext))
    by (fold (no_dot (toLowerCase ext)); rewrite no_dot_toLowerCase; exact H).
  cbn [pop]. rewrite toLowerCase_idempotent. reflexivity.
Qed.

(** X5. The content type of a file name depends on the text after its
    last dot only, and not on the case of that text. *)
Theorem X5_content_type_by_extension name ext :
  no_dot ext = true ->
  getContentTypeFromFileName (name ++ "." ++ ext) = getContentTypeFromFileName ext
  /\ getContentTypeFromFileName (name ++ "." ++ ext)
     = getContentTypeFromFileName (name ++ "." ++ toLowerCase ext).
Proof.
  intros H.
  assert (E : forall e, no_dot e = true ->
                getContentTypeFromFileName (name ++ "." ++ e)
                = getContentTypeFromFileName e).
  { intros e He. unfold getContentTypeFromFileName at 1 2.
    change (name ++ "." ++ e)%string with (name ++ String "." e)%string.
    rewrite (pop_split_on_last "." name e He), (split_on_no_sep "." e He).
    reflexivity. }
  split; [apply E; assumption |].
  rewrite (E ext H), (E (toLowerCase ext)) by (rewrite no_dot_toLowerCase; exact H).
  apply getContentType_no_dot. assumption.
Qed.

Lemma X5_witness :
  no_dot "PDF" = true
  /\ getContentTypeFromFileName ("report.final" ++ "." ++ "PDF")
     = getContentTypeFromFileName "PDF"
  /\ getContentTypeFromFileName ("report.final" ++ "." ++ "PDF")
     = getContentTypeFromFileName ("report.final" ++ "." ++ toLowerCase "PDF").
Proof.
  split; [reflexivity |].
  apply X5_content_type_by_extension. reflexivity.
Defined.

Lemma or_else_truthy s fallback :
  truthy fallback = true -> truthy (or_else s fallback) = true.
Proof.
  intros H. unfold or_else. destruct (truthy s) eqn:E; assumption.
Qed.

Lemma truthy_string_truthy o s : truthy_string o = Some s -> truthy s = true.
Proof.
  destruct o as [x |]; [| discriminate]. cbn.
  destruct (truthy x) eqn:E; [| discriminate]. intros [= <-]. assumption.
Qed.

Lemma last_segment_truthy x : truthy (last_segment_or_attachment x) = true.
Proof.
  unfold last_segment_or_attachment.
  destruct (pop (split_on "/" x)); [apply or_else_truthy |]; reflexivity.
Qed.

(** X6. The name under which an attachment is sent is never empty,
    whatever fields the attachment has. *)
Theorem X6_file_name_never_empty w a : truthy (resolve_fileName w a) = true.
Proof.
  unfold resolve_fileName.
  destruct (truthy_string (filename a)) as [f |] eqn:Hf;
    [eapply truthy_string_truthy; eassumption |].
  destruct (truthy_string (path a)) as [p |]; [apply last_segment_truthy |].
  destruct (truthy_string (href a)) as [h |]; [| reflexivity].
  destruct (URL_pathname w h); [apply or_else_truthy; reflexivity |].
  apply last_segment_truthy.
Qed.

(** ** More on recipients *)

(** The entries a string contributes: its pieces, trimmed, without the
    empty ones. *)
Lemma trimEnd_cons c r :
  trimEnd (String c r)
  = match trimEnd r with
    | EmptyString => if isWhiteSpace c then EmptyString else String c EmptyString
    | r' => String c r'
    end.
Proof. reflexivity. Qed.

Lemma trimEnd_idempotent s : trimEnd (trimEnd s) = trimEnd s.
Proof.
  induction s as [| c r IH]; [reflexivity |].
  rewrite trimEnd_cons. destruct (trimEnd r) as [| d r'] eqn:E.
  - destruct (isWhiteSpace c) eqn:Hc; [reflexivity |].
    rewrite trimEnd_cons. cbn [trimEnd]. rewrite Hc. reflexivity.
  - rewrite trimEnd_cons, IH. reflexivity.
Qed.

Lemma trimStart_starts_clean s : starts_clean (trimStart s) = true.
Proof.
  induction s as [| c r IH]; [reflexivity |].
  cbn [trimStart]. destruct (isWhiteSpace c) eqn:Hc; [assumption |].
  cbn. rewrite Hc. reflexivity.
Qed.

Lemma trimStart_clean s : starts_clean s = true -> trimStart s = s.
Proof.
  destruct s as [| c r]; [reflexivity |]. cbn. intros H.
  apply negb_true_iff in H. rewrite H. reflexivity.
Qed.

Lemma trimEnd_starts_clean s : starts_clean s = true -> starts_clean (trimEnd s) = true.
Proof.
  destruct s as [| c r]; [reflexivity |]. cbn. intros H.
  destruct (trimEnd r); [| assumption].
  apply negb_true_iff in H. rewrite H. cbn. rewrite H. reflexivity.
Qed.

Lemma trim_idempotent s : trim (trim s) = trim s.
Proof.
  unfold trim.
  rewrite (trimStart_clean (trimEnd (trimStart s)))
    by (apply trimEnd_starts_clean, trimStart_starts_clean).
  apply trimEnd_idempotent.
Qed.

Lemma forallb_trimStart p s :
  string_forallb p s = true -> string_forallb p (trimStart s) = true.
Proof.
  induction s as [| c r IH]; [reflexivity |].
  cbn [trimStart]. intros H. destruct (isWhiteSpace c); [| assumption].
  cbn in H. apply andb_prop in H. apply IH, H.
Qed.

Lemma forallb_trimEnd p s :
  string_forallb p s = true -> string_forallb p (trimEnd s) = true.
Proof.
  induction s as [| c r IH]; [reflexivity |].
  cbn [trimEnd string_forallb]. intros H. apply andb_prop in H. destruct H as [Hc Hr].
  specialize (IH Hr). destruct (trimEnd r) as [| d r'].
  - destruct (isWhiteSpace c); [reflexivity |]. cbn. rewrite Hc. reflexivity.
  - cbn [string_forallb] in *. rewrite Hc. assumption.
Qed.

Lemma forallb_trim p s :
  string_forallb p s = true -> string_forallb p (trim s) = true.
Proof. intros H. apply forallb_trimEnd, forallb_trimStart, H. Qed.

(** No piece of a split holds a separator. *)
Lemma split_runs_no_separator s : forall inRun,
  Forall (fun p => no_separator p = true) (split_runs inRun s).
Proof.
  induction s as [| c r IH]; intros inRun.
  - repeat constructor.
  - cbn [split_runs]. destruct (isSeparator c) eqn:Hc.
    + destruct inRun; [apply IH |]. constructor; [reflexivity | apply IH].
    + specialize (IH false). destruct (split_runs false r) as [| p ps].
      * repeat constructor. unfold no_separator. cbn. rewrite Hc. reflexivity.
      * inversion IH as [| ? ? Hp Hps]; subst. constructor; [| assumption].
        unfold no_separator in *. cbn. rewrite Hc. assumption.
Qed.

Lemma split_runs_single s :
  no_separator s = true -> split_runs false s = [s].
Proof.
  unfold no_separator. induction s as [| c r IH]; [reflexivity |].
  cbn. intros H. apply andb_prop in H. destruct H as [Hc Hr].
  apply negb_true_iff in Hc. rewrite Hc, (IH Hr). reflexivity.
Qed.

Lemma trimmed_pieces_are_addresses l :
  Forall (fun p => no_separator p = true) l ->
  Forall is_address (filter truthy (map trim l)).
Proof.
  induction 1 as [| p ps Hp _ IH]; [constructor |].
  cbn [map filter]. destruct (truthy (trim p)) eqn:Ht; [| assumption].
  constructor; [| assumption].
  split; [assumption |]. split; [apply trim_idempotent |].
  apply forallb_trim. assumption.
Qed.

Lemma entries_are_addresses s :
  Forall is_address (filter truthy (map trim (split_separators s))).
Proof. apply trimmed_pieces_are_addresses, split_runs_no_separator. Qed.

Lemma collected_are_addresses parts : Forall is_address (collect_addresses parts).
Proof.
  rewrite collect_addresses_flat_map.
  induction parts as [| p parts IH]; [constructor |].
  cbn [flat_map]. apply Forall_app. split; [apply entries_are_addresses | assumption].
Qed.

Lemma first_occurrences_Forall (P : string -> Prop) l :
  Forall P l -> Forall P (first_occurrences l).
Proof.
  rewrite !Forall_forall. intros H x Hx.
  apply H, first_occurrences_In, Hx.
Qed.

Lemma addresses_of_recipients l : addresses_of (map recipient_of l) = l.
Proof.
  unfold addresses_of. rewrite map_map. cbn. apply map_id.
Qed.

Lemma recipients_of_addresses r : map recipient_of (addresses_of r) = r.
Proof.
  unfold addresses_of. rewrite map_map.
  induction r as [| [[a]] r IH]; [reflexivity |]. cbn. rewrite IH. reflexivity.
Qed.

(** What [buildRecipients] returns, for any input. *)
Lemma buildRecipients_some input r :
  buildRecipients input = Some r ->
  exists parts,
    addresses_of r = first_occurrences (collect_addresses parts)
    /\ r <> [].
Proof.
  unfold buildRecipients. destruct (falsy_input input); [discriminate |].
  set (parts := match input with
                | ManyStrings l => l | OneString s => [s] | NoInput => [] end).
  rewrite Array_from_Set_first_occurrences.
  destruct (first_occurrences (collect_addresses parts)) as [| a l] eqn:E; [discriminate |].
  intros [= <-]. exists parts. rewrite E.
  split; [apply (addresses_of_recipients (a :: l)) | discriminate].
Qed.

(** X7. The recipients that [buildRecipients] returns are never an empty
    list, their addresses are pairwise distinct, and every address is
    non-empty, trimmed and free of separators. *)
Theorem X7_recipients_are_distinct_addresses input r :
  buildRecipients input = Some r ->
  r <> []
  /\ NoDup (addresses_of r)
  /\ Forall (fun a => truthy a = true /\ trim a = a /\ no_separator a = true)
       (addresses_of r).
Proof.
  intros H. destruct (buildRecipients_some input r H) as [parts [E Hne]].
  split; [assumption |]. rewrite E.
  split; [apply first_occurrences_NoDup |].
  apply (first_occurrences_Forall is_address), collected_are_addresses.
Qed.

Lemma X7_witness :
  buildRecipients (ManyStrings [" a@ex.com ;b@ex.com"; "b@ex.com,, c@ex.com"])
  = Some [recipient_of "a@ex.com"; recipient_of "b@ex.com"; recipient_of "c@ex.com"]
  /\ NoDup (addresses_of
              [recipient_of "a@ex.com"; recipient_of "b@ex.com"; recipient_of "c@ex.com"]).
Proof.
  split; [reflexivity |].
  exact (proj1 (proj2 (X7_recipients_are_distinct_addresses
                         (ManyStrings [" a@ex.com ;b@ex.com"; "b@ex.com,, c@ex.com"])
                         _ eq_refl))).
Defined.

Lemma first_occurrences_NoDup_id l : NoDup l -> first_occurrences l = l.
Proof.
  induction 1 as [| x l Hx _ IH]; [reflexivity |].
  cbn [first_occurrences]. rewrite IH. f_equal.
  apply forallb_filter_id. apply forallb_forall. intros y Hy.
  apply negb_true_iff. apply String.eqb_neq. intros ->. contradiction.
Qed.

Lemma collect_addresses_of_addresses l :
  Forall is_address l -> collect_addresses l = l.
Proof.
  rewrite collect_addresses_flat_map.
  induction 1 as [| a l [Ht [Htrim Hsep]] _ IH]; [reflexivity |].
  cbn [flat_map]. rewrite IH. unfold split_separators.
  rewrite (split_runs_single a Hsep). cbn [map filter]. rewrite Htrim, Ht. reflexivity.
Qed.

(** X8. Feeding the addresses that [buildRecipients] returned back to it,
    as an array, returns the same recipients. *)
Theorem X8_recipients_round_trip input r :
  buildRecipients input = Some r ->
  buildRecipients (ManyStrings (addresses_of r)) = Some r.
Proof.
  intros H. destruct (buildRecipients_some input r H) as [parts [E Hne]].
  assert (Haddr : Forall is_address (addresses_of r)).
  { rewrite E. apply first_occurrences_Forall, collected_are_addresses. }
  assert (Hnodup : NoDup (addresses_of r))
    by (rewrite E; apply first_occurrences_NoDup).
  unfold buildRecipients. cbn [falsy_input].
  rewrite Array_from_Set_first_occurrences, (collect_addresses_of_addresses _ Haddr),
    (first_occurrences_NoDup_id _ Hnodup).
  destruct (addresses_of r) as [| a l] eqn:Er.
  - destruct r; [contradiction | discriminate].
  - rewrite <- Er, recipients_of_addresses. reflexivity.
Qed.

Lemma X8_witness :
  buildRecipients (OneString "a@ex.com; b@ex.com, a@ex.com")
  = Some [recipient_of "a@ex.com"; recipient_of "b@ex.com"]
  /\ buildRecipients
       (ManyStrings (addresses_of [recipient_of "a@ex.com"; recipient_of "b@ex.com"]))
     = Some [recipient_of "a@ex.com"; recipient_of "b@ex.com"].
Proof.
  split; [reflexivity |].
  apply (X8_recipients_round_trip (OneString "a@ex.com; b@ex.com, a@ex.com")).
  reflexivity.
Defined.

Lemma split_each_nonempty s : split_each s <> [].
Proof.
  destruct s as [| c r]; [discriminate |]. cbn.
  destruct (isSeparator c); [discriminate |].
  destruct (split_each r); discriminate.
Qed.

Lemma split_each_join a b :
  split_each (a ++ String ";" b) = split_each a ++ split_each b.
Proof.
  induction a as [| c r IH]; [reflexivity |].
  cbn [append split_each]. rewrite IH. destruct (isSeparator c); [reflexivity |].
  destruct (split_each r) as [| p ps] eqn:E; [| reflexivity].
  exfalso. exact (split_each_nonempty r E).
Qed.

Lemma entries_of_join l :
  filter truthy (map trim (split_each (join ";" l)))
  = flat_map (fun p => filter truthy (map trim (split_each p))) l.
Proof.
  induction l as [| x l IH]; [reflexivity |].
  destruct l as [| y l].
  - cbn [join flat_map]. rewrite app_nil_r. reflexivity.
  - change (join ";" (x :: y :: l)) with (x ++ String ";" (join ";" (y :: l)))%string.
    rewrite split_each_join, map_app, filter_app, IH. reflexivity.
Qed.

(** X9. An array of strings yields the same recipients as the single
    string made of its elements joined with semicolons. *)
Theorem X9_array_is_joined_string l :
  buildRecipients (ManyStrings l) = buildRecipients (OneString (join ";" l)).
Proof.
  rewrite buildRecipients_string. unfold parse_recipients. rewrite entries_of_join.
  unfold buildRecipients. cbn [falsy_input].
  rewrite Array_from_Set_first_occurrences, collect_addresses_flat_map.
  erewrite flat_map_ext; [| intros p; apply split_separators_entries].
  destruct (first_occurrences _); reflexivity.
Qed.

(** ** Which calls a computation can add *)

Section AddsOnly.

Variable P : Event -> Prop.

Lemma adds_only_ret {A : Type} (a : A) : adds_only P (ret a).
Proof. intros log. exists []. rewrite app_nil_r. split; [reflexivity | constructor]. Qed.

Lemma adds_only_throw {A : Type} e : adds_only P (@throw A e).
Proof. intros log. exists []. rewrite app_nil_r. split; [reflexivity | constructor]. Qed.

Lemma adds_only_diverge {A : Type} : adds_only P (@diverge A).
Proof. intros log. exists []. rewrite app_nil_r. split; [reflexivity | constructor]. Qed.

Lemma adds_only_bind {A B : Type} (m : M A) (k : A -> M B) :
  adds_only P m -> (forall a, adds_only P (k a)) -> adds_only P (bind m k).
Proof.
  intros Hm Hk log. destruct (Hm log) as [evs [Hevs HP]]. unfold bind.
  destruct (m log) as [[a | e |] log']; cbn [snd] in Hevs; subst log'.
  - destruct (Hk a (log ++ evs)) as [evs' [Hevs' HP']].
    exists (evs ++ evs'). rewrite Hevs', app_assoc. split; [reflexivity |].
    apply Forall_app. auto.
  - exists evs. auto.
  - exists evs. auto.
Qed.

Lemma adds_only_try_catch {A : Type} (m : M A) (h : JsError -> M A) :
  adds_only P m -> (forall e, adds_only P (h e)) -> adds_only P (try_catch m h).
Proof.
  intros Hm Hh log. destruct (Hm log) as [evs [Hevs HP]]. unfold try_catch.
  destruct (m log) as [[a | e |] log']; cbn [snd] in Hevs; subst log'.
  - exists evs. auto.
  - destruct (Hh e (log ++ evs)) as [evs' [Hevs' HP']].
    exists (evs ++ evs'). rewrite Hevs', app_assoc. split; [reflexivity |].
    apply Forall_app. auto.
  - exists evs. auto.
Qed.

Lemma adds_only_call {A : Type} ev (answer : Log -> Answer A) :
  P ev -> adds_only P (call ev answer).
Proof.
  intros Hev log. exists [ev]. rewrite call_log. split; [reflexivity |].
  constructor; [assumption | constructor].
Qed.

Lemma adds_only_emit {A : Type} ev (answer : Log -> A) :
  P ev -> adds_only P (emit ev answer).
Proof.
  intros Hev log. exists [ev]. split; [reflexivity |].
  constructor; [assumption | constructor].
Qed.

End AddsOnly.

Lemma adds_only_weaken {A : Type} (P Q : Event -> Prop) (m : M A) :
  (forall ev, P ev -> Q ev) -> adds_only P m -> adds_only Q m.
Proof.
  intros HPQ Hm log. destruct (Hm log) as [evs [Hevs HP]].
  exists evs. split; [assumption |]. eapply Forall_impl; eassumption.
Qed.

(** Builds a proof of [adds_only] along the structure of the code. *)
Ltac adds_only_step :=
  lazymatch goal with
  | |- adds_only _ (bind _ _) => apply adds_only_bind; [| intros ?]
  | |- adds_only _ (try_catch _ _) => apply adds_only_try_catch; [| intros ?]
  | |- adds_only _ (ret _) => apply adds_only_ret
  | |- adds_only _ (throw _) => apply adds_only_throw
  | |- adds_only _ diverge => apply adds_only_diverge
  | |- adds_only _ (fetch _ _) => apply adds_only_call; exact I
  | |- adds_only _ (post _ _ _) => apply adds_only_call; exact I
  | |- adds_only _ (call _ _) => apply adds_only_call; exact I
  | |- adds_only _ (emit _ _) => apply adds_only_emit; exact I
  | |- adds_only _ (if ?b then _ else _) => destruct b
  | |- adds_only _ (match ?x with _ => _ end) => destruct x
  end.

Ltac adds_only_auto := repeat adds_only_step.

(** ** The calls of the upload routines *)

Lemma uploadLargeContent_loop_puts w url content C : forall fuel offset,
  adds_only is_put (uploadLargeContent_loop w fuel url content C offset).
Proof.
  induction fuel as [| fuel IH]; intros offset; cbn [uploadLargeContent_loop];
    adds_only_auto. apply IH.
Qed.

Lemma is_put_post_or_put ev : is_put ev -> is_post_or_put ev.
Proof. destruct ev as [| | [] | | | | | | | |]; cbn; tauto. Qed.

Lemma is_post_or_put_upload ev : is_post_or_put ev -> is_upload_call ev.
Proof. destruct ev as [? [] | | [] | | | | | | | |]; cbn; tauto. Qed.

Lemma is_put_upload ev : is_put ev -> is_upload_call ev.
Proof. intros H. apply is_post_or_put_upload, is_put_post_or_put, H. Qed.

Lemma uploadLargeContent_posts_and_puts w c fuel messageId fileName content contentType :
  adds_only is_post_or_put
    (uploadLargeContent w c fuel messageId fileName content contentType).
Proof.
  unfold uploadLargeContent. adds_only_auto.
  eapply adds_only_weaken; [exact is_put_post_or_put | apply uploadLargeContent_loop_puts].
Qed.

Lemma attach_inline_posts w c messageId fileName buf contentType :
  adds_only is_post_or_put (attach_inline w c messageId fileName buf contentType).
Proof. unfold attach_inline. adds_only_auto. Qed.

Lemma upload_content_posts_and_puts w c fuel messageId fileName contentType data :
  adds_only is_post_or_put
    (upload_content w c fuel messageId fileName contentType data).
Proof.
  unfold upload_content. adds_only_auto.
  - apply attach_inline_posts.
  - apply uploadLargeContent_posts_and_puts.
Qed.

Lemma uploadLargeFileByPath_loop_calls w url fileSize filePath failure :
  forall chunks offset,
    adds_only is_upload_call
      (uploadLargeFileByPath_loop w url fileSize filePath chunks failure offset).
Proof.
  induction chunks as [| chunk chunks IH]; intros offset;
    cbn [uploadLargeFileByPath_loop]; [adds_only_auto |].
  apply adds_only_bind; [| intros _; apply IH].
  unfold for_await_body, uploadLargeFileByPath_body.
  apply adds_only_try_catch; [| intros e]; adds_only_auto.
Qed.

Lemma uploadLargeFileByPath_calls w c messageId fileName filePath contentType fileSize :
  adds_only is_upload_call
    (uploadLargeFileByPath w c messageId fileName filePath contentType fileSize).
Proof.
  unfold uploadLargeFileByPath. adds_only_auto.
  apply uploadLargeFileByPath_loop_calls.
Qed.

Lemma upload_path_calls w c messageId fileName contentType p :
  adds_only is_upload_call (upload_path w c messageId fileName contentType p).
Proof.
  unfold upload_path, try_stat. adds_only_auto.
  - eapply adds_only_weaken; [exact is_post_or_put_upload | apply attach_inline_posts].
  - apply uploadLargeFileByPath_calls.
Qed.

Lemma stream_drain_puts w url size C : forall fuel offset pending,
  adds_only is_put (stream_drain w fuel url size C offset pending).
Proof.
  induction fuel as [| fuel IH]; intros offset pending; cbn [stream_drain];
    adds_only_auto. apply IH.
Qed.

Lemma stream_read_puts w fuel url size C failure : forall values offset pending,
  adds_only is_put (stream_read w fuel url size C values failure offset pending).
Proof.
  induction values as [| value rest IH]; intros offset pending; cbn [stream_read];
    adds_only_auto.
  - apply stream_drain_puts.
  - apply IH.
Qed.

Lemma stream_upload_puts w fuel url size C stream :
  adds_only is_put (stream_upload w fuel url size C stream).
Proof.
  unfold stream_upload. apply adds_only_bind; [apply stream_read_puts |].
  intros st. adds_only_auto.
Qed.

Lemma buffer_all_silent (P : Event -> Prop) failure : forall values buffers total,
  adds_only P (buffer_all values failure buffers total).
Proof.
  induction values as [| value rest IH]; intros buffers total; cbn [buffer_all];
    adds_only_auto. apply IH.
Qed.

Lemma upload_buffered_calls w c fuel messageId fileName contentType stream :
  adds_only is_upload_call
    (upload_buffered w c fuel messageId fileName contentType stream).
Proof.
  unfold upload_buffered. apply adds_only_bind; [apply buffer_all_silent |].
  intros bt. adds_only_auto;
    (eapply adds_only_weaken; [exact is_post_or_put_upload |]).
  - apply attach_inline_posts.
  - apply uploadLargeContent_posts_and_puts.
Qed.

Lemma uploadAttachmentFromUrl_calls w c fuel messageId fileName href contentType :
  adds_only is_upload_call
    (uploadAttachmentFromUrl w c fuel messageId fileName href contentType).
Proof.
  unfold uploadAttachmentFromUrl, probe_size.
  destruct (negb (is_http_url href)); [apply adds_only_ret |].
  apply adds_only_bind; [adds_only_auto |]. intros size.
  destruct (known_above size MAX_ATTACHMENT_SIZE); [apply adds_only_throw |].
  destruct (known_at_most size _).
  - adds_only_auto.
    eapply adds_only_weaken; [exact is_post_or_put_upload | apply attach_inline_posts].
  - apply adds_only_bind; [adds_only_auto |]. intros res.
    destruct (negb (res_ok res)); [apply adds_only_ret |].
    destruct (res_body res) as [stream |]; [| apply adds_only_ret].
    destruct (known_above _ _); [apply adds_only_throw |].
    destruct (match size with Some s => Some s | None => _ end) as [sz |];
      [| apply upload_buffered_calls].
    destruct (sz >? _); [| apply upload_buffered_calls].
    apply adds_only_bind; [adds_only_auto |]. intros session.
    eapply adds_only_weaken; [exact is_put_upload | apply stream_upload_puts].
Qed.

Lemma uploadAttachment_calls w c fuel messageId a :
  adds_only is_upload_call (uploadAttachment w c fuel messageId a).
Proof.
  unfold uploadAttachment.
  destruct (_ && _); [apply adds_only_ret |].
  destruct (truthy_data (content a)) as [data |].
  - eapply adds_only_weaken; [exact is_post_or_put_upload |].
    apply upload_content_posts_and_puts.
  - destruct (truthy_string (path a)) as [p |]; [apply upload_path_calls |].
    destruct (truthy_string (href a)) as [h |]; [| apply adds_only_ret].
    apply uploadAttachmentFromUrl_calls.
Qed.

Lemma uploadAttachments_loop_calls w c fuel messageId l :
  adds_only is_upload_call (uploadAttachments_loop w c fuel messageId l).
Proof.
  induction l as [| a l IH]; cbn [uploadAttachments_loop].
  - apply adds_only_ret.
  - apply adds_only_bind; [apply uploadAttachment_calls | intros _; exact IH].
Qed.

Lemma uploadAttachments_calls w c fuel messageId l :
  adds_only is_upload_call (uploadAttachments w c fuel messageId l).
Proof.
  unfold uploadAttachments. destruct l as [l |]; [| apply adds_only_ret].
  destruct (_ =? _); [apply adds_only_ret | apply uploadAttachments_loop_calls].
Qed.

(** ** The calls of [sendMail] *)




(** The handler of [sendMail] never returns. *)
Lemma sendMail_handler_throws w c (e : JsError) log (r : SendResult) log' :
  (logger_error_call w c "Failed to send mail" e ;;; throw e) log = (Returned r, log') ->
  False.
Proof.
  unfold logger_error_call, bind, call, emit, throw.
  destruct (logger c) as [| hook |]; [discriminate | | discriminate].
  destruct (logger_hook w log hook "Failed to send mail" e); discriminate.
Qed.

(** What a run of [sendMail] that returns has done. *)
Lemma sendMail_returned w c fuel mail log r :
  fst (sendMail w c fuel mail log) = Returned r ->
  exists draft evs,
    graph_post w log ("/users/" ++ sharedMailbox c ++ "/messages") (draft_of mail)
    = inr draft
    /\ r = {| sent_id := resp_id draft;
              sent_internetMessageId := resp_internetMessageId draft |}
    /\ snd (sendMail w c fuel mail log)
       = log ++ [EvGraphPost ("/users/" ++ sharedMailbox c ++ "/messages") (draft_of mail)]
             ++ evs
             ++ [EvGraphPost ("/users/" ++ sharedMailbox c ++ "/messages/"
                                ++ resp_id draft ++ "/send") EmptyBody]
    /\ Forall is_upload_call evs.
Proof.
  destruct (sendMail w c fuel mail log) as [out log'] eqn:Hrun. cbn [fst snd].
  intros ->. revert Hrun.
  unfold sendMail, try_catch, sendMail_try. fold (draft_of mail).
  destruct (no_recipients _);
    [intros Hc; exfalso; exact (sendMail_handler_throws _ _ _ _ _ _ Hc) |].
  unfold bind at 1. unfold post at 1. unfold call at 1.
  destruct (graph_post w log _ (draft_of mail)) as [e | draft];
    [intros Hc; exfalso; exact (sendMail_handler_throws _ _ _ _ _ _ Hc) |].
  set (log1 := log ++ [EvGraphPost _ (draft_of mail)]).
  destruct (uploadAttachments_calls w c fuel (resp_id draft) (attachments mail) log1)
    as [evs [Hevs Hup]].
  unfold bind at 1.
  destruct (uploadAttachments w c fuel (resp_id draft) (attachments mail) log1)
    as [[[] | e |] log2]; cbn [snd] in Hevs; subst log2;
    [| intros Hc; exfalso; exact (sendMail_handler_throws _ _ _ _ _ _ Hc) | discriminate].
  unfold bind, post, call, ret.
  destruct (graph_post w (log1 ++ evs) _ EmptyBody) as [e | sent];
    [intros Hc; exfalso; exact (sendMail_handler_throws _ _ _ _ _ _ Hc) |].
  intros [= <- <-]. exists draft, evs.
  split; [reflexivity |]. split; [reflexivity |]. split; [| assumption].
  unfold log1. rewrite <- !app_assoc. reflexivity.
Qed.

(** X11. When [sendMail] returns, its first call has created the draft
    with the recipients, subject and body of the mail, its last call has
    sent that draft, every call in between is a call on behalf of an
    attachment, and the result carries the identifiers of the draft. *)
Theorem X11_sendMail_drafts_uploads_then_sends w c fuel mail log r :
  fst (sendMail w c fuel mail log) = Returned r ->
  exists draft evs,
    graph_post w log ("/users/" ++ sharedMailbox c ++ "/messages") (draft_of mail)
    = inr draft
    /\ r = {| sent_id := resp_id draft;
              sent_internetMessageId := resp_internetMessageId draft |}
    /\ snd (sendMail w c fuel mail log)
       = log ++ [EvGraphPost ("/users/" ++ sharedMailbox c ++ "/messages") (draft_of mail)]
             ++ evs
             ++ [EvGraphPost ("/users/" ++ sharedMailbox c ++ "/messages/"
                                ++ resp_id draft ++ "/send") EmptyBody]
    /\ Forall is_upload_call evs.
Proof. apply sendMail_returned. Qed.

(** ** Attachments without a source, attachments with a content *)

Lemma uploadAttachment_sourceless w c fuel messageId a log :
  sourceless a -> uploadAttachment w c fuel messageId a log = (Returned tt, log).
Proof.
  intros [Hc [Hp Hh]]. unfold uploadAttachment. rewrite Hc, Hp, Hh. reflexivity.
Qed.

(** X12. Attachments that have neither content nor path nor href cost no
    call: a list of such attachments is walked through without touching
    the log. *)
Theorem X12_sourceless_attachments_cost_nothing w c fuel messageId l log :
  Forall sourceless l ->
  uploadAttachments w c fuel messageId (Some l) log = (Returned tt, log).
Proof.
  intros H. unfold uploadAttachments.
  destruct (Z.of_nat (List.length l) =? 0); [reflexivity |].
  induction H as [| a l Ha _ IH]; [reflexivity |].
  cbn [uploadAttachments_loop].
  rewrite (bind_returned _ _ _ _ _ (uploadAttachment_sourceless w c fuel messageId a log Ha)).
  exact IH.
Qed.

Lemma is_upload_call_not_send ev : is_upload_call ev -> not_send ev.
Proof. destruct ev as [? [] | | | | | | | | | |]; cbn; tauto. Qed.

(** What the body of [sendMail] has done when it throws: nothing that
    sends the draft, unless the throw is the rejection of the post that
    sends it, which is then its last call. *)
Lemma sendMail_try_thrown w c fuel mail log e log' :
  sendMail_try w c fuel mail log = (Thrown e, log') ->
  exists evs,
    log' = log ++ evs
    /\ (Forall not_send evs
        \/ exists before path,
             evs = before ++ [EvGraphPost path EmptyBody]
             /\ Forall not_send before
             /\ graph_post w (log ++ before) path EmptyBody = inl e).
Proof.
  unfold sendMail_try. fold (draft_of mail).
  destruct (no_recipients _).
  { intros [= _ <-]. exists []. rewrite app_nil_r. split; [reflexivity | left; constructor]. }
  rewrite bind_run. unfold post at 1. unfold call at 1.
  destruct (graph_post w log _ (draft_of mail)) as [e1 | draft].
  { intros [= _ <-]. eexists [_]. split; [reflexivity |]. left. repeat constructor. }
  set (first := EvGraphPost _ (draft_of mail)).
  destruct (uploadAttachments_calls w c fuel (resp_id draft) (attachments mail)
              (log ++ [first])) as [evs [Hevs Hup]].
  assert (Hnot : Forall not_send (first :: evs)).
  { constructor; [exact I |].
    eapply Forall_impl; [exact is_upload_call_not_send | exact Hup]. }
  rewrite bind_run.
  destruct (uploadAttachments w c fuel (resp_id draft) (attachments mail) (log ++ [first]))
    as [[[] | e2 |] log2]; cbn [snd] in Hevs; subst log2; [| | discriminate].
  - rewrite bind_run. unfold post, call.
    set (path := ("/users/" ++ sharedMailbox c ++ "/messages/" ++ resp_id draft ++ "/send")%string).
    destruct (graph_post w ((log ++ [first]) ++ evs) path EmptyBody) as [e3 | sent] eqn:Hsend;
      [| discriminate].
    intros [= <- <-]. exists ((first :: evs) ++ [EvGraphPost path EmptyBody]).
    split; [rewrite <- !app_assoc; reflexivity |].
    right. exists (first :: evs), path. split; [reflexivity |]. split; [assumption |].
    rewrite <- Hsend. f_equal. rewrite <- app_assoc. reflexivity.
  - intros [= _ <-]. exists (first :: evs).
    split; [rewrite <- app_assoc; reflexivity | left; assumption].
Qed.

(** X13. The first failure stops the send: when [sendMail] throws,
    whatever has failed (the recipients, the draft, an attachment), no
    call has sent the draft, unless what has failed is the very post that
    sends it, which Graph has rejected. *)
Theorem X13_nothing_is_sent_when_sendMail_throws w c fuel mail log e :
  fst (sendMail w c fuel mail log) = Thrown e ->
  exists evs,
    snd (sendMail w c fuel mail log) = log ++ evs
    /\ (Forall not_send evs
        \/ exists before after path rejection,
             evs = before ++ EvGraphPost path EmptyBody :: after
             /\ Forall not_send before
             /\ Forall not_send after
             /\ graph_post w (log ++ before) path EmptyBody = inl rejection).
Proof.
  destruct (sendMail w c fuel mail log) as [out log'] eqn:Hrun. cbn [fst snd].
  intros ->. revert Hrun. unfold sendMail, try_catch.
  destruct (sendMail_try w c fuel mail log) as [[r | e0 |] log0] eqn:Htry;
    [discriminate | | discriminate].
  destruct (sendMail_try_thrown _ _ _ _ _ _ _ Htry) as [evs [-> Hcases]].
  assert (Hhandler : exists after,
             snd ((logger_error_call w c "Failed to send mail" e0 ;;; @throw SendResult e0) (log ++ evs))
             = (log ++ evs) ++ after
             /\ Forall not_send after).
  { unfold logger_error_call, bind, call, emit, throw.
    destruct (logger c) as [| hook |].
    - eexists [_]. split; [reflexivity | repeat constructor].
    - destruct (logger_hook w (log ++ evs) hook "Failed to send mail" e0);
        eexists [_]; (split; [reflexivity | repeat constructor]).
    - exists []. rewrite app_nil_r. split; [reflexivity | constructor]. }
  destruct Hhandler as [after [Hafter Hnot]].
  intros Hrun. rewrite Hrun in Hafter. cbn [snd] in Hafter. subst log'.
  exists (evs ++ after). split; [rewrite app_assoc; reflexivity |].
  destruct Hcases as [Hall | [before [path [-> [Hbefore Hpost]]]]].
  - left. apply Forall_app. auto.
  - right. exists before, after, path, e0.
    split; [rewrite <- app_assoc; reflexivity |]. auto.
Qed.

(** X14. An attachment with a content is sent from that content alone:
    whatever its path and href, no file-system call and no download is
    made; the calls are Graph posts and chunk [PUT]s only. *)
Theorem X14_content_needs_no_file_and_no_download w c fuel messageId a log :
  truthy_content (content a) = true ->
  exists evs,
    snd (uploadAttachment w c fuel messageId a log) = log ++ evs
    /\ Forall is_post_or_put evs.
Proof.
  intros H. unfold uploadAttachment, truthy_data. rewrite H. cbn [negb andb].
  destruct (content a) as [data |]; [| discriminate].
  apply upload_content_posts_and_puts.
Qed.

(** ** Retrieval *)

Lemma with_attachments_log w c id message log :
  snd (with_attachments w c id message log)
  = log ++ [EvGraphGet ("/users/" ++ sharedMailbox c ++ "/messages/" ++ id ++ "/attachments")
              None None].
Proof.
  unfold with_attachments, bind, call.
  destruct (graph_get_attachments w log _); reflexivity.
Qed.

(** X15. [getMailById] only reads: it makes at most two calls, and all of
    them are [get]s on the Graph client. *)
Theorem X15_getMailById_only_reads w c id options log :
  exists evs,
    snd (getMailById w c id options log) = log ++ evs
    /\ Forall is_graph_get evs
    /\ (List.length evs <= 2)%nat.
Proof.
  unfold getMailById.
  destruct (negb (truthy id)).
  { exists []. rewrite app_nil_r. repeat split; [constructor | cbn; lia]. }
  destruct (_ || _).
  - unfold bind at 1. unfold call at 1.
    destruct (graph_get_list w log _ _ _) as [e | [[| message rest] |]];
      try (eexists [_]; split; [reflexivity |]; split;
           [repeat constructor | cbn; lia]).
    destruct (match includeAttachments options with Some b => b | None => false end).
    + eexists [_; _]. rewrite with_attachments_log, <- app_assoc.
      split; [reflexivity |]. split; [repeat constructor | cbn; lia].
    + eexists [_]. split; [reflexivity |]. split; [repeat constructor | cbn; lia].
  - unfold bind at 1. unfold call at 1.
    destruct (graph_get_message w log _ _) as [e | message].
    + eexists [_]. split; [reflexivity |]. split; [repeat constructor | cbn; lia].
    + destruct (match includeAttachments options with Some b => b | None => false end).
      * eexists [_; _]. rewrite with_attachments_log, <- app_assoc.
        split; [reflexivity |]. split; [repeat constructor | cbn; lia].
      * eexists [_]. split; [reflexivity |]. split; [repeat constructor | cbn; lia].
Qed.

(** X16. An id that has the form of an internet message id, or that is
    declared to be one, is looked up by filter, even when [idType] is
    [graph]: the first call lists the messages whose internetMessageId
    equals the id, with its quotes doubled; a rejection is passed on, an
    empty answer throws the not-found error after that single call, and
    otherwise the first match is returned, with its attachments listed
    under its own Graph id when they are requested. *)
Theorem X16_internet_message_id_is_looked_up_by_filter w c id options log :
  truthy id = true ->
  idType options = Some internetMessageId \/ looks_like_internet_id id = true ->
  let p := ("/users/" ++ sharedMailbox c ++ "/messages")%string in
  let fields := select_fields (select options) in
  let request := EvGraphGet p (Some (internet_id_filter id)) (Some fields) in
  match graph_get_list w log p (internet_id_filter id) fields with
  | inl e => getMailById w c id options log = (Thrown e, log ++ [request])
  | inr None | inr (Some []) =>
    getMailById w c id options log
    = (Thrown (Error "Message not found by internetMessageId"), log ++ [request])
  | inr (Some (message :: _)) =>
    if match includeAttachments options with Some b => b | None => false end
    then getMailById w c id options log
         = with_attachments w c (msg_id message) message (log ++ [request])
    else getMailById w c id options log = (Returned message, log ++ [request])
  end.
Proof.
  intros Hid Hmode p fields request. unfold getMailById. rewrite Hid. cbn [negb].
  assert (Huse : (match idType options with
                  | Some internetMessageId => true
                  | _ => false
                  end || looks_like_internet_id id) = true).
  { destruct Hmode as [-> | ->]; [reflexivity | apply orb_true_r]. }
  rewrite Huse. fold p fields. fold (internet_id_filter id). fold request.
  unfold bind, call.
  destruct (graph_get_list w log p (internet_id_filter id) fields)
    as [e | [[| message rest] |]]; try reflexivity.
  destruct (match includeAttachments options with Some b => b | None => false end);
    reflexivity.
Qed.

Lemma escape_quotes_head c r :
  exists t, escape_quotes (String c r) = String c t.
Proof. cbn. destruct (Ascii.eqb c "'"); eexists; reflexivity. Qed.

(** X17. Doubling the quotes of an id loses nothing: two ids with the same
    escaped form are the same id. *)
Theorem X17_escape_quotes_injective s : forall t,
  escape_quotes s = escape_quotes t -> s = t.
Proof.
  induction s as [| c r IH]; intros [| d u] H.
  - reflexivity.
  - destruct (escape_quotes_head d u) as [x Hx]. rewrite Hx in H. discriminate.
  - destruct (escape_quotes_head c r) as [x Hx]. rewrite Hx in H. discriminate.
  - cbn in H.
    destruct (Ascii.eqb_spec c "'") as [-> | Hc]; destruct (Ascii.eqb_spec d "'") as [-> | Hd].
    + injection H as H. f_equal. apply IH. assumption.
    + injection H as Hd'. congruence.
    + injection H as Hc'. congruence.
    + injection H as -> H. f_equal. apply IH. assumption.
Qed.

(** ** More on buffers *)

Lemma firstn_add_skipn {A : Type} (l : list A) : forall n m,
  firstn (n + m) l = firstn n l ++ firstn m (skipn n l).
Proof.
  induction l as [| x l IH]; intros [| n] m; cbn; try reflexivity.
  - rewrite firstn_nil. reflexivity.
  - rewrite IH. reflexivity.
Qed.

Lemma subarray_inside b s e :
  0 <= s <= e -> e <= buf_length b ->
  subarray b s e = firstn (Z.to_nat (e - s)) (skipn (Z.to_nat s) b).
Proof.
  intros Hs He. unfold subarray. rewrite !relIndex_inside by lia.
  rewrite Z.max_l by lia. reflexivity.
Qed.

(** Two adjacent pieces of a buffer make up the piece that spans them. *)
Lemma subarray_glue b o e u :
  0 <= o <= e -> e <= u -> u <= buf_length b ->
  subarray b o e ++ subarray b e u = subarray b o u.
Proof.
  intros Ho He Hu. rewrite !subarray_inside by lia.
  replace (Z.to_nat (u - o)) with (Z.to_nat (e - o) + Z.to_nat (u - e))%nat by lia.
  rewrite firstn_add_skipn, skipn_skipn.
  replace (Z.to_nat (e - o) + Z.to_nat o)%nat with (Z.to_nat e) by lia.
  reflexivity.
Qed.

Lemma subarray_empty b o : 0 <= o <= buf_length b -> subarray b o o = [].
Proof.
  intros H. rewrite subarray_inside by lia. rewrite Z.sub_diag. reflexivity.
Qed.

Lemma subarray_whole b : subarray b 0 (buf_length b) = b.
Proof.
  rewrite subarray_inside by (pose proof (buf_length_nonneg b); lia).
  rewrite Z.sub_0_r. unfold buf_length. rewrite Nat2Z.id. cbn [Z.to_nat skipn].
  apply firstn_all.
Qed.

Lemma buf_length_zero b : buf_length b = 0 -> b = [].
Proof. destruct b; [reflexivity |]. unfold buf_length. cbn [List.length]. lia. Qed.

(** ** The loop of [uploadLargeContent], whatever the server answers *)

Lemma uploadLargeContent_loop_any w url content C :
  0 < C ->
  forall fuel offset log,
    0 <= offset <= buf_length content ->
    (Z.to_nat (buf_length content - offset) < fuel)%nat ->
    exists out evs upto,
      uploadLargeContent_loop w fuel url content C offset log = (out, log ++ evs)
      /\ out <> OutOfFuel
      /\ sends_ranges url (buf_length content) offset upto evs
      /\ upto <= buf_length content
      /\ Forall well_formed_put evs
      /\ Forall (fun b => 0 < buf_length b <= C) (put_bodies evs)
      /\ Buffer_concat (put_bodies evs) = subarray content offset upto
      /\ (out = Returned tt -> upto = buf_length content).
Proof.
  intros HC. set (T := buf_length content).
  induction fuel as [| fuel IH]; intros offset log Hoff Hfuel; [lia |].
  cbn [uploadLargeContent_loop]. fold T.
  destruct (Z.ltb_spec offset T) as [Hlt | Hge].
  - set (endExclusive := Z.min (offset + C) T).
    assert (Hend : offset < endExclusive <= T) by (unfold endExclusive; lia).
    set (chunk := subarray content offset endExclusive).
    assert (Hchunk : buf_length chunk = endExclusive - offset)
      by (unfold chunk; apply buf_length_subarray; fold T; lia).
    set (req := PUT url (buf_length chunk) offset (endExclusive - 1) T chunk).
    assert (Hone : sends_ranges url T offset endExclusive [EvFetch req]).
    { apply sends_one_more; [lia |].
      replace (endExclusive - 1 + 1) with endExclusive by lia. apply sends_nothing. }
    assert (Hwf : well_formed_put (EvFetch req)) by (cbn; lia).
    assert (Hlen : 0 < buf_length chunk <= C) by (unfold endExclusive in *; lia).
    assert (Hbody : Buffer_concat (put_bodies [EvFetch req]) = subarray content offset endExclusive).
    { cbn. apply app_nil_r. }
    unfold bind, fetch, call.
    destruct (world_fetch w log req) as [e | res].
    + exists (Thrown e), [EvFetch req], endExclusive.
      split; [reflexivity |]. split; [discriminate |]. split; [exact Hone |].
      split; [lia |]. split; [constructor; [exact Hwf | constructor] |].
      split; [constructor; [exact Hlen | constructor] |].
      split; [exact Hbody | discriminate].
    + destruct (chunk_rejected res).
      * eexists (Thrown _), [EvFetch req], endExclusive.
        split; [reflexivity |]. split; [discriminate |]. split; [exact Hone |].
        split; [lia |]. split; [constructor; [exact Hwf | constructor] |].
        split; [constructor; [exact Hlen | constructor] |].
        split; [exact Hbody | discriminate].
      * destruct (IH endExclusive (log ++ [EvFetch req]))
          as [out [evs [upto [Hrun [Hout [Hsends [Hupto [Hwfs [Hlens [Hbodies Hret]]]]]]]]]];
          [lia | lia |].
        pose proof (sends_forward _ _ _ _ _ Hsends) as Hmono.
        exists out, (EvFetch req :: evs), upto. rewrite Hrun, <- app_assoc.
        split; [reflexivity |]. split; [assumption |].
        split; [apply (sends_more _ _ _ _ _ [EvFetch req] evs Hone Hsends) |].
        split; [assumption |]. split; [constructor; assumption |].
        split; [constructor; assumption |]. split; [| assumption].
        cbn [put_bodies put_body req]. unfold Buffer_concat in *. cbn [List.concat].
        rewrite Hbodies. apply subarray_glue; fold T; lia.
  - exists (Returned tt), [], offset. rewrite app_nil_r.
    split; [reflexivity |]. split; [discriminate |].
    split; [apply sends_nothing |]. split; [lia |].
    split; [constructor |]. split; [constructor |].
    split; [| intros _; lia].
    cbn. symmetry. apply subarray_empty. fold T. lia.
Qed.

(** X18. Whatever the upload server answers, the chunk loop of
    [uploadLargeContent] ends when the chunk size is positive; the ranges
    it has sent follow one another from offset 0 and stay within the
    content; every [PUT] declares the content length of its body and a
    range of that length; and the loop returns normally only after the
    range up to the last byte has been sent. *)
Theorem X18_chunks_in_order_whatever_the_server w fuel url content C log :
  0 < C ->
  (Z.to_nat (buf_length content) < fuel)%nat ->
  exists out evs upto,
    uploadLargeContent_loop w fuel url content C 0 log = (out, log ++ evs)
    /\ out <> OutOfFuel
    /\ sends_ranges url (buf_length content) 0 upto evs
    /\ upto <= buf_length content
    /\ Forall well_formed_put evs
    /\ (out = Returned tt -> upto = buf_length content).
Proof.
  intros HC Hfuel. pose proof (buf_length_nonneg content).
  destruct (uploadLargeContent_loop_any w url content C HC fuel 0 log)
    as [out [evs [upto [Hrun [Hout [Hsends [Hupto [Hwf [_ [_ Hret]]]]]]]]]];
    [lia | rewrite Z.sub_0_r; assumption |].
  exists out, evs, upto. auto 10.
Qed.

(** X19. When the chunk loop of [uploadLargeContent] returns, the bodies
    of its [PUT]s, put end to end, are the content, and each of them has
    between one byte and a chunk size of bytes. *)
Theorem X19_uploaded_bytes_are_the_content w fuel url content C log :
  0 < C ->
  (Z.to_nat (buf_length content) < fuel)%nat ->
  fst (uploadLargeContent_loop w fuel url content C 0 log) = Returned tt ->
  exists evs,
    snd (uploadLargeContent_loop w fuel url content C 0 log) = log ++ evs
    /\ Buffer_concat (put_bodies evs) = content
    /\ Forall (fun b => 0 < buf_length b <= C) (put_bodies evs).
Proof.
  intros HC Hfuel. pose proof (buf_length_nonneg content).
  destruct (uploadLargeContent_loop_any w url content C HC fuel 0 log)
    as [out [evs [upto [Hrun [_ [_ [_ [_ [Hlens [Hbodies Hret]]]]]]]]]];
    [lia | rewrite Z.sub_0_r; assumption |].
  rewrite Hrun. cbn [fst snd]. intros ->. exists evs.
  split; [reflexivity |]. split; [| assumption].
  rewrite Hbodies, (Hret eq_refl). apply subarray_whole.
Qed.

(** ** The bytes of the streaming branch *)

Lemma put_bodies_app evs1 evs2 :
  put_bodies (evs1 ++ evs2) = put_bodies evs1 ++ put_bodies evs2.
Proof.
  induction evs1 as [| ev evs1 IH]; [reflexivity |].
  cbn [app put_bodies]. destruct (put_body ev); rewrite IH; reflexivity.
Qed.

Section StreamedBytes.

Variable w : World.
Hypothesis Hw : accepts_chunks w.
Variable url : string.
Variable size C : Z.
Hypothesis HC : 0 < C.

Lemma stream_drain_bodies : forall fuel offset pending log,
  (Z.to_nat (buf_length pending) < fuel)%nat ->
  exists evs offset' pending',
    stream_drain w fuel url size C offset pending log
    = (Returned (offset', pending'), log ++ evs)
    /\ Buffer_concat (put_bodies evs) ++ pending' = pending
    /\ Forall (fun b => buf_length b = C) (put_bodies evs)
    /\ buf_length pending' < C.
Proof.
  induction fuel as [| fuel IH]; intros offset pending log Hfuel; [lia |].
  cbn [stream_drain].
  destruct (Z.geb_spec (buf_length pending) C) as [Hge | Hlt].
  - set (toSend := subarray pending 0 C).
    assert (HtoSend : buf_length toSend = C)
      by (unfold toSend; rewrite buf_length_subarray; lia).
    assert (Hrest : buf_length (subarray_from pending (buf_length toSend))
                    = buf_length pending - C)
      by (rewrite buf_length_subarray_from; lia).
    destruct (fetch_put_accepted w Hw url log (buf_length toSend) offset
                (offset + buf_length toSend - 1) size toSend) as [res [Hrun Hok]].
    rewrite (bind_returned _ _ _ _ _ Hrun), Hok.
    destruct (IH (offset + buf_length toSend)
                (subarray_from pending (buf_length toSend))
                (log ++ [EvFetch (PUT url (buf_length toSend) offset
                                    (offset + buf_length toSend - 1) size toSend)]))
      as [evs [offset' [pending' [Hevs [Hbodies [Hlens Hsmall]]]]]]; [lia |].
    eexists (_ :: evs), offset', pending'. rewrite Hevs, <- app_assoc.
    split; [reflexivity |]. cbn [put_bodies put_body].
    split; [| split; [constructor; assumption | assumption]].
    unfold Buffer_concat in *. cbn [List.concat]. rewrite <- app_assoc, Hbodies.
    rewrite HtoSend. unfold toSend, subarray_from.
    rewrite subarray_glue by lia. apply subarray_whole.
  - exists [], offset, pending. rewrite app_nil_r.
    split; [reflexivity |]. split; [reflexivity |]. split; [constructor | assumption].
Qed.

Lemma stream_read_bodies : forall fuel values offset pending log,
  (Z.to_nat (buf_length pending + stream_total values) < fuel)%nat ->
  exists evs offset' pending',
    stream_read w fuel url size C values None offset pending log
    = (Returned (offset', pending'), log ++ evs)
    /\ Buffer_concat (put_bodies evs) ++ pending' = pending ++ Buffer_concat values
    /\ Forall (fun b => buf_length b = C) (put_bodies evs)
    /\ (buf_length pending < C -> buf_length pending' < C).
Proof.
  intros fuel. induction values as [| value rest IH]; intros offset pending log Hfuel.
  - exists [], offset, pending. rewrite app_nil_r.
    split; [reflexivity |]. split; [cbn; rewrite app_nil_r; reflexivity |].
    split; [constructor | auto].
  - cbn [stream_read]. rewrite stream_total_cons in Hfuel.
    pose proof (buf_length_nonneg pending) as Hp.
    pose proof (buf_length_nonneg value) as Hv.
    pose proof (stream_total_nonneg rest) as Hr.
    set (pending1 := if buf_length pending =? 0 then value
                     else Buffer_concat [pending; value]).
    assert (E1 : pending1 = pending ++ value).
    { unfold pending1. destruct (Z.eqb_spec (buf_length pending) 0) as [Hz | _].
      - rewrite (buf_length_zero _ Hz). reflexivity.
      - unfold Buffer_concat. cbn [List.concat]. rewrite app_nil_r. reflexivity. }
    assert (Hlen1 : buf_length pending1 = buf_length pending + buf_length value)
      by (rewrite E1; apply buf_length_app).
    destruct (stream_drain_bodies fuel offset pending1 log)
      as [evs1 [offset1 [pending2 [Hrun1 [Hb1 [Hl1 Hs1]]]]]]; [lia |].
    rewrite (bind_returned _ _ _ _ _ Hrun1). cbn [fst snd].
    assert (Hp2 : buf_length pending2 <= buf_length pending1).
    { rewrite <- Hb1, buf_length_app.
      pose proof (buf_length_nonneg (Buffer_concat (put_bodies evs1))). lia. }
    destruct (IH offset1 pending2 (log ++ evs1))
      as [evs2 [offset' [pending' [Hrun2 [Hb2 [Hl2 Hs2]]]]]]; [lia |].
    exists (evs1 ++ evs2), offset', pending'. rewrite Hrun2, app_assoc.
    split; [reflexivity |].
    rewrite put_bodies_app. split; [| split; [apply Forall_app; auto | auto]].
    unfold Buffer_concat in *. rewrite concat_app, <- app_assoc, Hb2.
    cbn [List.concat]. rewrite app_assoc, Hb1, E1, <- app_assoc. reflexivity.
Qed.

End StreamedBytes.

(** X20. In the streaming branch, when every chunk is accepted, the
    bodies of the [PUT]s, put end to end, are the bytes read from the
    stream, whatever total was declared and whatever the sizes of the
    reads; each body has between one byte and a chunk size of bytes. *)
Theorem X20_streamed_bytes_are_the_body w fuel url size C stream log :
  accepts_chunks w ->
  0 < C ->
  stream_failure stream = None ->
  (Z.to_nat (stream_total (stream_chunks stream)) < fuel)%nat ->
  exists evs,
    stream_upload w fuel url size C stream log = (Returned tt, log ++ evs)
    /\ Buffer_concat (put_bodies evs) = Buffer_concat (stream_chunks stream)
    /\ Forall (fun b => 0 < buf_length b <= C) (put_bodies evs).
Proof.
  intros Hw HC Hfail Hfuel. unfold stream_upload. rewrite Hfail.
  destruct (stream_read_bodies w Hw url size C HC fuel (stream_chunks stream) 0 [] log)
    as [evs [offset [pending [Hrun [Hbodies [Hlens Hsmall]]]]]].
  { cbn. assumption. }
  rewrite (bind_returned _ _ _ _ _ Hrun). cbn [fst snd].
  specialize (Hsmall HC). cbn [app] in Hbodies.
  assert (Hall : Forall (fun b => 0 < buf_length b <= C) (put_bodies evs)).
  { eapply Forall_impl; [| exact Hlens]. cbn. intros b Hb. lia. }
  destruct (Z.gtb_spec (buf_length pending) 0) as [Hpos | Hzero].
  - destruct (fetch_put_accepted w Hw url (log ++ evs) (buf_length pending) offset
                (size - 1) size pending) as [res [Hrun' Hok]].
    rewrite (bind_returned _ _ _ _ _ Hrun'), Hok.
    eexists (evs ++ [_]). unfold ret. rewrite app_assoc.
    split; [reflexivity |]. rewrite put_bodies_app. cbn [put_bodies put_body].
    split.
    + unfold Buffer_concat in *. rewrite concat_app. cbn [List.concat].
      rewrite app_nil_r. assumption.
    + apply Forall_app. split; [assumption |]. constructor; [lia | constructor].
  - pose proof (buf_length_nonneg pending).
    rewrite (buf_length_zero pending) in Hbodies by lia. rewrite app_nil_r in Hbodies.
    exists evs. auto.
Qed.

(** ** Downloads of unknown length *)

Lemma buffer_all_run values : forall buffers total log,
  total <= MAX_ATTACHMENT_SIZE ->
  buffer_all values None buffers total log
  = if total + stream_total values >? MAX_ATTACHMENT_SIZE
    then (Thrown Error_too_large, log)
    else (Returned (buffers ++ values, total + stream_total values), log).
Proof.
  induction values as [| value rest IH]; intros buffers total log Htotal.
  - cbn [buffer_all]. replace (total + stream_total []) with total
      by (unfold stream_total; cbn; lia).
    destruct (Z.gtb_spec total MAX_ATTACHMENT_SIZE); [lia |].
    rewrite app_nil_r. reflexivity.
  - cbn [buffer_all]. rewrite stream_total_cons.
    pose proof (stream_total_nonneg rest). pose proof (buf_length_nonneg value).
    destruct (Z.gtb_spec (total + buf_length value) MAX_ATTACHMENT_SIZE) as [Hgt | Hle].
    + destruct (Z.gtb_spec (total + (buf_length value + stream_total rest))
                  MAX_ATTACHMENT_SIZE); [reflexivity | lia].
    + rewrite IH by assumption. rewrite <- app_assoc, Z.add_assoc. reflexivity.
Qed.

Lemma buffer_all_start values log :
  buffer_all values None [] 0 log
  = if stream_total values >? MAX_ATTACHMENT_SIZE
    then (Thrown Error_too_large, log)
    else (Returned (values, stream_total values), log).
Proof.
  rewrite buffer_all_run by (unfold MAX_ATTACHMENT_SIZE; lia). reflexivity.
Qed.


(** X22. A download whose length is known neither from the probe nor from
    the response is buffered whole and then sent by its real length:
    above the ceiling the too-large error is thrown after the [HEAD] and
    the [GET]; at most the threshold, one inline attach follows with the
    base64 encoding of the whole body; in between, a session is created
    for the real length and only [PUT]s follow. *)
Theorem X22_download_of_unknown_length
    w c fuel messageId fileName href contentType log res stream :
  is_http_url href = true ->
  probed_size w log href = None ->
  world_fetch w (log ++ [EvFetch (HEAD href)]) (GET href) = inr res ->
  res_ok res = true ->
  res_body res = Some stream ->
  stream_failure stream = None ->
  parse_length w (res_contentLength res) = None ->
  let total := stream_total (stream_chunks stream) in
  let all := Buffer_concat (stream_chunks stream) in
  let run := uploadAttachmentFromUrl w c fuel messageId fileName href contentType log in
  let seen := log ++ [EvFetch (HEAD href); EvFetch (GET href)] in
  (MAX_ATTACHMENT_SIZE < total -> run = (Thrown Error_too_large, seen))
  /\ (total <= MAX_ATTACHMENT_SIZE ->
      total <= largeFileThreshold (attachmentUploadOptions c) ->
      exists out,
        run = (out, seen ++ [EvGraphPost (attachments_path c messageId)
                               (FileAttachment fileName (toBase64 all) contentType)]))
  /\ (total <= MAX_ATTACHMENT_SIZE ->
      largeFileThreshold (attachmentUploadOptions c) < total ->
      exists out evs,
        run = (out, seen ++ EvGraphPost (createUploadSession_path c messageId)
                              (AttachmentItem fileName total contentType) :: evs)
        /\ Forall is_put evs).
Proof.
  intros Hurl Hprobe Hget Hok Hbody Hfail Hlen total all run seen.
  assert (Hrun : run = upload_buffered w c fuel messageId fileName contentType stream seen).
  { unfold run, uploadAttachmentFromUrl. rewrite Hurl. cbn [negb].
    rewrite (bind_returned _ _ _ _ _ (probe_size_run w href log)), Hprobe.
    cbn [known_above known_at_most].
    rewrite (bind_returned _ _ _ _ _ (fetch_resolves _ _ _ _ Hget)), Hok, Hbody, Hlen.
    cbn [negb known_above]. unfold seen. rewrite <- app_assoc. reflexivity. }
  rewrite Hrun. unfold upload_buffered, bind. rewrite Hfail, buffer_all_start.
  fold total. split; [| split].
  - intros Hbig. destruct (Z.gtb_spec total MAX_ATTACHMENT_SIZE); [reflexivity | lia].
  - intros Hmax Hsmall. destruct (Z.gtb_spec total MAX_ATTACHMENT_SIZE); [lia |].
    cbn [fst snd]. destruct (Z.leb_spec total (largeFileThreshold (attachmentUploadOptions c)));
      [| lia].
    apply attach_inline_log.
  - intros Hmax Hlarge. destruct (Z.gtb_spec total MAX_ATTACHMENT_SIZE); [lia |].
    cbn [fst snd]. destruct (Z.leb_spec total (largeFileThreshold (attachmentUploadOptions c)));
      [lia |].
    apply uploadLargeContent_log. assumption.
Qed.

(** ** Small downloads *)


(** ** Files *)

(** X24. A regular, non-empty file of at most the threshold is stat'ed,
    read, and attached inline with the base64 encoding of the bytes read;
    when the read is rejected, its error is thrown and nothing is
    attached. *)
Theorem X24_small_file_is_read_and_attached w c fuel messageId a p log stats :
  path_attachment a p ->
  fs_stat w log p = inr stats ->
  stats_isFile stats = true ->
  stats_size stats <> 0 ->
  stats_size stats <= MAX_ATTACHMENT_SIZE ->
  stats_size stats <= largeFileThreshold (attachmentUploadOptions c) ->
  let fileName := resolve_fileName w a in
  let seen := log ++ [EvStat p; EvReadFile p] in
  match fs_readFile w (log ++ [EvStat p]) p with
  | inl e => uploadAttachment w c fuel messageId a log = (Thrown e, seen)
  | inr fileContent =>
    exists out,
      uploadAttachment w c fuel messageId a log
      = (out, seen ++ [EvGraphPost (attachments_path c messageId)
                         (FileAttachment fileName (toBase64 fileContent)
                            (getContentTypeFromFileName fileName))])
  end.
Proof.
  intros Ha Hstat Hfile Hsize Hmax Hsmall fileName seen.
  rewrite (uploadAttachment_path _ _ _ _ _ _ Ha). fold fileName.
  unfold upload_path.
  rewrite (bind_returned _ _ _ _ _ (try_stat_run w p log)), Hstat, Hfile.
  cbn [negb orb].
  destruct (Z.eqb_spec (stats_size stats) 0); [contradiction |].
  destruct (Z.gtb_spec (stats_size stats) MAX_ATTACHMENT_SIZE); [lia |].
  destruct (Z.leb_spec (stats_size stats) (largeFileThreshold (attachmentUploadOptions c)));
    [| lia].
  replace seen with ((log ++ [EvStat p]) ++ [EvReadFile p])
    by (unfold seen; rewrite <- app_assoc; reflexivity).
  destruct (fs_readFile w (log ++ [EvStat p]) p) as [e | fileContent] eqn:Hread.
  - apply bind_thrown. apply call_rejects. assumption.
  - rewrite (bind_returned _ _ _ _ _ (call_resolves _ _ _ _ Hread)).
    apply attach_inline_log.
Qed.

Lemma uploadLargeFileByPath_loop_bodies w url fileSize filePath chunks :
  accepts_chunks w ->
  forall offset log,
    exists evs,
      uploadLargeFileByPath_loop w url fileSize filePath chunks None offset log
      = (Returned tt, log ++ evs)
      /\ Forall (is_put_to url fileSize) evs
      /\ put_bodies evs = chunks.
Proof.
  intros Hw. induction chunks as [| chunk chunks IH]; intros offset log.
  - exists []. rewrite app_nil_r. split; [reflexivity |]. split; [constructor | reflexivity].
  - cbn [uploadLargeFileByPath_loop]. unfold bind at 1.
    rewrite uploadLargeFileByPath_turn.
    destruct (Hw log url (buf_length chunk) offset (offset + buf_length chunk - 1)
                fileSize chunk) as [res [-> ->]].
    edestruct (IH (offset + buf_length chunk)) as [evs [Hevs [Hput Hbodies]]].
    rewrite Hevs. eexists (_ :: evs). rewrite <- app_assoc.
    split; [reflexivity |]. split; [constructor; [cbn; auto | assumption] |].
    cbn [put_bodies put_body]. rewrite Hbodies. reflexivity.
Qed.

(** X25. A large file whose calls all succeed is uploaded thus: the session
    is created for the size given, the file is opened, a read stream is
    created whose high-water mark is the normalised chunk size, each
    chunk read is sent as the body of one [PUT] to the upload URL of the
    session, and then the stream and the file are closed. *)
Theorem X25_large_file_is_streamed_and_closed
    w c messageId fileName filePath contentType fileSize log session :
  let chunkSize := normalizeChunkSize (chunkSize (attachmentUploadOptions c)) in
  let create := EvGraphPost (createUploadSession_path c messageId)
                  (AttachmentItem fileName fileSize contentType) in
  let stream := fs_createReadStream w (log ++ [create; EvOpen filePath]) filePath chunkSize in
  fileSize <= MAX_ATTACHMENT_SIZE ->
  graph_post w log (createUploadSession_path c messageId)
    (AttachmentItem fileName fileSize contentType) = inr session ->
  fs_open w (log ++ [create]) filePath = inr tt ->
  stream_failure stream = None ->
  accepts_chunks w ->
  exists evs,
    uploadLargeFileByPath w c messageId fileName filePath contentType fileSize log
    = (Returned tt,
       log ++ [create; EvOpen filePath; EvCreateReadStream filePath chunkSize]
           ++ evs ++ [EvCloseStream filePath; EvCloseFile filePath])
    /\ Forall (is_put_to (resp_uploadUrl session) fileSize) evs
    /\ put_bodies evs = stream_chunks stream.
Proof.
  intros chunkSize create stream Hmax Hpost Hopen Hfail Hw.
  unfold uploadLargeFileByPath. fold chunkSize.
  destruct (Z.gtb_spec fileSize MAX_ATTACHMENT_SIZE); [lia |].
  unfold post. rewrite (bind_returned _ _ _ _ _ (call_resolves _ _ _ _ Hpost)).
  fold create.
  rewrite (bind_returned _ _ _ _ _ (call_resolves _ _ _ _ Hopen)).
  unfold bind at 1. unfold emit at 1.
  replace ((log ++ [create]) ++ [EvOpen filePath]) with (log ++ [create; EvOpen filePath])
    by (rewrite <- app_assoc; reflexivity).
  fold stream. rewrite Hfail.
  set (log3 := (log ++ [create; EvOpen filePath]) ++ [EvCreateReadStream filePath chunkSize]).
  destruct (uploadLargeFileByPath_loop_bodies w (resp_uploadUrl session) fileSize
              filePath (stream_chunks stream) Hw 0 log3) as [evs [Hrun [Hput Hbodies]]].
  rewrite (bind_returned _ _ _ _ _ Hrun). unfold bind, emit.
  exists evs. split; [| split; assumption].
  unfold log3. rewrite <- !app_assoc. reflexivity.
Qed.





(** ** Instances of the properties above *)

Lemma X3_witness :
  (forall s, configured_chunkSize options_of_a_megabyte = Some s ->
             Z.abs s <= MAX_SAFE_INTEGER)
  /\ chunkSize (attachmentUploadOptions (new_MailClient options_of_a_megabyte)) = 983040
  /\ normalizeChunkSize 983040 = 983040
  /\ Z.rem 983040 base = 0
  /\ base <= 983040 <= 1000000.
Proof.
  assert (H : forall s, configured_chunkSize options_of_a_megabyte = Some s ->
                        Z.abs s <= MAX_SAFE_INTEGER)
    by (intros s [= <-]; vm_compute; discriminate).
  split; [exact H |]. split; [reflexivity |].
  destruct (X3_constructor_stores_normalised_options options_of_a_megabyte H)
    as [Hfix [Hrem [Hlow Hhigh]]].
  split; [exact Hfix |]. split; [exact Hrem |].
  split; [exact Hlow | apply Hhigh; vm_compute; discriminate].
Defined.

Lemma X4_witness :
  getInstance test_options (snd (getInstance bare_options None))
  = (fst (getInstance bare_options None), snd (getInstance bare_options None))
  /\ fst (getInstance bare_options None) = new_MailClient bare_options.
Proof.
  split.
  - exact (proj1 (X4_getInstance_first_call_wins bare_options test_options None)).
  - exact (proj1 (proj2 (X4_getInstance_first_call_wins bare_options test_options None))
             eq_refl).
Defined.

Lemma X11_witness :
  fst (sendMail test_world test_client 0
         (test_mail "x@ex.com"
            (Some [attachment_of_buffer "note.txt" (Buffer_from_string "hello")])) [])
  = Returned {| sent_id := "MSG-1";
                sent_internetMessageId := "<IM-MSG-1@exch.example.com>" |}
  /\ exists draft evs,
       graph_post test_world [] ("/users/" ++ sharedMailbox test_client ++ "/messages")
         (draft_of (test_mail "x@ex.com"
                      (Some [attachment_of_buffer "note.txt" (Buffer_from_string "hello")])))
       = inr draft
       /\ {| sent_id := "MSG-1";
             sent_internetMessageId := "<IM-MSG-1@exch.example.com>" |}
          = {| sent_id := resp_id draft;
               sent_internetMessageId := resp_internetMessageId draft |}
       /\ snd (sendMail test_world test_client 0
                 (test_mail "x@ex.com"
                    (Some [attachment_of_buffer "note.txt" (Buffer_from_string "hello")])) [])
          = [] ++ [EvGraphPost ("/users/" ++ sharedMailbox test_client ++ "/messages")
                     (draft_of (test_mail "x@ex.com"
                        (Some [attachment_of_buffer "note.txt"
                                 (Buffer_from_string "hello")])))]
               ++ evs
               ++ [EvGraphPost ("/users/" ++ sharedMailbox test_client ++ "/messages/"
                                  ++ resp_id draft ++ "/send") EmptyBody]
       /\ Forall is_upload_call evs.
Proof.
  split; [reflexivity |].
  apply X11_sendMail_drafts_uploads_then_sends. reflexivity.
Defined.

Lemma X12_witness :
  Forall sourceless [attachment_without_source; attachment_of_empty_strings]
  /\ uploadAttachments test_world test_client 0 "MSG-1"
       (Some [attachment_without_source; attachment_of_empty_strings]) []
     = (Returned tt, []).
Proof.
  assert (H : Forall sourceless [attachment_without_source; attachment_of_empty_strings])
    by (repeat constructor).
  split; [exact H |].
  apply X12_sourceless_attachments_cost_nothing. exact H.
Defined.

Lemma X13_witness :
  fst (sendMail world_with_big_file test_client 0
         (test_mail "to@example.com" (Some [attachment_of_path "huge.bin" "/tmp/huge.bin"]))
         [])
  = Thrown Error_too_large
  /\ exists evs,
       snd (sendMail world_with_big_file test_client 0
              (test_mail "to@example.com"
                 (Some [attachment_of_path "huge.bin" "/tmp/huge.bin"])) [])
       = [] ++ evs
       /\ (Forall not_send evs
           \/ exists before after path rejection,
                evs = before ++ EvGraphPost path EmptyBody :: after
                /\ Forall not_send before
                /\ Forall not_send after
                /\ graph_post world_with_big_file ([] ++ before) path EmptyBody
                   = inl rejection).
Proof.
  split; [vm_compute; reflexivity |].
  apply (X13_nothing_is_sent_when_sendMail_throws world_with_big_file test_client 0
           (test_mail "to@example.com" (Some [attachment_of_path "huge.bin" "/tmp/huge.bin"]))
           [] Error_too_large).
  vm_compute. reflexivity.
Defined.

Lemma X14_witness :
  truthy_content (content attachment_with_everything) = true
  /\ exists evs,
       snd (uploadAttachment test_world test_client 0 "MSG-1"
              attachment_with_everything []) = [] ++ evs
       /\ Forall is_post_or_put evs.
Proof.
  split; [reflexivity |].
  apply X14_content_needs_no_file_and_no_download. reflexivity.
Defined.

Lemma X16_witness :
  truthy "<IM-123@exch.example.com>" = true
  /\ looks_like_internet_id "<IM-123@exch.example.com>" = true
  /\ getMailById world_with_message test_client "<IM-123@exch.example.com>"
       {| select := None; includeAttachments := None; idType := Some graph |} []
     = (Returned {| msg_id := "M-789"; msg_fields := [("subject", "S")];
                    msg_attachments := None |},
        [] ++ [EvGraphGet ("/users/" ++ sharedMailbox test_client ++ "/messages")
                 (Some (internet_id_filter "<IM-123@exch.example.com>"))
                 (Some (select_fields None))]).
Proof.
  split; [reflexivity |]. split; [reflexivity |].
  exact (X16_internet_message_id_is_looked_up_by_filter world_with_message test_client
           "<IM-123@exch.example.com>"
           {| select := None; includeAttachments := None; idType := Some graph |} []
           eq_refl (or_intror eq_refl)).
Defined.

Lemma X17_witness :
  escape_quotes "<o'neil@ex.com>" = escape_quotes "<o'neil@ex.com>"
  /\ "<o'neil@ex.com>" = "<o'neil@ex.com>".
Proof.
  split; [reflexivity |].
  apply X17_escape_quotes_injective. reflexivity.
Defined.

Lemma X18_witness :
  0 < 4
  /\ (Z.to_nat (buf_length (Buffer_from_string "hello world")) < 12)%nat
  /\ exists out evs upto,
       uploadLargeContent_loop world_refusing_chunks 12 "https://upload.example/session"
         (Buffer_from_string "hello world") 4 0 []
       = (out, [] ++ evs)
       /\ out <> OutOfFuel
       /\ sends_ranges "https://upload.example/session"
            (buf_length (Buffer_from_string "hello world")) 0 upto evs
       /\ upto <= buf_length (Buffer_from_string "hello world")
       /\ Forall well_formed_put evs
       /\ (out = Returned tt -> upto = buf_length (Buffer_from_string "hello world")).
Proof.
  split; [reflexivity |]. split; [vm_compute; lia |].
  apply X18_chunks_in_order_whatever_the_server; [reflexivity | vm_compute; lia].
Defined.

Lemma X19_witness :
  0 < 4
  /\ (Z.to_nat (buf_length (Buffer_from_string "hello world")) < 12)%nat
  /\ fst (uploadLargeContent_loop test_world 12 "https://upload.example/session"
            (Buffer_from_string "hello world") 4 0 []) = Returned tt
  /\ exists evs,
       snd (uploadLargeContent_loop test_world 12 "https://upload.example/session"
              (Buffer_from_string "hello world") 4 0 []) = [] ++ evs
       /\ Buffer_concat (put_bodies evs) = Buffer_from_string "hello world"
       /\ Forall (fun b => 0 < buf_length b <= 4) (put_bodies evs).
Proof.
  split; [reflexivity |]. split; [vm_compute; lia |]. split; [reflexivity |].
  apply X19_uploaded_bytes_are_the_content;
    [reflexivity | vm_compute; lia | reflexivity].
Defined.

Lemma X20_witness :
  accepts_chunks test_world
  /\ 0 < 4
  /\ exists evs,
       stream_upload test_world 12 "https://upload.example/session" 999 4
         {| stream_chunks := [Buffer_from_string "hello"; Buffer_from_string " world"];
            stream_failure := None |} []
       = (Returned tt, [] ++ evs)
       /\ Buffer_concat (put_bodies evs)
          = Buffer_concat [Buffer_from_string "hello"; Buffer_from_string " world"]
       /\ Forall (fun b => 0 < buf_length b <= 4) (put_bodies evs).
Proof.
  split; [exact test_world_accepts |]. split; [reflexivity |].
  apply (X20_streamed_bytes_are_the_body test_world 12 "https://upload.example/session"
           999 4
           {| stream_chunks := [Buffer_from_string "hello"; Buffer_from_string " world"];
              stream_failure := None |} []);
    [exact test_world_accepts | reflexivity | reflexivity | vm_compute; lia].
Defined.

Lemma X22_witness :
  is_http_url "https://example.com/data.bin" = true
  /\ probed_size world_of_unknown_length [] "https://example.com/data.bin" = None
  /\ exists out,
       uploadAttachmentFromUrl world_of_unknown_length test_client 0 "MSG-1" "data.bin"
         "https://example.com/data.bin" (Mime "application/octet-stream") []
       = (out, ([] ++ [EvFetch (HEAD "https://example.com/data.bin");
                       EvFetch (GET "https://example.com/data.bin")])
               ++ [EvGraphPost (attachments_path test_client "MSG-1")
                     (FileAttachment "data.bin" "YWJjZGVm"
                        (Mime "application/octet-stream"))]).
Proof.
  split; [reflexivity |]. split; [reflexivity |].
  refine (proj1 (proj2 (X22_download_of_unknown_length world_of_unknown_length test_client
                          0 "MSG-1" "data.bin" "https://example.com/data.bin"
                          (Mime "application/octet-stream") []
                          {| res_ok := true; res_status := 200;
                             res_contentLength := None;
                             res_arrayBuffer := Buffer_from_string "abcdef";
                             res_body := Some {| stream_chunks := [Buffer_from_string "abc";
                                                                   Buffer_from_string "def"];
                                                 stream_failure := None |} |}
                          {| stream_chunks := [Buffer_from_string "abc";
                                               Buffer_from_string "def"];
                             stream_failure := None |}
                          eq_refl eq_refl eq_refl eq_refl eq_refl eq_refl eq_refl)) _ _);
    vm_compute; discriminate.
Defined.


Lemma X24_witness :
  path_attachment (attachment_of_path "sample.txt" "/tmp/sample.txt") "/tmp/sample.txt"
  /\ exists out,
       uploadAttachment test_world test_client 0 "MSG-1"
         (attachment_of_path "sample.txt" "/tmp/sample.txt") []
       = (out, ([] ++ [EvStat "/tmp/sample.txt"; EvReadFile "/tmp/sample.txt"])
               ++ [EvGraphPost (attachments_path test_client "MSG-1")
                     (FileAttachment "sample.txt" "ZmlsZQ==" (Mime "text/plain"))]).
Proof.
  split; [repeat split |].
  refine (X24_small_file_is_read_and_attached test_world test_client 0 "MSG-1"
            (attachment_of_path "sample.txt" "/tmp/sample.txt") "/tmp/sample.txt" []
            {| stats_isFile := true; stats_size := 1024 |}
            _ eq_refl eq_refl _ _ _);
    [repeat split | discriminate | vm_compute; discriminate | vm_compute; discriminate].
Defined.

Lemma world_with_large_file_accepts : accepts_chunks world_with_large_file.
Proof.
  intros log url len s e total body. eexists. split; reflexivity.
Qed.

Lemma X25_witness :
  1500 <= MAX_ATTACHMENT_SIZE
  /\ accepts_chunks world_with_large_file
  /\ exists evs,
       uploadLargeFileByPath world_with_large_file test_client "MSG-1" "big.bin"
         "/tmp/big.bin" (Mime "application/octet-stream") 1500 []
       = (Returned tt,
          [] ++ [EvGraphPost (createUploadSession_path test_client "MSG-1")
                   (AttachmentItem "big.bin" 1500 (Mime "application/octet-stream"));
                 EvOpen "/tmp/big.bin";
                 EvCreateReadStream "/tmp/big.bin"
                   (normalizeChunkSize (chunkSize (attachmentUploadOptions test_client)))]
             ++ evs ++ [EvCloseStream "/tmp/big.bin"; EvCloseFile "/tmp/big.bin"])
       /\ Forall (is_put_to "https://upload.example/session" 1500) evs
       /\ put_bodies evs
          = [repeat x00 (Z.to_nat 1000); repeat x00 (Z.to_nat 500)].
Proof.
  split; [vm_compute; discriminate |]. split; [exact world_with_large_file_accepts |].
  apply (X25_large_file_is_streamed_and_closed world_with_large_file test_client "MSG-1"
           "big.bin" "/tmp/big.bin" (Mime "application/octet-stream") 1500 []
           {| resp_id := "MSG-1";
              resp_internetMessageId := "<IM-MSG-1@exch.example.com>";
              resp_uploadUrl := "https://upload.example/session" |});
    [vm_compute; discriminate | reflexivity | reflexivity | reflexivity
    | exact world_with_large_file_accepts].
Defined.


(** The events of that run, computed: the first chunk is refused, the
    stream is destroyed, and the second chunk is never sent. *)
Example refused_file_chunk_run :
  map (fun ev => match ev with
                 | EvFetch (PUT _ _ s e _ _) => Some (s, e)
                 | _ => None
                 end)
    (snd (uploadLargeFileByPath world_refusing_chunks test_client "MSG-1" "big.bin"
            "/tmp/big.bin" (Mime "application/octet-stream") 1500 []))
  = [None; None; None; Some (0, 999); None]
  /\ last (snd (uploadLargeFileByPath world_refusing_chunks test_client "MSG-1" "big.bin"
                  "/tmp/big.bin" (Mime "application/octet-stream") 1500 []))
          (EvOpen EmptyString)
     = EvDestroyStream "/tmp/big.bin".
Proof. split; vm_compute; reflexivity. Qed.

(** ** Failed chunks *)

Lemma uploadLargeContent_loop_thrown w url content C : forall fuel offset log e log',
  uploadLargeContent_loop w fuel url content C offset log = (Thrown e, log') ->
  exists evs req,
    log' = log ++ evs ++ [EvFetch req]
    /\ Forall is_put evs
    /\ is_put (EvFetch req)
    /\ match world_fetch w (log ++ evs) req with
       | inl rejection => e = rejection
       | inr res =>
         chunk_rejected res = true
         /\ e = Error ("Upload chunk failed with status " ++ show_Z (res_status res))
       end.
Proof.
  induction fuel as [| fuel IH]; intros offset log e log'; [discriminate |].
  cbn [uploadLargeContent_loop].
  destruct (offset <? buf_length content); [| discriminate].
  set (req := PUT _ _ _ _ _ _). unfold bind, fetch, call.
  destruct (world_fetch w log req) as [rejection | res] eqn:Hans.
  - intros [= <- <-]. exists [], req. rewrite app_nil_r. cbn [app].
    split; [reflexivity |]. split; [constructor |]. split; [exact I |].
    rewrite Hans. reflexivity.
  - destruct (chunk_rejected res) eqn:Hrej.
    + intros [= <- <-]. exists [], req. rewrite app_nil_r. cbn [app].
      split; [reflexivity |]. split; [constructor |]. split; [exact I |].
      rewrite Hans. auto.
    + intros Hrun. destruct (IH _ _ _ _ Hrun) as [evs [req' [-> [Hput [Hreq Hans']]]]].
      exists (EvFetch req :: evs), req'. rewrite <- !app_assoc. cbn [app].
      split; [reflexivity |]. split; [constructor; [exact I | assumption] |].
      split; [assumption |].
      rewrite <- app_assoc in Hans'. exact Hans'.
Qed.

(** X27. When the chunk loop of [uploadLargeContent] throws, the last call
    it has made is the [PUT] that failed, and nothing was sent after it:
    the error is either the rejection of that [PUT], or the error
    [Upload chunk failed with status s] where [s] is the status of its
    answer, an answer that is not [ok] and whose status is none of 200,
    201 and 202. *)
Theorem X27_failed_chunk_ends_the_transfer w fuel url content C offset log e log' :
  uploadLargeContent_loop w fuel url content C offset log = (Thrown e, log') ->
  exists evs req,
    log' = log ++ evs ++ [EvFetch req]
    /\ Forall is_put evs
    /\ is_put (EvFetch req)
    /\ match world_fetch w (log ++ evs) req with
       | inl rejection => e = rejection
       | inr res =>
         chunk_rejected res = true
         /\ e = Error ("Upload chunk failed with status " ++ show_Z (res_status res))
       end.
Proof. apply uploadLargeContent_loop_thrown. Qed.

Lemma X27_witness :
  uploadLargeContent_loop world_refusing_chunks 12 "https://upload.example/session"
    (Buffer_from_string "hello world") 4 0 []
  = (Thrown (Error "Upload chunk failed with status 500"),
     [EvFetch (PUT "https://upload.example/session" 4 0 3 11 (Buffer_from_string "hell"))])
  /\ exists evs req,
       [EvFetch (PUT "https://upload.example/session" 4 0 3 11 (Buffer_from_string "hell"))]
       = [] ++ evs ++ [EvFetch req]
       /\ Forall is_put evs
       /\ is_put (EvFetch req)
       /\ match world_fetch world_refusing_chunks ([] ++ evs) req with
          | inl rejection => Error "Upload chunk failed with status 500" = rejection
          | inr res =>
            chunk_rejected res = true
            /\ Error "Upload chunk failed with status 500"
               = Error ("Upload chunk failed with status " ++ show_Z (res_status res))
          end.
Proof.
  split; [reflexivity |].
  apply (X27_failed_chunk_ends_the_transfer world_refusing_chunks 12
           "https://upload.example/session" (Buffer_from_string "hello world") 4 0 []).
  reflexivity.
Defined.
